(** * shared-state-server: a shallow embedding of [server.cpp]

    The server keeps a map from keys to SHA-1 digests.  A session reads
    newline-terminated lines from its socket, splits each one at the first
    space into a key and a value, and hands the pair to [shared_state];
    [shared_state] has the value hashed by [hasher], stores the digest when it
    differs from the stored one and, in that case, has the new line
    broadcast to every session.

    Layout of this file:
    - byte strings and the [std::string] operations the code uses;
    - SHA-1 and the digest formatting of [hasher::hash_impl];
    - [std::map<shared_buffer, shared_buffer, my_cmp>] and [shared_state];
    - the read path of [session];
    - [hasher] and the whole server as transition systems over the
      serialised handler queues (asio strands) and the worker pool;
    - the theorems. *)

From Stdlib Require Import ZArith List Bool Arith Lia String Ascii.
From Stdlib Require Import Sorted Permutation.
Import ListNotations.

Local Open Scope string_scope.
Local Open Scope list_scope.

(** ** Byte strings *)

(** [shared_buffer] is a [std::shared_ptr<std::string>]; nothing in the
    server mutates a buffer after it has been handed over, except the read
    buffer of a session, which is threaded explicitly below.  A buffer is
    therefore modelled by its contents. *)
Definition shared_buffer := string.

Definition SP : ascii := " "%char.
Definition LF : ascii := "010"%char.

(** [std::string_view::find(c)]: the index of the first occurrence, [None]
    standing for [npos]. *)
Fixpoint find (c : ascii) (sv : string) : option nat :=
  match sv with
  | EmptyString => None
  | String a rest =>
      if Ascii.eqb a c then Some 0
      else match find c rest with
           | Some i => Some (S i)
           | None => None
           end
  end.

(** The range constructor [std::string{beg, end}] over a view: the bytes at
    indices [from <= i < to]. *)
Definition range (sv : string) (from to : nat) : string :=
  substring from (to - from) sv.

(** The first [n] bytes and what is left after erasing them. *)
Definition take (n : nat) (s : string) : string := substring 0 n s.

Fixpoint erase_front (n : nat) (s : string) : string :=
  match n, s with
  | 0, _ => s
  | S n', String _ rest => erase_front n' rest
  | S _, EmptyString => EmptyString
  end.

Fixpoint contains (c : ascii) (s : string) : bool :=
  match s with
  | EmptyString => false
  | String a rest => Ascii.eqb a c || contains c rest
  end.

Fixpoint bytes_of (s : string) : list Z :=
  match s with
  | EmptyString => []
  | String a rest => Z.of_N (N_of_ascii a) :: bytes_of rest
  end.

(** ** SHA-1 ([boost::uuids::detail::sha1]) *)

Module Sha1.

Local Open Scope Z_scope.

(** Arithmetic on [unsigned int]: 32 bits, wrapping. *)
Definition w32 (x : Z) : Z := Z.land x 0xFFFFFFFF.
Definition add32 (a b : Z) : Z := w32 (a + b).
Definition not32 (a : Z) : Z := Z.lxor a 0xFFFFFFFF.

Definition left_rotate (x n : Z) : Z :=
  w32 (Z.lxor (Z.shiftl x n) (Z.shiftr x (32 - n))).

Record state := mk_state { h0 : Z; h1 : Z; h2 : Z; h3 : Z; h4 : Z }.

Definition init : state :=
  mk_state 0x67452301 0xEFCDAB89 0x98BADCFE 0x10325476 0xC3D2E1F0.

(** The sixteen big-endian words of a 64-byte block. *)
Fixpoint block_words (block : list Z) (n : nat) : list Z :=
  match n, block with
  | S n', b0 :: b1 :: b2 :: b3 :: rest =>
      Z.lor (Z.lor (Z.lor (Z.shiftl b0 24) (Z.shiftl b1 16)) (Z.shiftl b2 8)) b3
      :: block_words rest n'
  | _, _ => []
  end.

(** The message schedule [w[16..79]].  [recent] holds the words computed so
    far, newest first, so that [w[i-3]] is at index 2 and [w[i-16]] at 15. *)
Fixpoint schedule (n : nat) (recent : list Z) : list Z :=
  match n with
  | O => recent
  | S n' =>
      let w := left_rotate
                 (Z.lxor (Z.lxor (Z.lxor (nth 2 recent 0) (nth 7 recent 0))
                                 (nth 13 recent 0))
                         (nth 15 recent 0)) 1 in
      schedule n' (w :: recent)
  end.

Definition expand (block : list Z) : list Z :=
  rev (schedule 64 (rev (block_words block 16))).

Definition round_f (i : nat) (b c d : Z) : Z :=
  if (i <? 20)%nat then Z.lor (Z.land b c) (Z.land (not32 b) d)
  else if (i <? 40)%nat then Z.lxor (Z.lxor b c) d
  else if (i <? 60)%nat then
    Z.lor (Z.lor (Z.land b c) (Z.land b d)) (Z.land c d)
  else Z.lxor (Z.lxor b c) d.

Definition round_k (i : nat) : Z :=
  if (i <? 20)%nat then 0x5A827999
  else if (i <? 40)%nat then 0x6ED9EBA1
  else if (i <? 60)%nat then 0x8F1BBCDC
  else 0xCA62C1D6.

Fixpoint rounds (i : nat) (w : list Z) (a b c d e : Z) : state :=
  match w with
  | [] => mk_state a b c d e
  | wi :: w' =>
      let temp :=
        add32 (add32 (add32 (add32 (left_rotate a 5) (round_f i b c d)) e)
                     (round_k i)) wi in
      rounds (S i) w' temp a (left_rotate b 30) c d
  end.

Definition process_block (h : state) (block : list Z) : state :=
  let r := rounds 0 (expand block) (h0 h) (h1 h) (h2 h) (h3 h) (h4 h) in
  mk_state (add32 (h0 h) (h0 r)) (add32 (h1 h) (h1 r)) (add32 (h2 h) (h2 r))
           (add32 (h3 h) (h3 r)) (add32 (h4 h) (h4 r)).

(** The padding of [get_digest]: a [0x80] byte, zeros up to 56 modulo 64,
    then the bit count as eight big-endian bytes. *)
Definition be64 (n : Z) : list Z :=
  map (fun k => Z.land (Z.shiftr n (8 * k)) 0xFF) [7; 6; 5; 4; 3; 2; 1; 0].

Definition padding (len : nat) : list Z :=
  (0x80 :: repeat 0 ((119 - len mod 64) mod 64)%nat
        ++ be64 (8 * Z.of_nat len))%list.

Fixpoint process_blocks (fuel : nat) (h : state) (bytes : list Z) : state :=
  match fuel, bytes with
  | S fuel', _ :: _ =>
      process_blocks fuel' (process_block h (firstn 64 bytes)) (skipn 64 bytes)
  | _, _ => h
  end.

(** [process_bytes] followed by [get_digest]: the five words of the digest. *)
Definition get_digest (msg : list Z) : list Z :=
  let padded := (msg ++ padding (List.length msg))%list in
  let h := process_blocks (List.length padded) init padded in
  [h0 h; h1 h; h2 h; h3 h; h4 h].

End Sha1.

(** ** The digest format of [hasher::hash_impl] *)

Definition hex_digit (n : Z) : ascii :=
  match n with
  | 0%Z => "0" | 1%Z => "1" | 2%Z => "2" | 3%Z => "3"
  | 4%Z => "4" | 5%Z => "5" | 6%Z => "6" | 7%Z => "7"
  | 8%Z => "8" | 9%Z => "9" | 10%Z => "a" | 11%Z => "b"
  | 12%Z => "c" | 13%Z => "d" | 14%Z => "e" | _ => "f"
  end%char.

(** [sprintf(p, "%08x", w)] for a 32-bit [w]: eight lowercase digits. *)
Definition sprintf_08x (w : Z) : string :=
  string_of_list_ascii
    (map (fun k => hex_digit (Z.land (Z.shiftr w (4 * k)) 0xF))
         [7; 6; 5; 4; 3; 2; 1; 0]%Z).

Fixpoint format_digest (hash_dig : list Z) : string :=
  match hash_dig with
  | [] => ""
  | w :: rest => (sprintf_08x w ++ format_digest rest)%string
  end.

(** The body of the job that [hasher::hash_impl] posts to the pool: the value
    it posts back is ['0' 'x'] followed by the five formatted words. *)
Definition sha1_hex (str : shared_buffer) : shared_buffer :=
  ("0x" ++ format_digest (Sha1.get_digest (bytes_of str)))%string.


(** ** [shared_state]: the ordered map and its handlers *)

(** [my_cmp]: [*l < *r] on [std::string], the lexicographic order of the
    bytes taken as unsigned values. *)
Definition my_cmp (l r : shared_buffer) : bool := String.ltb l r.

(** [std::map<shared_buffer, shared_buffer, my_cmp>]: the entries in the
    order of the comparator.  The tree is abstracted to the sequence of its
    nodes, which is what the iterators walk. *)
Definition map_type := list (shared_buffer * shared_buffer).

(** The comparator sorts the nodes strictly: the class invariant of
    [std::map]. *)
Definition map_ok (m : map_type) : Prop :=
  StronglySorted (fun a b => my_cmp (fst a) (fst b) = true) m.

Definition keys (m : map_type) : list shared_buffer := map fst m.

(** [m_map.find(key)]: the node whose key is equivalent to [key] under the
    comparator (neither is less than the other), found by walking up to the
    first node that is not less than [key]. *)
Fixpoint map_find (key : shared_buffer) (m : map_type)
  : option (shared_buffer * shared_buffer) :=
  match m with
  | [] => None
  | (k, h) :: rest =>
      if my_cmp k key then map_find key rest
      else if my_cmp key k then None
      else Some (k, h)
  end.

(** [m_map.emplace(key, hash)]: a new node at its place in the order; no
    effect when an equivalent key is present. *)
Fixpoint map_emplace (key hash : shared_buffer) (m : map_type) : map_type :=
  match m with
  | [] => [(key, hash)]
  | (k, h) :: rest =>
      if my_cmp k key then (k, h) :: map_emplace key hash rest
      else if my_cmp key k then (key, hash) :: m
      else m
  end.

(** [it->second = hash] for the node [it] that [find(key)] returned. *)
Fixpoint map_assign (key hash : shared_buffer) (m : map_type) : map_type :=
  match m with
  | [] => []
  | (k, h) :: rest =>
      if my_cmp k key then (k, h) :: map_assign key hash rest
      else if my_cmp key k then m
      else (k, hash) :: rest
  end.

(** A [const_iterator] that designates a node is represented by the key of
    the node: nodes are never erased and keep their key, so the iterator
    stays valid across insertions, as in [std::map].  [None] is [end()]. *)
Definition node_iterator := shared_buffer.
Definition const_iterator := option node_iterator.

(** [std::next(it)] for the node with key [k]: the first node after it in
    the order, with its fields. *)
Fixpoint map_next (k : node_iterator) (m : map_type)
  : option (shared_buffer * shared_buffer) :=
  match m with
  | [] => None
  | (k', h') :: rest =>
      if my_cmp k k' then Some (k', h') else map_next k rest
  end.

(** The arguments of the callbacks of [get_first] and [get_next]:
    [(empty or at_end, it, key, hash)]; a null [shared_buffer] is [None]. *)
Definition iter_result : Type :=
  bool * const_iterator * option shared_buffer * option shared_buffer.

Definition get_size_impl (m : map_type) : nat := List.length m.

Definition get_first_impl (m : map_type) : iter_result :=
  match m with
  | (k, h) :: _ => (false, Some k, Some k, Some h)
  | [] => (true, None, None, None)
  end.

(** [get_next_impl] is only called with the iterator of a node:
    [session::on_got_message] goes on only when it was not told [empty]. *)
Definition get_next_impl (m : map_type) (it : node_iterator) : iter_result :=
  match map_next it m with
  | Some (k, h) => (false, Some k, Some k, Some h)
  | None => (true, None, None, None)
  end.

(** What the walk reports at position [i] of the map: the node there, or
    the end. *)
Definition result_at (m : map_type) (i : nat) : iter_result :=
  match nth_error m i with
  | Some (k, h) => (false, Some k, Some k, Some h)
  | None => (true, None, None, None)
  end.

(** The arguments of the callback of [update]: [(updated, key, hash)]. *)
Definition update_result : Type :=
  bool * option shared_buffer * option shared_buffer.

(** [shared_state::hash_calculated]: the new map and what the callback is
    called with. *)
Definition hash_calculated (m : map_type) (key hash : shared_buffer)
  : map_type * update_result :=
  match map_find key m with
  | None =>
      (map_emplace key hash m, (true, Some key, Some hash))
  | Some (k, h) =>
      if negb (String.eqb h hash) then
        (map_assign key hash m, (true, Some k, Some hash))
      else
        (m, (false, None, None))
  end.

(** [update(key, val, cb)] with nothing else in flight: [calculate_hash]
    hands [val] to the hasher, whose result comes back to
    [hash_calculated]. *)
Definition update (m : map_type) (key val : shared_buffer)
  : map_type * update_result :=
  hash_calculated m key (sha1_hex val).

(** ** [session]: the line reader *)

(** [session::on_updated]: the line handed to [broadcast_cb], if any. *)
Definition on_updated (r : update_result) : option shared_buffer :=
  match r with
  | (true, Some key, Some hash) =>
      Some (key ++ String SP "" ++ hash ++ String LF "")%string
  | _ => None
  end.

(** The line of [session::on_got_message], sent while a new client is
    brought up to date; nothing is sent once the iteration is over. *)
Definition on_got_message (r : iter_result)
  : option (node_iterator * shared_buffer) :=
  match r with
  | (false, Some it, Some key, Some hash) =>
      Some (it, (key ++ String SP "" ++ hash ++ String LF "")%string)
  | _ => None
  end.

Inductive error_code := ec_success | ec_eof | ec_other.

(** [async_read_until(m_sock, dynamic_buffer(buf), '\n', handler)] as asio
    documents it: the operation completes at once when the buffer already
    holds the delimiter, and otherwise appends what the socket delivers
    until the buffer holds one; the handler gets the number of bytes up to
    and including the first delimiter.  [incoming] lists the pieces that
    the socket will deliver before the peer closes. *)
Fixpoint async_read_until (incoming : list string) (buf : string)
  : error_code * nat * string * list string :=
  match find LF buf with
  | Some i => (ec_success, S i, buf, incoming)
  | None =>
      match incoming with
      | [] => (ec_eof, 0, buf, [])
      | piece :: rest => async_read_until rest (buf ++ piece)%string
      end
  end.

(** What [session::on_readed] does, in the three ways it can end. *)
Inductive readed :=
| rd_closed
    (* an error: logged, no further read is started *)
| rd_wrong_string (buf : string)
    (* no space: logged, [start_read] with the buffer as it is *)
| rd_update (key val : shared_buffer) (buf : string).
    (* [m_state.update(key, val, ...)], then [start_read] *)

Definition on_readed (buf : string) (ec : error_code) (rd : nat) : readed :=
  match ec with
  | ec_success =>
      let sv := take rd buf in
      match find SP sv with
      | None => rd_wrong_string buf
      | Some pos =>
          let key := range sv 0 pos in
          let val := range sv (pos + 1) (String.length sv) in
          rd_update key val (erase_front rd buf)
      end
  | _ => rd_closed
  end.

(** The read loop of one session, [start_read] and [on_readed] in turn, for
    at most [fuel] reads: the updates it submits, in order. *)
Fixpoint read_loop (fuel : nat) (incoming : list string) (buf : string)
  : list (shared_buffer * shared_buffer) :=
  match fuel with
  | O => []
  | S fuel' =>
      match async_read_until incoming buf with
      | (ec, rd, buf1, incoming1) =>
          match on_readed buf1 ec rd with
          | rd_closed => []
          | rd_wrong_string buf2 => read_loop fuel' incoming1 buf2
          | rd_update key val buf2 =>
              (key, val) :: read_loop fuel' incoming1 buf2
          end
      end
  end.

(** A server with one client and nothing else in flight: each submitted
    update is applied in turn; the lines broadcast are collected. *)
Fixpoint apply_updates (m : map_type)
    (ups : list (shared_buffer * shared_buffer))
  : map_type * list shared_buffer :=
  match ups with
  | [] => (m, [])
  | (key, val) :: rest =>
      let (m1, r) := update m key val in
      let (m2, out) := apply_updates m1 rest in
      (m2, match on_updated r with
           | Some msg => msg :: out
           | None => out
           end)
  end.

(** The walk that brings a new client up to date: [get_first], then
    [get_next] after each line, until the end is reported; the entries
    visited, in order.  The map is not changed meanwhile. *)
Fixpoint snapshot_from (fuel : nat) (m : map_type) (r : iter_result)
  : option (list (shared_buffer * shared_buffer)) :=
  match r with
  | (false, Some it, Some key, Some hash) =>
      match fuel with
      | O => None
      | S fuel' =>
          match snapshot_from fuel' m (get_next_impl m it) with
          | Some rest => Some ((key, hash) :: rest)
          | None => None
          end
      end
  | _ => Some []
  end.

Definition snapshot (fuel : nat) (m : map_type)
  : option (list (shared_buffer * shared_buffer)) :=
  snapshot_from fuel m (get_first_impl m).

(** The operations of [shared_state], as its strand runs them. *)
Inductive operation :=
| op_update (key hash : shared_buffer)
| op_get_size
| op_get_first
| op_get_next (it : node_iterator).

Definition run_operation (m : map_type) (o : operation) : map_type :=
  match o with
  | op_update key hash => fst (hash_calculated m key hash)
  | op_get_size => let _ := get_size_impl m in m
  | op_get_first => let _ := get_first_impl m in m
  | op_get_next it => let _ := get_next_impl m it in m
  end.

Definition run_operations (m : map_type) (ops : list operation) : map_type :=
  fold_left run_operation ops m.

(** ** Vocabulary of the statements *)

(** The value of a lowercase hexadecimal digit, the inverse of
    [hex_digit]. *)
Definition hex_value (c : ascii) : Z :=
  match c with
  | "0" => 0 | "1" => 1 | "2" => 2 | "3" => 3
  | "4" => 4 | "5" => 5 | "6" => 6 | "7" => 7
  | "8" => 8 | "9" => 9 | "a" => 10 | "b" => 11
  | "c" => 12 | "d" => 13 | "e" => 14 | _ => 15
  end%char%Z.

(** The words of a SHA-1 state fit [unsigned int]. *)
Definition state_range (h : Sha1.state) : Prop :=
  Forall (fun w => 0 <= w < 2 ^ 32)%Z
    [Sha1.h0 h; Sha1.h1 h; Sha1.h2 h; Sha1.h3 h; Sha1.h4 h].

Definition lower_hex_digit (c : ascii) : bool :=
  (Ascii.leb "0" c && Ascii.leb c "9") || (Ascii.leb "a" c && Ascii.leb c "f").

Fixpoint string_forall (p : ascii -> bool) (s : string) : bool :=
  match s with
  | EmptyString => true
  | String a rest => p a && string_forall p rest
  end.

(** A hash as it goes over the wire: [0x] and forty lowercase hexadecimal
    digits. *)
Definition wire_hash (h : shared_buffer) : Prop :=
  exists digits,
    h = ("0x" ++ digits)%string
    /\ String.length digits = 40
    /\ string_forall lower_hex_digit digits = true.

(** The line [KEY SP HASH LF] that the server sends. *)
Definition line (key hash : shared_buffer) : shared_buffer :=
  (key ++ String SP "" ++ hash ++ String LF "")%string.

(** ** [hasher] *)

(** Handlers posted to one strand run one at a time, in the order in which
    they were posted; jobs posted to the [io_context] itself run on any
    thread of the pool, in any order.  A strand is therefore a queue that
    is served at its head, the pool a collection of jobs of which any one
    may run next.  The state of a component is touched by the handlers of
    its own strand only, so a run of the server is a sequence of such
    handlers and jobs, each taken as one step; the one handler that posts
    more than once to the same strand, [on_hashed] with its loop, is cut
    into one step per callback, so that what other strands post meanwhile
    can fall in between. *)

Section Hasher.

Context {CB : Type}.

(** A node of [m_queue].  The iterator that [hash_impl] keeps of it is the
    identity of the node, [it_node]; [it_hash] is null until [on_hashed]
    fills it in. *)
Record queue_item := mk_queue_item {
  it_node : nat;
  it_str : shared_buffer;
  it_hash : option shared_buffer;
  it_cb : CB
}.

Definition queue_type := list queue_item.

Inductive hasher_task :=
| t_hash_impl (str : shared_buffer) (cb : CB)
| t_on_hashed (it : nat) (hash : shared_buffer).

(** [m_queue], the callbacks that the loop of the running [on_hashed] has
    still to call, the handlers waiting on [m_strand], the jobs waiting on
    [m_ioc] (each captured its iterator), and the number of nodes made so
    far.  [h_posted] and [h_called] record the history: the calls of
    [hash] and the callbacks invoked, both in order. *)
Record hasher := mk_hasher {
  m_queue : queue_type;
  h_calling : list (CB * shared_buffer);
  h_nodes : nat;
  h_strand : list hasher_task;
  h_pool : list nat;
  h_posted : list (shared_buffer * CB);
  h_called : list (CB * shared_buffer)
}.

Definition hasher_init : hasher := mk_hasher [] [] 0 [] [] [] [].

(** [hasher::hash]: post [hash_impl] to the strand. *)
Definition hash (h : hasher) (str : shared_buffer) (cb : CB) : hasher :=
  mk_hasher (m_queue h) (h_calling h) (h_nodes h)
            (h_strand h ++ [t_hash_impl str cb]) (h_pool h)
            (h_posted h ++ [(str, cb)]) (h_called h).

(** [hasher::hash_impl]: a new node at the end of the queue, and the job
    for it posted to the pool. *)
Definition hash_impl (q : queue_type) (node : nat)
    (str : shared_buffer) (cb : CB) : queue_type :=
  q ++ [mk_queue_item node str None cb].

Fixpoint find_node (it : nat) (q : queue_type) : option queue_item :=
  match q with
  | [] => None
  | item :: rest =>
      if Nat.eqb (it_node item) it then Some item else find_node it rest
  end.

(** The job: SHA-1 of [it->str], formatted, posted back to the strand with
    the iterator.  The node is in the queue as long as its hash is not
    set. *)
Definition pool_job (q : queue_type) (it : nat) : option hasher_task :=
  match find_node it q with
  | Some item => Some (t_on_hashed it (sha1_hex (it_str item)))
  | None => None
  end.

(** [it->hash = std::move(hash)]. *)
Fixpoint set_hash (it : nat) (hash : shared_buffer) (q : queue_type)
  : queue_type :=
  match q with
  | [] => []
  | item :: rest =>
      if Nat.eqb (it_node item) it
      then mk_queue_item (it_node item) (it_str item) (Some hash)
             (it_cb item) :: rest
      else item :: set_hash it hash rest
  end.

(** The loop of [on_hashed]: while the first node has a hash that is not
    empty, call its callback with it and erase the node.  The callbacks
    called, in order, and what is left of the queue. *)
Fixpoint drain (q : queue_type) : list (CB * shared_buffer) * queue_type :=
  match q with
  | [] => ([], [])
  | item :: rest =>
      match it_hash item with
      | Some hash =>
          if negb (String.eqb hash "") then
            let (calls, q') := drain rest in
            ((it_cb item, hash) :: calls, q')
          else ([], q)
      | None => ([], q)
      end
  end.

(** [hasher::on_hashed]. *)
Definition on_hashed (q : queue_type) (it : nat) (hash : shared_buffer)
  : list (CB * shared_buffer) * queue_type :=
  let q1 := set_hash it hash q in
  match q1 with
  | first :: _ =>
      if Nat.eqb (it_node first) it then drain q1 else ([], q1)
  | [] => ([], q1)
  end.

(** The strand goes on: with the next callback of the loop of the running
    [on_hashed], or else with its oldest handler.  The hasher afterwards
    and the callback called, if any. *)
Definition hasher_strand_step (h : hasher)
  : option (hasher * list (CB * shared_buffer)) :=
  match h_calling h with
  | call :: calling =>
      Some (mk_hasher (m_queue h) calling (h_nodes h) (h_strand h)
                      (h_pool h) (h_posted h) (h_called h ++ [call]),
            [call])
  | [] =>
      match h_strand h with
      | [] => None
      | t_hash_impl str cb :: strand =>
          Some (mk_hasher (hash_impl (m_queue h) (h_nodes h) str cb) []
                          (S (h_nodes h)) strand (h_pool h ++ [h_nodes h])
                          (h_posted h) (h_called h),
                [])
      | t_on_hashed it hash :: strand =>
          let (calls, q) := on_hashed (m_queue h) it hash in
          Some (mk_hasher q calls (h_nodes h) strand (h_pool h)
                          (h_posted h) (h_called h),
                [])
      end
  end.

(** The pool runs the job at position [i] of those waiting. *)
Definition hasher_pool_step (h : hasher) (i : nat) : option hasher :=
  match nth_error (h_pool h) i with
  | Some it =>
      match pool_job (m_queue h) it with
      | Some t =>
          Some (mk_hasher (m_queue h) (h_calling h) (h_nodes h)
                          (h_strand h ++ [t])
                          (firstn i (h_pool h) ++ skipn (S i) (h_pool h))
                          (h_posted h) (h_called h))
      | None => None
      end
  | None => None
  end.

(** What can happen next to a hasher, and a run of such events. *)
Inductive hasher_event :=
| he_hash (str : shared_buffer) (cb : CB)
| he_strand
| he_pool (i : nat).

Definition hasher_step (h : hasher) (e : hasher_event) : option hasher :=
  match e with
  | he_hash str cb => Some (hash h str cb)
  | he_strand => option_map fst (hasher_strand_step h)
  | he_pool i => hasher_pool_step h i
  end.

Fixpoint hasher_run (h : hasher) (es : list hasher_event) : option hasher :=
  match es with
  | [] => Some h
  | e :: rest =>
      match hasher_step h e with
      | Some h' => hasher_run h' rest
      | None => None
      end
  end.

(** What the callback of a job is owed: the digest of the job's input. *)
Definition owed (job : shared_buffer * CB) : CB * shared_buffer :=
  (snd job, sha1_hex (fst job)).

Definition item_owed (item : queue_item) : CB * shared_buffer :=
  (it_cb item, sha1_hex (it_str item)).

Fixpoint strand_owed (strand : list hasher_task) : list (CB * shared_buffer) :=
  match strand with
  | [] => []
  | t_hash_impl str cb :: rest => (cb, sha1_hex str) :: strand_owed rest
  | t_on_hashed _ _ :: rest => strand_owed rest
  end.

(** The iterators of the [on_hashed] handlers that wait on the strand. *)
Fixpoint strand_nodes (strand : list hasher_task) : list nat :=
  match strand with
  | [] => []
  | t_hash_impl _ _ :: rest => strand_nodes rest
  | t_on_hashed it _ :: rest => it :: strand_nodes rest
  end.

End Hasher.

Arguments queue_item : clear implicits.
Arguments queue_type : clear implicits.
Arguments hasher_task : clear implicits.
Arguments hasher : clear implicits.
Arguments hasher_event : clear implicits.

(** *** What holds of a hasher at all times *)

Section HasherInvariant.

Context {CB : Type}.

Definition nodes (q : queue_type CB) : list nat := map it_node q.

(** The iterators held by work that is still to run: the [on_hashed]
    handlers on the strand and the jobs on the pool. *)
Definition pending (h : hasher CB) : list nat :=
  strand_nodes (h_strand h) ++ h_pool h.

Definition unhashed (q : queue_type CB) (it : nat) : Prop :=
  exists item, find_node it q = Some item /\ it_hash item = None.

Definition task_ok (q : queue_type CB) (t : hasher_task CB) : Prop :=
  match t with
  | t_hash_impl _ _ => True
  | t_on_hashed it hash =>
      exists item, find_node it q = Some item /\ hash = sha1_hex (it_str item)
  end.

Definition hash_ok (item : queue_item CB) : Prop :=
  forall hash, it_hash item = Some hash -> hash = sha1_hex (it_str item).

Record hasher_inv (h : hasher CB) : Prop := {
  (** the jobs posted are the callbacks called, then those that the loop
      is about to call, then the nodes of the queue, then the [hash_impl]
      handlers that wait, in this order *)
  inv_order :
    map owed (h_posted h)
    = h_called h ++ h_calling h ++ map item_owed (m_queue h)
      ++ strand_owed (h_strand h);
  inv_nodup : NoDup (nodes (m_queue h));
  inv_fresh : Forall (fun n => n < h_nodes h) (nodes (m_queue h));
  inv_hash : Forall hash_ok (m_queue h);
  inv_strand : Forall (task_ok (m_queue h)) (h_strand h);
  inv_pending_nodup : NoDup (pending h);
  inv_pending : Forall (unhashed (m_queue h)) (pending h);
  inv_waiting :
    Forall (fun item => it_hash item = None -> In (it_node item) (pending h))
           (m_queue h);
  inv_head :
    match m_queue h with
    | item :: _ => it_hash item = None
    | [] => True
    end
}.

End HasherInvariant.

(** The jobs that a run submits to the hasher, in order. *)
Fixpoint submissions {CB : Type} (es : list (hasher_event CB))
  : list (shared_buffer * CB) :=
  match es with
  | [] => []
  | he_hash str cb :: rest => (str, cb) :: submissions rest
  | _ :: rest => submissions rest
  end.

(** ** The server: sessions, [shared_state], [session_manager] *)

Definition session_id := nat.

(** The callback that [session::on_readed] gives to [update]: the closure
    over the session and its [broadcast_cb].  [cb_seq] is not in the code:
    it numbers the lines accepted, over all sessions, in the order in which
    [on_readed] accepted them, so that the statements can tell which
    update a later step belongs to. *)
Record update_cb := mk_update_cb {
  cb_session : session_id;
  cb_seq : nat
}.

(** The callback that [calculate_hash] gives to the hasher: the closure
    over [key] and the callback of [update]. *)
Definition hash_cb : Type := shared_buffer * update_cb.

(** Handlers on [shared_state::m_strand]. *)
Inductive state_task :=
| t_calculate_hash (key val : shared_buffer) (cb : update_cb)
| t_hash_calculated (key hash : shared_buffer) (cb : update_cb)
| t_get_first (s : session_id)
| t_get_next (it : node_iterator) (s : session_id).

(** The completion callback of a [send]: the empty lambda of
    [session_manager::broadcast], labelled with the number of the update
    that is broadcast, or [on_get_first_sent] with its iterator. *)
Inductive send_cb :=
| cb_broadcast (seq : nat)
| cb_sync (it : node_iterator).

(** Handlers on the executor of a session's socket: the lambda of
    [on_got_message], which calls [send], and the lambda of [send], which
    calls [send_impl]. *)
Inductive session_task :=
| t_sync_send (it : node_iterator) (str : shared_buffer)
| t_send_impl (msg : shared_buffer) (cb : send_cb).

(** A session: the read buffer, whether a read is pending, whether the
    object is gone (the [weak_ptr] of the registry no longer locks), the
    handlers waiting on its executor, the writes in flight, and every
    message handed to [async_write] so far, in the order of the calls. *)
Record session := mk_session {
  s_buf : string;
  s_reading : bool;
  s_expired : bool;
  s_exec : list session_task;
  s_writing : list send_cb;
  s_written : list (shared_buffer * send_cb)
}.

Definition new_session : session := mk_session "" true false [] [] [].

(** Handlers on [session_manager::m_strand]. *)
Inductive smgr_task :=
| t_add (s : session_id)
| t_broadcast (msg : shared_buffer) (seq : nat).

(** The server.  [submitted] and [applied] record the history: the lines
    accepted by [on_readed], and the runs of [hash_calculated], in
    order. *)
Record server := mk_server {
  m_map : map_type;
  state_strand : list state_task;
  m_hasher : hasher hash_cb;
  m_list : list session_id;
  smgr_strand : list smgr_task;
  sessions : list session;
  submitted : list (update_cb * shared_buffer * shared_buffer);
  applied : list (update_cb * shared_buffer * shared_buffer)
}.

Definition server_init : server :=
  mk_server [] [] hasher_init [] [] [] [] [].

Fixpoint update_nth {A : Type} (n : nat) (f : A -> A) (l : list A) : list A :=
  match l, n with
  | [], _ => []
  | x :: rest, O => f x :: rest
  | x :: rest, S n' => x :: update_nth n' f rest
  end.

Definition set_sessions (st : server) (ss : list session) : server :=
  mk_server (m_map st) (state_strand st) (m_hasher st) (m_list st)
            (smgr_strand st) ss (submitted st) (applied st).

Definition post_state (st : server) (t : state_task) : server :=
  mk_server (m_map st) (state_strand st ++ [t]) (m_hasher st) (m_list st)
            (smgr_strand st) (sessions st) (submitted st) (applied st).

(** [ba::post(m_sock.get_executor(), ...)] *)
Definition post_session (s : session_id) (t : session_task)
    (ss : list session) : list session :=
  update_nth s
    (fun x => mk_session (s_buf x) (s_reading x) (s_expired x)
                (s_exec x ++ [t]) (s_writing x) (s_written x))
    ss.

(** [acceptor::on_accepted]: the session is made and started (a read is
    pending, [get_first] is posted to the state), and added to the
    registry. *)
Definition accept (st : server) : server :=
  let s := List.length (sessions st) in
  mk_server (m_map st) (state_strand st ++ [t_get_first s]) (m_hasher st)
            (m_list st) (smgr_strand st ++ [t_add s])
            (sessions st ++ [new_session]) (submitted st) (applied st).

(** Bytes from the peer reach the buffer of the pending read. *)
Definition receive (st : server) (s : session_id) (bytes : string)
  : option server :=
  match nth_error (sessions st) s with
  | Some sess =>
      if s_reading sess then
        Some (set_sessions st
                (update_nth s
                   (fun x => mk_session (s_buf x ++ bytes) (s_reading x)
                               (s_expired x) (s_exec x) (s_writing x)
                               (s_written x))
                   (sessions st)))
      else None
  | None => None
  end.

(** [session::on_readed] within the server. *)
Definition readed_step (st : server) (s : session_id) (sess : session)
    (ec : error_code) (rd : nat) : server :=
  let with_buf buf reading :=
    update_nth s
      (fun x => mk_session buf reading (s_expired x) (s_exec x)
                  (s_writing x) (s_written x))
      (sessions st) in
  match on_readed (s_buf sess) ec rd with
  | rd_closed => set_sessions st (with_buf (s_buf sess) false)
  | rd_wrong_string buf => set_sessions st (with_buf buf true)
  | rd_update key val buf =>
      let cb := mk_update_cb s (List.length (submitted st)) in
      mk_server (m_map st)
                (state_strand st ++ [t_calculate_hash key val cb])
                (m_hasher st) (m_list st) (smgr_strand st)
                (with_buf buf true)
                (submitted st ++ [(cb, key, val)]) (applied st)
  end.

(** The pending read of a session completes: with the first line of the
    buffer if there is one, and else, when it fails, with the error. *)
Definition read (st : server) (s : session_id) : option server :=
  match nth_error (sessions st) s with
  | Some sess =>
      if s_reading sess then
        match find LF (s_buf sess) with
        | Some i => Some (readed_step st s sess ec_success (S i))
        | None => None
        end
      else None
  | None => None
  end.

Definition read_error (st : server) (s : session_id) (ec : error_code)
  : option server :=
  match nth_error (sessions st) s, ec with
  | Some sess, (ec_eof | ec_other) =>
      if s_reading sess then
        match find LF (s_buf sess) with
        | Some _ => None
        | None => Some (readed_step st s sess ec 0)
        end
      else None
  | _, _ => None
  end.

(** [session::on_got_message], called on the strand of the state. *)
Definition got_message (s : session_id) (r : iter_result)
    (ss : list session) : list session :=
  match on_got_message r with
  | Some (it, str) => post_session s (t_sync_send it str) ss
  | None => ss
  end.

(** The strand of [shared_state] runs its oldest handler. *)
Definition state_strand_step (st : server) : option server :=
  match state_strand st with
  | [] => None
  | t_calculate_hash key val cb :: strand =>
      Some (mk_server (m_map st) strand
                      (hash (m_hasher st) val (key, cb))
                      (m_list st) (smgr_strand st) (sessions st)
                      (submitted st) (applied st))
  | t_hash_calculated key hash cb :: strand =>
      let (m, r) := hash_calculated (m_map st) key hash in
      Some (mk_server m strand (m_hasher st) (m_list st)
                      (smgr_strand st
                       ++ match on_updated r with
                          | Some msg => [t_broadcast msg (cb_seq cb)]
                          | None => []
                          end)
                      (sessions st) (submitted st)
                      (applied st ++ [(cb, key, hash)]))
  | t_get_first s :: strand =>
      Some (mk_server (m_map st) strand (m_hasher st) (m_list st)
                      (smgr_strand st)
                      (got_message s (get_first_impl (m_map st)) (sessions st))
                      (submitted st) (applied st))
  | t_get_next it s :: strand =>
      Some (mk_server (m_map st) strand (m_hasher st) (m_list st)
                      (smgr_strand st)
                      (got_message s (get_next_impl (m_map st) it)
                         (sessions st))
                      (submitted st) (applied st))
  end.

(** The callback that [calculate_hash] gave to the hasher posts
    [hash_calculated] to the strand of the state. *)
Definition hash_callback (call : hash_cb * shared_buffer) : state_task :=
  t_hash_calculated (fst (fst call)) (snd call) (snd (fst call)).

Definition hasher_strand (st : server) : option server :=
  match hasher_strand_step (m_hasher st) with
  | Some (h, calls) =>
      Some (mk_server (m_map st) (state_strand st ++ map hash_callback calls)
                      h (m_list st) (smgr_strand st) (sessions st)
                      (submitted st) (applied st))
  | None => None
  end.

Definition pool (st : server) (i : nat) : option server :=
  match hasher_pool_step (m_hasher st) i with
  | Some h =>
      Some (mk_server (m_map st) (state_strand st) h (m_list st)
                      (smgr_strand st) (sessions st) (submitted st)
                      (applied st))
  | None => None
  end.

(** The loop of [session_manager::broadcast]: a session that still locks
    is sent the message, one that does not is erased from the list. *)
Fixpoint broadcast (l : list session_id) (msg : shared_buffer) (seq : nat)
    (ss : list session) : list session_id * list session :=
  match l with
  | [] => ([], ss)
  | s :: rest =>
      match nth_error ss s with
      | Some sess =>
          if s_expired sess then broadcast rest msg seq ss
          else
            let (l', ss') :=
              broadcast rest msg seq
                (post_session s (t_send_impl msg (cb_broadcast seq)) ss) in
            (s :: l', ss')
      | None => broadcast rest msg seq ss
      end
  end.

(** The strand of [session_manager] runs its oldest handler. *)
Definition smgr_strand_step (st : server) : option server :=
  match smgr_strand st with
  | [] => None
  | t_add s :: strand =>
      Some (mk_server (m_map st) (state_strand st) (m_hasher st)
                      (m_list st ++ [s]) strand (sessions st)
                      (submitted st) (applied st))
  | t_broadcast msg seq :: strand =>
      let (l, ss) := broadcast (m_list st) msg seq (sessions st) in
      Some (mk_server (m_map st) (state_strand st) (m_hasher st)
                      l strand ss (submitted st) (applied st))
  end.

(** The executor of a session runs its oldest handler: [send] posts
    [send_impl]; [send_impl] starts the [async_write]. *)
Definition session_step (st : server) (s : session_id) : option server :=
  match nth_error (sessions st) s with
  | Some sess =>
      match s_exec sess with
      | [] => None
      | t_sync_send it str :: exec =>
          Some (set_sessions st
                  (update_nth s
                     (fun x => mk_session (s_buf x) (s_reading x)
                                 (s_expired x)
                                 (exec ++ [t_send_impl str (cb_sync it)])
                                 (s_writing x) (s_written x))
                     (sessions st)))
      | t_send_impl msg cb :: exec =>
          Some (set_sessions st
                  (update_nth s
                     (fun x => mk_session (s_buf x) (s_reading x)
                                 (s_expired x) exec
                                 (s_writing x ++ [cb])
                                 (s_written x ++ [(msg, cb)]))
                     (sessions st)))
      end
  | None => None
  end.

(** A write in flight completes, [session::sent]: on an error the socket
    is closed and the callback dropped; else the callback runs, and
    [on_get_first_sent] asks the state for the next entry. *)
Definition written (st : server) (s : session_id) (i : nat) (ok : bool)
  : option server :=
  match nth_error (sessions st) s with
  | Some sess =>
      match nth_error (s_writing sess) i with
      | Some cb =>
          let st' :=
            set_sessions st
              (update_nth s
                 (fun x => mk_session (s_buf x) (s_reading x) (s_expired x)
                             (s_exec x)
                             (firstn i (s_writing x)
                              ++ skipn (S i) (s_writing x))
                             (s_written x))
                 (sessions st)) in
          match ok, cb with
          | true, cb_sync it => Some (post_state st' (t_get_next it s))
          | _, _ => Some st'
          end
      | None => None
      end
  | None => None
  end.

(** The session object goes away; that cannot be while its read is
    pending, whose handler holds it. *)
Definition expire (st : server) (s : session_id) : option server :=
  match nth_error (sessions st) s with
  | Some sess =>
      if s_reading sess then None
      else
        Some (set_sessions st
                (update_nth s
                   (fun x => mk_session (s_buf x) (s_reading x) true
                               (s_exec x) (s_writing x) (s_written x))
                   (sessions st)))
  | None => None
  end.

(** What can happen next in the server, and a run of such events. *)
Inductive event :=
| ev_accept
| ev_receive (s : session_id) (bytes : string)
| ev_read (s : session_id)
| ev_read_error (s : session_id) (ec : error_code)
| ev_state_strand
| ev_hasher_strand
| ev_pool (i : nat)
| ev_smgr_strand
| ev_session (s : session_id)
| ev_written (s : session_id) (i : nat) (ok : bool)
| ev_expire (s : session_id).

Definition step (st : server) (e : event) : option server :=
  match e with
  | ev_accept => Some (accept st)
  | ev_receive s bytes => receive st s bytes
  | ev_read s => read st s
  | ev_read_error s ec => read_error st s ec
  | ev_state_strand => state_strand_step st
  | ev_hasher_strand => hasher_strand st
  | ev_pool i => pool st i
  | ev_smgr_strand => smgr_strand_step st
  | ev_session s => session_step st s
  | ev_written s i ok => written st s i ok
  | ev_expire s => expire st s
  end.

Fixpoint run (st : server) (es : list event) : option server :=
  match es with
  | [] => Some st
  | e :: rest =>
      match step st e with
      | Some st' => run st' rest
      | None => None
      end
  end.

(** *** What holds of the server at all times *)

(** A run of [hash_calculated], as it is or as it will be: the callback of
    the update, the key, the hash. *)
Definition application : Type := update_cb * shared_buffer * shared_buffer.

(** What a line accepted is owed: [hash_calculated] with the digest of its
    value. *)
Definition sub_owed (x : update_cb * shared_buffer * shared_buffer)
  : application :=
  (fst (fst x), snd (fst x), sha1_hex (snd x)).

Definition posted_owed (job : shared_buffer * hash_cb) : application :=
  (snd (snd job), fst (snd job), sha1_hex (fst job)).

Definition called_owed (call : hash_cb * shared_buffer) : application :=
  (snd (fst call), fst (fst call), snd call).

Fixpoint calc_owed (strand : list state_task) : list application :=
  match strand with
  | [] => []
  | t_calculate_hash key val cb :: rest =>
      (cb, key, sha1_hex val) :: calc_owed rest
  | _ :: rest => calc_owed rest
  end.

Fixpoint done_owed (strand : list state_task) : list application :=
  match strand with
  | [] => []
  | t_hash_calculated key hash cb :: rest => (cb, key, hash) :: done_owed rest
  | _ :: rest => done_owed rest
  end.

(** The numbers of the updates whose broadcast is on its way to a session:
    written to its socket, waiting on its executor, waiting on the strand
    of the registry. *)
Fixpoint written_seqs (w : list (shared_buffer * send_cb)) : list nat :=
  match w with
  | [] => []
  | (_, cb_broadcast seq) :: rest => seq :: written_seqs rest
  | _ :: rest => written_seqs rest
  end.

Fixpoint exec_seqs (exec : list session_task) : list nat :=
  match exec with
  | [] => []
  | t_send_impl _ (cb_broadcast seq) :: rest => seq :: exec_seqs rest
  | _ :: rest => exec_seqs rest
  end.

Fixpoint smgr_seqs (strand : list smgr_task) : list nat :=
  match strand with
  | [] => []
  | t_broadcast _ seq :: rest => seq :: smgr_seqs rest
  | _ :: rest => smgr_seqs rest
  end.

Fixpoint smgr_adds (strand : list smgr_task) : list session_id :=
  match strand with
  | [] => []
  | t_add s :: rest => s :: smgr_adds rest
  | _ :: rest => smgr_adds rest
  end.

Definition chain (sess : session) (strand : list smgr_task) : list nat :=
  written_seqs (s_written sess) ++ exec_seqs (s_exec sess)
  ++ smgr_seqs strand.

(** Ascending, and below [n]. *)
Definition ordered (n : nat) (l : list nat) : Prop :=
  StronglySorted lt l /\ Forall (fun x => x < n) l.

Record server_inv (st : server) : Prop := {
  sinv_hasher : hasher_inv (m_hasher st);
  sinv_seq :
    map (fun x => cb_seq (fst (fst x))) (submitted st)
    = seq 0 (List.length (submitted st));
  (** the lines accepted are the jobs posted to the hasher, then the
      [calculate_hash] handlers that wait *)
  sinv_posted :
    map sub_owed (submitted st)
    = map posted_owed (h_posted (m_hasher st))
      ++ calc_owed (state_strand st);
  (** the callbacks that the hasher called are the runs of
      [hash_calculated], then the [hash_calculated] handlers that wait *)
  sinv_called :
    map called_owed (h_called (m_hasher st))
    = applied st ++ done_owed (state_strand st);
  sinv_chain :
    forall s,
      ordered (List.length (applied st))
        (chain (nth s (sessions st) new_session) (smgr_strand st));
  sinv_list :
    NoDup (m_list st ++ smgr_adds (smgr_strand st))
    /\ Forall (fun s => s < List.length (sessions st))
         (m_list st ++ smgr_adds (smgr_strand st))
}.

(** A key as a line can carry it: no space, no newline. *)
Definition clean_key (key : shared_buffer) : Prop :=
  contains SP key = false /\ contains LF key = false.

(** The operation of the store that a run of [hash_calculated] is. *)
Definition operation_of (a : application) : operation :=
  op_update (snd (fst a)) (snd a).

(** [msg] is the line of the [n]-th run of [hash_calculated]. *)
Definition reports (apps : list application) (msg : shared_buffer) (n : nat)
  : Prop :=
  exists cb key hash,
    nth_error apps n = Some (cb, key, hash) /\ msg = line key hash.

Definition smgr_task_ok (apps : list application) (t : smgr_task) : Prop :=
  match t with
  | t_broadcast msg n => reports apps msg n
  | t_add _ => True
  end.

Definition session_task_ok (apps : list application) (t : session_task)
  : Prop :=
  match t with
  | t_send_impl msg (cb_broadcast n) => reports apps msg n
  | _ => True
  end.

Definition written_ok (apps : list application)
    (w : shared_buffer * send_cb) : Prop :=
  match w with
  | (msg, cb_broadcast n) => reports apps msg n
  | _ => True
  end.

Definition session_ok (apps : list application) (sess : session) : Prop :=
  Forall (session_task_ok apps) (s_exec sess)
  /\ Forall (written_ok apps) (s_written sess).

Record server_data_inv (st : server) : Prop := {
  (** the keys of the lines accepted are clean *)
  dinv_keys : Forall (fun x => clean_key (snd (fst x))) (submitted st);
  (** the map is what the runs of [hash_calculated] so far make of the
      empty map, one after the other *)
  dinv_map :
    m_map st = run_operations [] (map operation_of (applied st));
  (** a broadcast on its way carries the line of the update whose number
      it is labelled with *)
  dinv_smgr : Forall (smgr_task_ok (applied st)) (smgr_strand st);
  dinv_sessions : Forall (session_ok (applied st)) (sessions st)
}.

(** The hash of the last of the runs of [hash_calculated] that were for
    [key], if there was one. *)
Fixpoint last_update (key : shared_buffer) (apps : list application)
  : option shared_buffer :=
  match apps with
  | [] => None
  | (_, k, hash) :: rest =>
      match last_update key rest with
      | Some later => Some later
      | None => if String.eqb k key then Some hash else None
      end
  end.

(** ** [client.cpp]: the client and its terminal reader *)

Module Client.

(** [client::on_readed]: on an error the loop ends; else the line is cut
    from the front of the buffer and printed, and the next read is
    started.  The result is the line printed and the buffer left. *)
Definition on_readed (buf : string) (ec : error_code) (rd : nat)
  : option (shared_buffer * string) :=
  match ec with
  | ec_success => Some (take rd buf, erase_front rd buf)
  | _ => None
  end.

(** [start_read] and [on_readed] in turn, for at most [fuel] reads: what
    is printed after [readed: ], in order. *)
Fixpoint read_loop (fuel : nat) (incoming : list string) (buf : string)
  : list shared_buffer :=
  match fuel with
  | O => []
  | S fuel' =>
      match async_read_until incoming buf with
      | (ec, rd, buf1, incoming1) =>
          match on_readed buf1 ec rd with
          | Some (str, buf2) => str :: read_loop fuel' incoming1 buf2
          | None => []
          end
      end
  end.

End Client.

Module TermReader.

(** How [term_reader::readed] ends. *)
Inductive result :=
| error
    (* [cb(ec, shared_buffer{})]; no further read *)
| exit
    (* the line is [exit]: [m_ioctx.stop()], no callback, no read *)
| entered (str : shared_buffer) (buf : string).
    (* [cb(ec, str)], then [read] with what is left of the buffer *)

Definition readed (ec : error_code) (rd : nat) (buf : string) : result :=
  match ec with
  | ec_success =>
      let str := take rd buf in
      let buf' := erase_front rd buf in
      if String.eqb str ("exit" ++ String LF "") then exit
      else entered str buf'
  | _ => error
  end.

(** How the loop of [read] and [readed] ends. *)
Inductive outcome := stopped | failed | reading.

(** [read] and [readed] in turn, for at most [fuel] reads.  The callback
    that [main] gives to [term_reader::start] does nothing on an error
    and else prints the line and passes it to [client::send]: the lines
    passed to [send], in order, and how the loop ends. *)
Fixpoint read (fuel : nat) (incoming : list string) (buf : string)
  : list shared_buffer * outcome :=
  match fuel with
  | O => ([], reading)
  | S fuel' =>
      match async_read_until incoming buf with
      | (ec, rd, buf1, incoming1) =>
          match readed ec rd buf1 with
          | error => ([], failed)
          | exit => ([], stopped)
          | entered str buf2 =>
              let (sent, o) := read fuel' incoming1 buf2 in
              (str :: sent, o)
          end
      end
  end.

End TermReader.

(** *** Vocabulary of the statements on lines *)

(** A line: bytes without a newline, then the newline. *)
Definition is_line (l : string) : Prop :=
  exists body, l = (body ++ String LF "")%string /\ contains LF body = false.

(** The bytes of a sequence of pieces, as the stream carries them. *)
Fixpoint stream (pieces : list string) : string :=
  match pieces with
  | [] => ""
  | piece :: rest => piece ++ stream rest
  end%string.

(** The line that stops the client. *)
Definition exit_line : string := ("exit" ++ String LF "")%string.

(** The line [KEY SP VALUE LF] that a client sends for an update. *)
Definition update_line (kv : shared_buffer * shared_buffer) : string :=
  (fst kv ++ String SP (snd kv ++ String LF ""))%string.

(** What [on_readed] submits for such a line. *)
Definition submission (kv : shared_buffer * shared_buffer)
  : shared_buffer * shared_buffer :=
  (fst kv, (snd kv ++ String LF "")%string).

(** *** The walk that brings a new session up to date *)

(** Where the walk of a session stands: [get_first] or [get_next] waits
    on the strand of the state; the lambda of [on_got_message] or the
    [send_impl] that it leads to waits on the executor of the session;
    the [async_write] of the line is in flight. *)
Inductive walk :=
| w_get_first
| w_get_next (it : node_iterator)
| w_sync_send (it : node_iterator) (str : shared_buffer)
| w_send_impl (it : node_iterator) (msg : shared_buffer)
| w_writing (it : node_iterator).

Fixpoint strand_walks (s : session_id) (strand : list state_task)
  : list walk :=
  match strand with
  | [] => []
  | t_get_first s' :: rest =>
      if Nat.eqb s' s then w_get_first :: strand_walks s rest
      else strand_walks s rest
  | t_get_next it s' :: rest =>
      if Nat.eqb s' s then w_get_next it :: strand_walks s rest
      else strand_walks s rest
  | _ :: rest => strand_walks s rest
  end.

Fixpoint exec_walks (exec : list session_task) : list walk :=
  match exec with
  | [] => []
  | t_sync_send it str :: rest => w_sync_send it str :: exec_walks rest
  | t_send_impl msg (cb_sync it) :: rest => w_send_impl it msg :: exec_walks rest
  | _ :: rest => exec_walks rest
  end.

Fixpoint writing_walks (w : list send_cb) : list walk :=
  match w with
  | [] => []
  | cb_sync it :: rest => w_writing it :: writing_walks rest
  | _ :: rest => writing_walks rest
  end.

Definition walks_of (s : session_id) (strand : list state_task)
    (sess : session) : list walk :=
  strand_walks s strand ++ exec_walks (s_exec sess)
  ++ writing_walks (s_writing sess).

Definition walks (st : server) (s : session_id) : list walk :=
  walks_of s (state_strand st) (nth s (sessions st) new_session).

(** The lines of the walk that were handed to [async_write], each with
    the iterator that [on_got_message] was called with. *)
Fixpoint sync_written (w : list (shared_buffer * send_cb))
  : list (node_iterator * shared_buffer) :=
  match w with
  | [] => []
  | (msg, cb_sync it) :: rest => (it, msg) :: sync_written rest
  | _ :: rest => sync_written rest
  end.

Definition sync_keys (sess : session) : list node_iterator :=
  map fst (sync_written (s_written sess)).

(** [hash_calculated] ran for [key] with [hash]: the map did hold [hash]
    for [key]. *)
Definition was_stored (apps : list application) (key hash : shared_buffer)
  : Prop :=
  exists n cb, nth_error apps n = Some (cb, key, hash).

Definition sync_line_ok (apps : list application)
    (x : node_iterator * shared_buffer) : Prop :=
  exists hash, snd x = line (fst x) hash /\ was_stored apps (fst x) hash.

Definition walk_ok (apps : list application) (ks : list node_iterator)
    (x : walk) : Prop :=
  match x with
  | w_get_first => ks = []
  | w_get_next it | w_writing it =>
      Forall (fun k => k = it \/ my_cmp k it = true) ks
  | w_sync_send it str | w_send_impl it str =>
      Forall (fun k => my_cmp k it = true) ks /\ sync_line_ok apps (it, str)
  end.

Definition session_sync_ok (apps : list application) (s : session_id)
    (strand : list state_task) (sess : session) : Prop :=
  List.length (walks_of s strand sess) <= 1
  /\ Forall (walk_ok apps (sync_keys sess)) (walks_of s strand sess)
  /\ StronglySorted (fun a b => my_cmp a b = true) (sync_keys sess)
  /\ Forall (sync_line_ok apps) (sync_written (s_written sess)).

Record sync_inv (st : server) : Prop := {
  sync_sessions :
    forall s,
      session_sync_ok (applied st) s (state_strand st)
        (nth s (sessions st) new_session);
  (** nothing waits for a session that was not accepted yet *)
  sync_fresh :
    forall s, List.length (sessions st) <= s ->
      strand_walks s (state_strand st) = []
}.

(** A message as the server sends it: [KEY SP HASH LF] with a key that
    holds neither space nor newline and the hash as [0x] and forty
    lowercase hexadecimal digits. *)
Definition wire_line (msg : shared_buffer) : Prop :=
  exists key hash, msg = line key hash /\ clean_key key /\ wire_hash hash.

(** The lines that [on_readed] accepted on the connection of [s]. *)
Definition submitted_by (s : session_id)
    (subs : list (update_cb * shared_buffer * shared_buffer))
  : list (update_cb * shared_buffer * shared_buffer) :=
  filter (fun x => Nat.eqb (cb_session (fst (fst x))) s) subs.

(** *** The registry and the fan-out *)

(** The numbers of the runs of [hash_calculated] that changed the map,
    in order: those after which [on_updated] broadcasts.  [m] is the map
    before the first of the runs. *)
Fixpoint changes (m : map_type) (apps : list application) : list nat :=
  match apps with
  | [] => []
  | (cb, key, hash) :: rest =>
      let (m', r) := hash_calculated m key hash in
      match on_updated r with
      | Some _ => cb_seq cb :: changes m' rest
      | None => changes m' rest
      end
  end.

(** [l] is the end of [full]. *)
Definition is_suffix {A : Type} (l full : list A) : Prop :=
  exists earlier, full = earlier ++ l.

(** The numbers of the broadcasts that reached a session: written to its
    socket or waiting on its executor. *)
Definition received (sess : session) : list nat :=
  written_seqs (s_written sess) ++ exec_seqs (s_exec sess).

Record fanout_inv (st : server) : Prop := {
  (** the broadcasts that wait on the strand of the registry are the
      last changes *)
  fan_strand :
    is_suffix (smgr_seqs (smgr_strand st)) (changes [] (applied st));
  (** a session of the list that is alive has got the changes before
      them, from some change on *)
  fan_listed :
    forall s,
      In s (m_list st) ->
      s_expired (nth s (sessions st) new_session) = false ->
      is_suffix
        (received (nth s (sessions st) new_session)
         ++ smgr_seqs (smgr_strand st))
        (changes [] (applied st));
  fan_unlisted :
    forall s,
      ~ In s (m_list st) ->
      s_expired (nth s (sessions st) new_session) = false ->
      received (nth s (sessions st) new_session) = [];
  (** a session leaves the list only when its object is gone *)
  fan_registry :
    forall s,
      s < List.length (sessions st) ->
      In s (m_list st ++ smgr_adds (smgr_strand st))
      \/ s_expired (nth s (sessions st) new_session) = true
}.

(** *** The walk when nothing else runs *)

(** What a handler of the walk reports to [on_got_message], and for
    which session. *)
Definition walk_result (m : map_type) (t : state_task)
  : option (session_id * iter_result) :=
  match t with
  | t_get_first s => Some (s, get_first_impl m)
  | t_get_next it s => Some (s, get_next_impl m it)
  | _ => None
  end.

(** The events that serve the walk of session [s] over [n] entries: for
    each entry the strand of the state runs [get_first] or [get_next],
    the executor of the session runs the lambda of [on_got_message] and
    then [send_impl], and the write completes; at last the strand of the
    state runs the [get_next] that reports the end. *)
Fixpoint walk_events (s : session_id) (n : nat) : list event :=
  match n with
  | O => [ev_state_strand]
  | S n' =>
      [ev_state_strand; ev_session s; ev_session s; ev_written s 0 true]
      ++ walk_events s n'
  end.

(** The line of the walk for an entry of the map, as [s_written] records
    it. *)
Definition walk_line (e : shared_buffer * shared_buffer)
  : shared_buffer * send_cb :=
  (line (fst e) (snd e), cb_sync (fst e)).

(** *** One line when nothing else runs *)

(** Nothing waits in the hasher. *)
Definition idle_hasher {CB : Type} (h : hasher CB) : Prop :=
  m_queue h = [] /\ h_calling h = [] /\ h_strand h = [] /\ h_pool h = [].

(** The events that take a line of session [s] from the socket to the
    map: the bytes arrive and the read completes; the strand of the
    state runs [calculate_hash]; the strand of the hasher runs
    [hash_impl], the pool the job, the strand of the hasher [on_hashed]
    and the callback; the strand of the state runs [hash_calculated]. *)
Definition update_events (s : session_id) (bytes : string) : list event :=
  [ev_receive s bytes; ev_read s; ev_state_strand; ev_hasher_strand;
   ev_pool 0; ev_hasher_strand; ev_hasher_strand; ev_state_strand].

(** *** A session that joins while a key changes *)

(** Nothing waits or runs anywhere in the server. *)
Definition quiet (st : server) : Prop :=
  state_strand st = [] /\ smgr_strand st = []
  /\ idle_hasher (m_hasher st)
  /\ Forall (fun sess => s_exec sess = [] /\ s_writing sess = [])
       (sessions st).

(** A first session sets [K]; a second session is accepted and
    [get_first] reports the entry of [K] to it, but the lambda that
    [on_got_message] posted still waits on the executor of the second
    session when the first session changes [K] and the change is
    broadcast; then the executor of the second session runs what waits,
    in order. *)
Definition late_events (K V1 V2 : shared_buffer) : list event :=
  [ev_accept; ev_smgr_strand; ev_state_strand]
  ++ update_events 0 (update_line (K, V1))
  ++ [ev_smgr_strand; ev_session 0; ev_written 0 0 true;
      ev_accept; ev_smgr_strand; ev_state_strand]
  ++ update_events 0 (update_line (K, V2))
  ++ [ev_smgr_strand; ev_session 0; ev_written 0 0 true;
      ev_session 1; ev_session 1; ev_session 1;
      ev_written 1 0 true; ev_written 1 0 true; ev_state_strand].

(** *** Vocabulary of the statements on the contents of the map *)

(** The keys that a sequence of operations updates, in order. *)
Fixpoint updated_keys (ops : list operation) : list shared_buffer :=
  match ops with
  | [] => []
  | op_update key _ :: rest => key :: updated_keys rest
  | _ :: rest => updated_keys rest
  end.

(** The hash of the last update of [key] among [ops], if there is one. *)
Fixpoint last_hash (key : shared_buffer) (ops : list operation)
  : option shared_buffer :=
  match ops with
  | [] => None
  | o :: rest =>
      match last_hash key rest with
      | Some later => Some later
      | None =>
          match o with
          | op_update k hash => if String.eqb k key then Some hash else None
          | _ => None
          end
      end
  end.

(** *** The server and the function [apply_updates] *)

(** The lines accepted so far, as the pairs that [on_readed] handed to
    [update], in the order of acceptance. *)
Definition accepted (st : server) : list (shared_buffer * shared_buffer) :=
  map (fun x => (snd (fst x), snd x)) (submitted st).

(** The line of the [n]-th run of [hash_calculated]. *)
Definition line_at (apps : list application) (n : nat) : shared_buffer :=
  match nth_error apps n with
  | Some (_, key, hash) => line key hash
  | None => ""
  end.

(** The broadcast lines handed to [async_write] for a session, those that
    wait on its executor, and those that wait on the strand of the
    registry, in order. *)
Fixpoint written_lines (w : list (shared_buffer * send_cb))
  : list shared_buffer :=
  match w with
  | [] => []
  | (msg, cb_broadcast _) :: rest => msg :: written_lines rest
  | _ :: rest => written_lines rest
  end.

Fixpoint exec_lines (exec : list session_task) : list shared_buffer :=
  match exec with
  | [] => []
  | t_send_impl msg (cb_broadcast _) :: rest => msg :: exec_lines rest
  | _ :: rest => exec_lines rest
  end.

Fixpoint smgr_lines (strand : list smgr_task) : list shared_buffer :=
  match strand with
  | [] => []
  | t_broadcast msg _ :: rest => msg :: smgr_lines rest
  | _ :: rest => smgr_lines rest
  end.

(** ** [common.hpp]: [fnv1a] and [handle_incomming] *)

Module Common.

(** [(std::uint32_t)*it] for [*it] a [char].  Whether [char] is signed is
    up to the implementation; where it is, a byte from [0x80] on is a
    negative [char], which the conversion takes modulo [2 ^ 32]. *)
Definition to_uint32 (signed_char : bool) (c : ascii) : Z :=
  let b := Z.of_N (N_of_ascii c) in
  if signed_char && (128 <=? b)%Z then ((b - 256) mod 2 ^ 32)%Z else b.

(** The body of the loop of [fnv1a]: the exclusive or is taken in
    [std::uint32_t], the product in [std::uint64_t], and the result is
    converted to [std::uint32_t]. *)
Definition fnv1a_step (signed_char : bool) (seed : Z) (c : ascii) : Z :=
  (((Z.lxor seed (to_uint32 signed_char c) * 16777619) mod 2 ^ 64)
   mod 2 ^ 32)%Z.

Fixpoint fnv1a_from (signed_char : bool) (seed : Z) (str : string) : Z :=
  match str with
  | EmptyString => seed
  | String c rest => fnv1a_from signed_char (fnv1a_step signed_char seed c) rest
  end.

(** [fnv1a(str)], with the seed [0x811c9dc5] and the prime [0x01000193]. *)
Definition fnv1a (signed_char : bool) (str : string) : Z :=
  fnv1a_from signed_char 2166136261 str.

(** The callback that [handle_incomming] calls with the message. *)
Inductive incomming := ping_cb | sync_cb | data_cb.

(** [handle_incomming]: [Some cb] when [cb] is called with the message
    and [true] is returned, [None] when [false] is returned.  The
    [switch] over the hash takes the first label that is equal; the
    labels are the hashes of the three keywords. *)
Definition handle_incomming (signed_char : bool) (str : shared_buffer)
  : option incomming :=
  if Nat.ltb 4 (String.length str)
     && match String.get 4 str with
        | Some c => Ascii.eqb c SP
        | None => false
        end
  then
    let key := take 4 str in
    let hash := fnv1a signed_char key in
    if (hash =? fnv1a signed_char "PING")%Z then Some ping_cb
    else if (hash =? fnv1a signed_char "SYNC")%Z then Some sync_cb
    else if (hash =? fnv1a signed_char "DATA")%Z then Some data_cb
    else None
  else None.

End Common.

(** A byte of seven bits: the same whether [char] is signed or not. *)
Definition seven_bit (c : ascii) : bool := N.ltb (N_of_ascii c) 128.

(** *** Searching the messages of seven-bit bytes that share a hash *)

(** Multiplication by the prime of FNV-1a is undone, modulo [2 ^ 32], by
    multiplication by [inverse_prime]; so a step of [fnv1a] is undone,
    for a known byte, by [fnv1a_unstep]. *)
Definition inverse_prime : Z := 899433627.

Definition fnv1a_unstep (t b : Z) : Z :=
  Z.lxor (Z.land (t * inverse_prime) (Z.ones 32)) b.

Definition seven_bit_values : list Z := map Z.of_nat (seq 0 128).

(** The hash of each message of one seven-bit byte, with the byte, and
    with the hash without its low seven bits. *)
Definition first_steps : list (Z * Z * Z) :=
  map (fun b1 =>
         let h1 := Z.land (Z.lxor 2166136261 b1 * 16777619) (Z.ones 32) in
         (b1, h1, Z.shiftr h1 7))
      seven_bit_values.

(** Whether [w1 w2 w3 w4] are the only four seven-bit bytes with the
    hash [t]: for every choice of the last two bytes, the hash is undone
    down to what the second byte was mixed into, and each first byte
    that can lead there is compared with the bytes expected. *)
Definition only_preimage (t w1 w2 w3 w4 : Z) : bool :=
  forallb (fun b4 =>
    let h3 := fnv1a_unstep t b4 in
    forallb (fun b3 =>
      let y := Z.land (fnv1a_unstep h3 b3 * inverse_prime) (Z.ones 32) in
      let y7 := Z.shiftr y 7 in
      forallb (fun e =>
        match e with
        | (b1, h1, h17) =>
            if (h17 =? y7)%Z
            then (b1 =? w1)%Z && (Z.lxor h1 y =? w2)%Z
                 && (b3 =? w3)%Z && (b4 =? w4)%Z
            else true
        end) first_steps) seven_bit_values) seven_bit_values.
(** ** [acceptor] *)

(** How [acceptor::on_accepted] ends. *)
Inductive accept_outcome :=
| acc_error
    (* the accept failed: logged, [return]; [start] is not called *)
| acc_throws
    (* [remote_endpoint] throws: the exception leaves the handler; no
       session is made and [start] is not called *)
| acc_started (st : server).
    (* the session is made, started and added to the registry, and
       [start] is called for the next connection *)

(** [acceptor::on_accepted] with the error code of the accept.
    [remote_endpoint] is called on the socket twice, by [on_accepted]
    itself and by the constructor of [session], and throws when the
    socket has no peer any more: [rep] and [peer] say whether the first
    and the second call return. *)
Definition on_accepted (st : server) (ec : error_code) (rep peer : bool)
  : accept_outcome :=
  match ec with
  | ec_success =>
      if rep then
        if peer then acc_started (accept st) else acc_throws
      else acc_throws
  | _ => acc_error
  end.

(** The server with its acceptor: whether an [async_accept] is pending,
    and whether the handlers still run.  An exception that leaves a
    handler leaves [io_context::run]: in a thread of [threadsv] nothing
    catches it, and in [main] the threads of [threadsv], still joinable,
    are destroyed on the way to the handler of [main]; either way the
    server is over. *)
Record node := mk_node {
  nd_server : server;
  nd_accepting : bool;
  nd_running : bool
}.

(** [main] calls [acc.start()] before the handlers run. *)
Definition node_init : node := mk_node server_init true true.

(** The pending accept completes, or something else happens in the
    server. *)
Inductive node_event :=
| nd_accepted (ec : error_code) (rep peer : bool)
| nd_step (e : event).

Definition node_step (n : node) (e : node_event) : option node :=
  if nd_running n then
    match e with
    | nd_accepted ec rep peer =>
        if nd_accepting n then
          match on_accepted (nd_server n) ec rep peer with
          | acc_error => Some (mk_node (nd_server n) false true)
          | acc_throws => Some (mk_node (nd_server n) false false)
          | acc_started st => Some (mk_node st true true)
          end
        else None
    | nd_step ev_accept => None
    | nd_step e =>
        match step (nd_server n) e with
        | Some st => Some (mk_node st (nd_accepting n) true)
        | None => None
        end
    end
  else None.

Fixpoint node_run (n : node) (es : list node_event) : option node :=
  match es with
  | [] => Some n
  | e :: rest =>
      match node_step n e with
      | Some n' => node_run n' rest
      | None => None
      end
  end.

(** The accepts of a run that made a session. *)
Definition starts_session (e : node_event) : bool :=
  match e with
  | nd_accepted ec_success true true => true
  | _ => false
  end.

Definition is_accepted (e : node_event) : bool :=
  match e with
  | nd_accepted _ _ _ => true
  | nd_step _ => false
  end.

(** *** Who keeps a session alive *)

(** The handlers that hold the [shared_ptr] of session [s]: the pending
    read; the callback of an update of [s] that is on its way through
    the strand of the state and the hasher; [send_impl] waiting on the
    executor; a write in flight.  The handlers of the walk capture [this]
    only. *)
Definition state_task_holds (s : session_id) (t : state_task) : bool :=
  match t with
  | t_calculate_hash _ _ cb | t_hash_calculated _ _ cb =>
      Nat.eqb (cb_session cb) s
  | _ => false
  end.

Definition hasher_task_holds (s : session_id) (t : hasher_task hash_cb)
  : bool :=
  match t with
  | t_hash_impl _ cb => Nat.eqb (cb_session (snd cb)) s
  | t_on_hashed _ _ => false
  end.

Definition session_task_holds (t : session_task) : bool :=
  match t with
  | t_send_impl _ _ => true
  | t_sync_send _ _ => false
  end.

Definition held (st : server) (s : session_id) : bool :=
  let sess := nth s (sessions st) new_session in
  s_reading sess
  || existsb (state_task_holds s) (state_strand st)
  || existsb (hasher_task_holds s) (h_strand (m_hasher st))
  || existsb (fun item => Nat.eqb (cb_session (snd (it_cb item))) s)
       (m_queue (m_hasher st))
  || existsb (fun call => Nat.eqb (cb_session (snd (fst call))) s)
       (h_calling (m_hasher st))
  || existsb session_task_holds (s_exec sess)
  || negb (Nat.eqb (List.length (s_writing sess)) 0).

(** A first session sets [K]; a second session is accepted, its peer
    closes at once, and with the read, the only handler that held it, the
    session object goes away, while the [get_first] that [session::start]
    posted still waits on the strand of the state. *)
Definition gone_events (K V : shared_buffer) : list event :=
  [ev_accept; ev_smgr_strand; ev_state_strand]
  ++ update_events 0 (update_line (K, V))
  ++ [ev_smgr_strand; ev_session 0; ev_written 0 0 true;
      ev_accept; ev_read_error 1 ec_eof; ev_expire 1].

(** ** The bytes that a connection carries to its peer *)

(** [ba::async_write] is a composed operation: [async_write_some] is
    called until the whole buffer has been passed to the socket, each
    call taking some of the bytes that are left, and then the handler
    given by [send_impl] runs.  [send_impl] starts one for each message
    and waits for none, so that several can be under way on one socket,
    and nothing orders their calls of [async_write_some].

    Of the socket of a session: what is left of each write under way, in
    the order of [s_writing], and the bytes passed to the socket so far,
    which are what the peer receives. *)
Record socket := mk_socket {
  sk_left : list string;
  sk_wire : string
}.

Definition new_socket : socket := mk_socket [] "".

(** [async_write_some] for the write [i] under way passes [n] of its
    bytes on: at least one, and at most all that are left. *)
Definition write_some (sk : socket) (i n : nat) : option socket :=
  match nth_error (sk_left sk) i with
  | Some rest =>
      if Nat.leb 1 n && Nat.leb n (String.length rest) then
        Some (mk_socket (update_nth i (erase_front n) (sk_left sk))
                        (sk_wire sk ++ take n rest))
      else None
  | None => None
  end.

(** The server with the sockets of its sessions. *)
Record network := mk_network {
  nw_server : server;
  nw_sockets : list socket
}.


(** What a step of the server means for the sockets: an accepted
    connection has a socket of its own; [send_impl] starts a write of its
    message; a write completes with success when nothing of it is left,
    and with an error at any time. *)
Definition sockets_step (st : server) (e : event) (sks : list socket)
  : option (list socket) :=
  match e with
  | ev_accept => Some (sks ++ [new_socket])
  | ev_session s =>
      match s_exec (nth s (sessions st) new_session) with
      | t_send_impl msg _ :: _ =>
          Some (update_nth s
                  (fun sk => mk_socket (sk_left sk ++ [msg]) (sk_wire sk))
                  sks)
      | _ => Some sks
      end
  | ev_written s i ok =>
      if ok && negb (String.eqb (nth i (sk_left (nth s sks new_socket)) "") "")
      then None
      else
        Some (update_nth s
                (fun sk => mk_socket (firstn i (sk_left sk)
                                      ++ skipn (S i) (sk_left sk))
                                     (sk_wire sk))
                sks)
  | _ => Some sks
  end.

Inductive network_event :=
| nw_server_step (e : event)
| nw_write_some (s : session_id) (i n : nat).

Definition network_step (nw : network) (e : network_event)
  : option network :=
  match e with
  | nw_server_step e =>
      match step (nw_server nw) e,
            sockets_step (nw_server nw) e (nw_sockets nw) with
      | Some st, Some sks => Some (mk_network st sks)
      | _, _ => None
      end
  | nw_write_some s i n =>
      match nth_error (nw_sockets nw) s with
      | Some sk =>
          match write_some sk i n with
          | Some sk' =>
              Some (mk_network (nw_server nw)
                      (update_nth s (fun _ => sk') (nw_sockets nw)))
          | None => None
          end
      | None => None
      end
  end.

Fixpoint network_run (nw : network) (es : list network_event)
  : option network :=
  match es with
  | [] => Some nw
  | e :: rest =>
      match network_step nw e with
      | Some nw' => network_run nw' rest
      | None => None
      end
  end.

(** The steps of the server in a run of the network. *)
Fixpoint server_events (es : list network_event) : list event :=
  match es with
  | [] => []
  | nw_server_step e :: rest => e :: server_events rest
  | nw_write_some _ _ _ :: rest => server_events rest
  end.





(** * Properties *)

(** ** SHA-1 test vectors *)

Example sha1_hex_empty :
  sha1_hex "" = "0xda39a3ee5e6b4b0d3255bfef95601890afd80709".
Proof. vm_compute. reflexivity. Qed.

Example sha1_hex_abc :
  sha1_hex "abc" = "0xa9993e364706816aba3e25717850c26c9cd0d89d".
Proof. vm_compute. reflexivity. Qed.

Example sha1_hex_two_blocks :
  sha1_hex "abcdbcdecdefdefgefghfghighijhijkijkljklmklmnlmnomnopnopq"
  = "0x84983e441c3bd26ebaae4aa1f95129e5e54670f1".
Proof. vm_compute. reflexivity. Qed.

(** ** The order of [my_cmp] *)

Lemma ascii_compare_lt_trans (a b c : ascii) :
  Ascii.compare a b = Lt -> Ascii.compare b c = Lt -> Ascii.compare a c = Lt.
Proof.
  unfold Ascii.compare. rewrite !N.compare_lt_iff. apply N.lt_trans.
Qed.

Lemma ascii_compare_refl (a : ascii) : Ascii.compare a a = Eq.
Proof. unfold Ascii.compare. apply N.compare_refl. Qed.

Lemma string_compare_refl (s : string) : String.compare s s = Eq.
Proof.
  induction s as [|a s IH]; simpl; [reflexivity|].
  now rewrite ascii_compare_refl.
Qed.

Lemma string_compare_lt_trans (s1 s2 s3 : string) :
  String.compare s1 s2 = Lt -> String.compare s2 s3 = Lt ->
  String.compare s1 s3 = Lt.
Proof.
  revert s2 s3.
  induction s1 as [|a s1 IH]; intros [|b s2] [|c s3]; simpl;
    try easy.
  destruct (Ascii.compare a b) eqn:Hab; try discriminate.
  - apply Ascii.compare_eq_iff in Hab. subst b.
    destruct (Ascii.compare a c); try easy. apply IH.
  - intros _.
    destruct (Ascii.compare b c) eqn:Hbc; try discriminate.
    + apply Ascii.compare_eq_iff in Hbc. subst c. now rewrite Hab.
    + intros _. now rewrite (ascii_compare_lt_trans _ _ _ Hab Hbc).
Qed.

Lemma my_cmp_irrefl (k : shared_buffer) : my_cmp k k = false.
Proof. unfold my_cmp, String.ltb. now rewrite string_compare_refl. Qed.

Lemma my_cmp_trans (a b c : shared_buffer) :
  my_cmp a b = true -> my_cmp b c = true -> my_cmp a c = true.
Proof.
  unfold my_cmp, String.ltb. intros Hab Hbc.
  destruct (String.compare a b) eqn:E1; try discriminate.
  destruct (String.compare b c) eqn:E2; try discriminate.
  now rewrite (string_compare_lt_trans _ _ _ E1 E2).
Qed.

Lemma my_cmp_asym (a b : shared_buffer) :
  my_cmp a b = true -> my_cmp b a = false.
Proof.
  intros Hab. destruct (my_cmp b a) eqn:Hba; [|reflexivity].
  pose proof (my_cmp_trans _ _ _ Hab Hba) as H.
  now rewrite my_cmp_irrefl in H.
Qed.

(** Keys that the comparator holds equivalent are the same bytes. *)
Lemma my_cmp_equiv (a b : shared_buffer) :
  my_cmp a b = false -> my_cmp b a = false -> a = b.
Proof.
  unfold my_cmp, String.ltb. rewrite (String.compare_antisym b a).
  destruct (String.compare a b) eqn:E; simpl; try discriminate.
  intros _ _. now apply String.compare_eq_iff.
Qed.

Lemma my_cmp_leb (a b : shared_buffer) :
  my_cmp a b = true -> String.leb a b = true.
Proof.
  unfold my_cmp, String.ltb, String.leb.
  now destruct (String.compare a b).
Qed.

(** ** The map *)

Lemma map_ok_nil : map_ok [].
Proof. constructor. Qed.

Lemma map_ok_inv (k h : shared_buffer) (m : map_type) :
  map_ok ((k, h) :: m) ->
  map_ok m /\ Forall (fun e => my_cmp k (fst e) = true) m.
Proof. intros H. inversion H; subst. now split. Qed.

Lemma map_find_key (key : shared_buffer) (m : map_type) k h :
  map_find key m = Some (k, h) -> k = key.
Proof.
  induction m as [|[k' h'] m IH]; simpl; [discriminate|].
  destruct (my_cmp k' key) eqn:E1; [exact IH|].
  destruct (my_cmp key k') eqn:E2; [discriminate|].
  intros [= <- <-]. now apply my_cmp_equiv.
Qed.

Lemma map_find_In (key : shared_buffer) (m : map_type) k h :
  map_find key m = Some (k, h) -> In (key, h) m.
Proof.
  intros H. pose proof (map_find_key _ _ _ _ H) as ->. revert H.
  induction m as [|[k' h'] m IH]; simpl; [discriminate|].
  destruct (my_cmp k' key); [now right; apply IH|].
  destruct (my_cmp key k'); [discriminate|].
  intros [= -> ->]. now left.
Qed.

Lemma Forall_above_not_in (key : shared_buffer) (m : map_type) :
  Forall (fun e => my_cmp key (fst e) = true) m -> ~ In key (keys m).
Proof.
  intros HF Hin. unfold keys in Hin. apply in_map_iff in Hin.
  destruct Hin as [e [<- He]].
  rewrite Forall_forall in HF. specialize (HF _ He).
  now rewrite my_cmp_irrefl in HF.
Qed.

Lemma map_find_None (key : shared_buffer) (m : map_type) :
  map_ok m -> (map_find key m = None <-> ~ In key (keys m)).
Proof.
  induction m as [|[k h] m IH]; simpl; intros Hok; [tauto|].
  apply map_ok_inv in Hok. destruct Hok as [Hok HF].
  destruct (my_cmp k key) eqn:E1.
  - rewrite (IH Hok). split; [|tauto].
    intros Hn [->|Hin]; [|tauto]. now rewrite my_cmp_irrefl in E1.
  - destruct (my_cmp key k) eqn:E2.
    + split; [intros _|reflexivity].
      intros [->|Hin]; [now rewrite my_cmp_irrefl in E2|].
      revert Hin. apply Forall_above_not_in.
      eapply Forall_impl; [|exact HF]. simpl. intros e He.
      eapply my_cmp_trans; eauto.
    + split; [discriminate|]. intros Hn. exfalso. apply Hn. left.
      now apply my_cmp_equiv.
Qed.

Lemma In_map_find (key h : shared_buffer) (m : map_type) :
  map_ok m -> In (key, h) m -> map_find key m = Some (key, h).
Proof.
  induction m as [|[k' h'] m IH]; simpl; intros Hok Hin; [easy|].
  apply map_ok_inv in Hok. destruct Hok as [Hok HF].
  destruct Hin as [[= -> ->]|Hin].
  - now rewrite my_cmp_irrefl.
  - rewrite Forall_forall in HF. pose proof (HF _ Hin) as Hlt.
    simpl in Hlt. rewrite Hlt. now apply IH.
Qed.

Lemma keys_emplace (key hash : shared_buffer) (m : map_type) e :
  In e (map_emplace key hash m) -> e = (key, hash) \/ In e m.
Proof.
  induction m as [|[k h] m IH]; simpl.
  - intros [<-|[]]. now left.
  - destruct (my_cmp k key).
    + intros [<-|Hin]; [right; now left|]. destruct (IH Hin); auto.
    + destruct (my_cmp key k); simpl; intuition auto.
Qed.

Lemma map_emplace_ok (key hash : shared_buffer) (m : map_type) :
  map_ok m -> map_ok (map_emplace key hash m).
Proof.
  induction m as [|[k h] m IH]; simpl; intros Hok.
  - repeat constructor.
  - pose proof Hok as Hok0.
    apply map_ok_inv in Hok. destruct Hok as [Hok HF].
    destruct (my_cmp k key) eqn:E1.
    + constructor; [now apply IH|].
      rewrite Forall_forall in *. intros e He.
      destruct (keys_emplace _ _ _ _ He) as [->|Hin]; auto.
    + destruct (my_cmp key k) eqn:E2; [|exact Hok0].
      constructor; [exact Hok0|]. constructor; [exact E2|].
      eapply Forall_impl; [|exact HF]. simpl. intros e He.
      eapply my_cmp_trans; eauto.
Qed.

Lemma keys_assign (key hash : shared_buffer) (m : map_type) :
  keys (map_assign key hash m) = keys m.
Proof.
  induction m as [|[k h] m IH]; simpl; [reflexivity|].
  destruct (my_cmp k key); simpl; [now rewrite IH|].
  now destruct (my_cmp key k).
Qed.

Lemma StronglySorted_keys (m : map_type) :
  map_ok m <-> StronglySorted (fun a b => my_cmp a b = true) (keys m).
Proof.
  unfold map_ok, keys. induction m as [|[k h] m IH]; simpl.
  - split; constructor.
  - split; intros H; inversion H as [|? ? Hs HF]; subst; constructor;
      try tauto.
    + apply Forall_map. exact HF.
    + apply Forall_map in HF. exact HF.
Qed.

Lemma map_assign_ok (key hash : shared_buffer) (m : map_type) :
  map_ok m -> map_ok (map_assign key hash m).
Proof. rewrite !StronglySorted_keys. now rewrite keys_assign. Qed.

Lemma map_find_emplace_same (key hash : shared_buffer) (m : map_type) :
  map_find key m = None ->
  map_find key (map_emplace key hash m) = Some (key, hash).
Proof.
  induction m as [|[k h] m IH]; simpl.
  - now rewrite my_cmp_irrefl.
  - destruct (my_cmp k key) eqn:E1; simpl.
    + now rewrite E1.
    + destruct (my_cmp key k) eqn:E2; [|discriminate].
      simpl. now rewrite my_cmp_irrefl.
Qed.

Lemma map_find_emplace_other (key hash k' : shared_buffer) (m : map_type) :
  k' <> key ->
  map_find k' (map_emplace key hash m) = map_find k' m.
Proof.
  intros Hne. induction m as [|[k h] m IH]; simpl.
  - destruct (my_cmp key k') eqn:E1; [reflexivity|].
    destruct (my_cmp k' key) eqn:E2; [reflexivity|].
    exfalso. apply Hne. now apply my_cmp_equiv.
  - destruct (my_cmp k key) eqn:E1; simpl.
    + now rewrite IH.
    + destruct (my_cmp key k) eqn:E2; [|reflexivity].
      simpl.
      destruct (my_cmp key k') eqn:E3.
      * reflexivity.
      * destruct (my_cmp k' key) eqn:E4.
        -- now rewrite (my_cmp_asym _ _ (my_cmp_trans _ _ _ E4 E2)),
             (my_cmp_trans _ _ _ E4 E2).
        -- exfalso. apply Hne. now apply my_cmp_equiv.
Qed.

Lemma map_find_assign_same (key hash : shared_buffer) (m : map_type) k h :
  map_find key m = Some (k, h) ->
  map_find key (map_assign key hash m) = Some (key, hash).
Proof.
  induction m as [|[k0 h0] m IH]; simpl; [discriminate|].
  destruct (my_cmp k0 key) eqn:E1; simpl.
  - rewrite E1. exact IH.
  - destruct (my_cmp key k0) eqn:E2; [discriminate|].
    intros _. simpl. rewrite E1, E2.
    now rewrite (my_cmp_equiv _ _ E1 E2).
Qed.

Lemma map_find_assign_other (key hash k' : shared_buffer) (m : map_type) :
  k' <> key ->
  map_find k' (map_assign key hash m) = map_find k' m.
Proof.
  intros Hne. induction m as [|[k h] m IH]; simpl; [reflexivity|].
  destruct (my_cmp k key) eqn:E1; simpl.
  - now rewrite IH.
  - destruct (my_cmp key k) eqn:E2; [reflexivity|].
    simpl. pose proof (my_cmp_equiv _ _ E1 E2) as ->.
    destruct (my_cmp key k') eqn:E3; [reflexivity|].
    destruct (my_cmp k' key) eqn:E4; [reflexivity|].
    exfalso. apply Hne. now apply my_cmp_equiv.
Qed.

Lemma keys_emplace_incl (key hash : shared_buffer) (m : map_type) k :
  In k (keys m) -> In k (keys (map_emplace key hash m)).
Proof.
  unfold keys. induction m as [|[k0 h0] m IH]; simpl; [easy|].
  destruct (my_cmp k0 key); simpl.
  - intuition auto.
  - destruct (my_cmp key k0); simpl; intuition auto.
Qed.

(** [hash_calculated] keeps the order of the nodes. *)
Lemma hash_calculated_ok (m : map_type) (key hash : shared_buffer) :
  map_ok m -> map_ok (fst (hash_calculated m key hash)).
Proof.
  intros Hok. unfold hash_calculated.
  destruct (map_find key m) as [[k h]|]; simpl.
  - destruct (negb (String.eqb h hash)); simpl; auto using map_assign_ok.
  - now apply map_emplace_ok.
Qed.

Lemma hash_calculated_keys (m : map_type) (key hash : shared_buffer) k :
  In k (keys m) -> In k (keys (fst (hash_calculated m key hash))).
Proof.
  unfold hash_calculated.
  destruct (map_find key m) as [[k0 h]|]; simpl.
  - destruct (negb (String.eqb h hash)); simpl; [|auto].
    now rewrite keys_assign.
  - apply keys_emplace_incl.
Qed.

Lemma run_operation_ok (m : map_type) (o : operation) :
  map_ok m -> map_ok (run_operation m o).
Proof. destruct o; simpl; auto using hash_calculated_ok. Qed.

Lemma run_operations_ok (ops : list operation) (m : map_type) :
  map_ok m -> map_ok (run_operations m ops).
Proof.
  unfold run_operations. revert m.
  induction ops as [|o ops IH]; simpl; auto using run_operation_ok.
Qed.

Lemma run_operations_keys (ops : list operation) (m : map_type) k :
  In k (keys m) -> In k (keys (run_operations m ops)).
Proof.
  unfold run_operations. revert m.
  induction ops as [|o ops IH]; simpl; [auto|].
  intros m Hin. apply IH. destruct o; simpl; auto using hash_calculated_keys.
Qed.

Lemma map_ok_NoDup (m : map_type) : map_ok m -> NoDup (keys m).
Proof.
  induction m as [|[k h] m IH]; simpl; intros Hok; [constructor|].
  apply map_ok_inv in Hok. destruct Hok as [Hok HF].
  constructor; [now apply Forall_above_not_in | now apply IH].
Qed.

(** The result of [hash_calculated], case by case. *)
Lemma hash_calculated_spec (m : map_type) (key hash : shared_buffer) :
  map_ok m ->
  let (m', r) := hash_calculated m key hash in
  (r = (true, Some key, Some hash)
   /\ map_find key m' = Some (key, hash)
   /\ (~ In key (keys m)
       \/ exists h, map_find key m = Some (key, h) /\ h <> hash))
  \/ (r = (false, None, None) /\ m' = m
      /\ map_find key m = Some (key, hash)).
Proof.
  intros Hok. unfold hash_calculated.
  destruct (map_find key m) as [[k h]|] eqn:Hf.
  - pose proof (map_find_key _ _ _ _ Hf) as ->.
    destruct (String.eqb h hash) eqn:Heq; simpl.
    + apply String.eqb_eq in Heq. subst h. right. auto.
    + apply String.eqb_neq in Heq. left. repeat split.
      * eapply map_find_assign_same; eauto.
      * right. eauto.
  - left. repeat split.
    + now apply map_find_emplace_same.
    + left. now apply map_find_None.
Qed.

Lemma hash_calculated_frame (m : map_type) (key hash k' : shared_buffer) :
  k' <> key ->
  map_find k' (fst (hash_calculated m key hash)) = map_find k' m.
Proof.
  intros Hne. unfold hash_calculated.
  destruct (map_find key m) as [[k h]|]; simpl.
  - destruct (negb (String.eqb h hash)); simpl; [|reflexivity].
    now apply map_find_assign_other.
  - now apply map_find_emplace_other.
Qed.

(** ** Change detection and the frame of [update] *)

Lemma keys_emplace_iff (key hash : shared_buffer) (m : map_type) k :
  In k (keys (map_emplace key hash m)) -> k = key \/ In k (keys m).
Proof.
  unfold keys. rewrite !in_map_iff. intros [e [<- He]].
  destruct (keys_emplace _ _ _ _ He) as [->|Hin]; [now left|].
  right. now exists e.
Qed.

(** C2: [update(K, V)] reports [(true, K, h)] and stores the new hash [h]
    as the entry of [K] exactly when [K] has no entry or its stored hash
    differs from [h]; otherwise it reports [(false, null, null)] and the map
    is left as it was.  The first update of a key reports a change. *)
Theorem update_change_detection (m : map_type) (K V : shared_buffer) :
  map_ok m ->
  ((~ In K (keys m)
    \/ exists h0, map_find K m = Some (K, h0) /\ h0 <> sha1_hex V) ->
   snd (update m K V) = (true, Some K, Some (sha1_hex V))
   /\ map_find K (fst (update m K V)) = Some (K, sha1_hex V))
  /\ (~ (~ In K (keys m)
         \/ exists h0, map_find K m = Some (K, h0) /\ h0 <> sha1_hex V) ->
      snd (update m K V) = (false, None, None)
      /\ fst (update m K V) = m)
  /\ (~ In K (keys m) ->
      snd (update m K V) = (true, Some K, Some (sha1_hex V))).
Proof.
  intros Hok. unfold update.
  pose proof (hash_calculated_spec m K (sha1_hex V) Hok) as Hs.
  destruct (hash_calculated m K (sha1_hex V)) as [m' r]. simpl.
  destruct Hs as [(Hr & Hf & Hc) | (Hr & Hm & Hf)].
  - split; [auto|]. split; [|auto].
    intros Hn. now destruct (Hn Hc).
  - assert (Hin : ~ ~ In K (keys m)).
    { intros Hn. apply (map_find_None K m Hok) in Hn. congruence. }
    split; [|split].
    + intros [Hn | [h0 [Hf0 Hne]]]; [now destruct (Hin Hn)|]. congruence.
    + auto.
    + intros Hn. now destruct (Hin Hn).
Qed.

Lemma update_change_detection_witness :
  map_ok [("foo", "0x00")]
  /\ snd (update [("foo", "0x00")] "bar" "v")
     = (true, Some "bar", Some (sha1_hex "v")).
Proof.
  assert (Hok : map_ok [("foo", "0x00")]) by (repeat constructor).
  split; [exact Hok|].
  apply (proj2 (proj2
           (update_change_detection [("foo", "0x00")] "bar" "v" Hok))).
  simpl. intros [H|[]]. discriminate H.
Defined.

(** C10: [update(K, V)] leaves every other key as it was, in presence and in
    hash, and leaves the whole map as it was when it reports no change. *)
Theorem update_frame (m : map_type) (K V : shared_buffer) :
  (forall K', K' <> K ->
     map_find K' (fst (update m K V)) = map_find K' m
     /\ (In K' (keys (fst (update m K V))) <-> In K' (keys m)))
  /\ (fst (fst (snd (update m K V))) = false -> fst (update m K V) = m).
Proof.
  unfold update. split.
  - intros K' Hne. split; [now apply hash_calculated_frame|].
    split; [|apply hash_calculated_keys].
    unfold hash_calculated.
    destruct (map_find K m) as [[k h]|]; simpl.
    + destruct (negb (String.eqb h (sha1_hex V))); simpl; [|auto].
      now rewrite keys_assign.
    + intros Hin. apply keys_emplace_iff in Hin. tauto.
  - unfold hash_calculated.
    destruct (map_find K m) as [[k h]|]; simpl.
    + destruct (negb (String.eqb h (sha1_hex V))); simpl; [discriminate|auto].
    + discriminate.
Qed.

Lemma update_frame_witness :
  "a" <> "b"
  /\ map_find "a" (fst (update [("a", "0x01")] "b" "v"))
     = map_find "a" [("a", "0x01")].
Proof.
  assert (Hne : "a" <> "b") by discriminate.
  split; [exact Hne|].
  apply (proj1 (update_frame [("a", "0x01")] "b" "v") "a" Hne).
Defined.

(** ** Entries are unique and stay *)

(** C6: in every state that the operations of the store can reach, no key
    has two entries, and a key that has an entry has one after any further
    operations: nothing removes an entry. *)
Theorem store_keys_unique_and_stay (ops ops' : list operation) :
  NoDup (keys (run_operations [] ops))
  /\ (forall k, In k (keys (run_operations [] ops)) ->
        In k (keys (run_operations (run_operations [] ops) ops')))
  /\ List.length (run_operations [] ops)
     <= List.length (run_operations (run_operations [] ops) ops').
Proof.
  assert (Hok : map_ok (run_operations [] ops))
    by (apply run_operations_ok, map_ok_nil).
  split; [now apply map_ok_NoDup|].
  split; [intros k; apply run_operations_keys|].
  rewrite <- !(length_map fst). fold (keys (run_operations [] ops)).
  fold (keys (run_operations (run_operations [] ops) ops')).
  apply NoDup_incl_length; [now apply map_ok_NoDup|].
  intros k. apply run_operations_keys.
Qed.

Lemma store_keys_unique_and_stay_witness :
  In "a" (keys (run_operations [] [op_update "a" "0x01"]))
  /\ In "a" (keys (run_operations (run_operations [] [op_update "a" "0x01"])
                     [op_update "b" "0x02"; op_get_first;
                      op_update "a" "0x03"; op_get_next "a"; op_get_size])).
Proof.
  assert (H : In "a" (keys (run_operations [] [op_update "a" "0x01"])))
    by (vm_compute; auto).
  split; [exact H|].
  exact (proj1 (proj2 (store_keys_unique_and_stay _ _)) "a" H).
Defined.

(** ** The walk over the map *)

Lemma map_next_above (k : node_iterator) (m : map_type) :
  Forall (fun e => my_cmp k (fst e) = true) m ->
  map_next k m = nth_error m 0.
Proof.
  destruct m as [|[k' h'] m]; simpl; [reflexivity|].
  intros HF. inversion HF as [|? ? Hlt _]; subst. simpl in Hlt.
  now rewrite Hlt.
Qed.

(** [std::next] of the node at position [i] is the node at position
    [i + 1]. *)
Lemma map_next_nth (m : map_type) :
  map_ok m ->
  forall i k h, nth_error m i = Some (k, h) ->
  map_next k m = nth_error m (S i).
Proof.
  induction m as [|[k0 h0] m IH]; intros Hok i k h Hn.
  - now destruct i.
  - apply map_ok_inv in Hok. destruct Hok as [Hok HF].
    destruct i as [|i]; simpl in Hn |- *.
    + injection Hn as -> ->. rewrite my_cmp_irrefl.
      now apply map_next_above.
    + assert (Hlt : my_cmp k0 k = true).
      { rewrite Forall_forall in HF.
        apply (HF (k, h)). eapply nth_error_In; eauto. }
      rewrite (my_cmp_asym _ _ Hlt). eapply IH; eauto.
Qed.

Lemma get_next_impl_nth (m : map_type) :
  map_ok m ->
  forall i k h, nth_error m i = Some (k, h) ->
  get_next_impl m k = result_at m (S i).
Proof.
  intros Hok i k h Hn. unfold get_next_impl, result_at.
  now rewrite (map_next_nth m Hok i k h Hn).
Qed.

Lemma skipn_nth_error {A} (l : list A) (i : nat) (x : A) :
  nth_error l i = Some x -> skipn i l = x :: skipn (S i) l.
Proof.
  revert l. induction i as [|i IH]; intros [|y l]; simpl; try discriminate.
  - now intros [= ->].
  - apply IH.
Qed.

Lemma snapshot_from_nth (m : map_type) :
  map_ok m ->
  forall fuel i, List.length m <= fuel + i ->
  snapshot_from fuel m (result_at m i) = Some (skipn i m).
Proof.
  intros Hok. induction fuel as [|fuel IH]; intros i Hlen.
  - unfold result_at.
    assert (Hn : nth_error m i = None) by (apply nth_error_None; lia).
    rewrite Hn. simpl. rewrite skipn_all2 by lia. reflexivity.
  - unfold result_at. destruct (nth_error m i) as [[k h]|] eqn:Hn.
    + simpl. rewrite (get_next_impl_nth m Hok i k h Hn).
      rewrite IH by lia. now rewrite (skipn_nth_error _ _ _ Hn).
    + simpl. apply nth_error_None in Hn. now rewrite skipn_all2 by lia.
Qed.

(** C5: [get_first] reports [empty] exactly when the map has no entry and
    otherwise yields the least key with its hash; [get_next] yields the
    entry that follows in the order, and the end after the last one; the
    walk of an unchanging map visits every entry once, in ascending
    lexicographic order of the keys. *)
Theorem snapshot_enumerates_in_key_order (ops : list operation) :
  (get_first_impl (run_operations [] ops) = (true, None, None, None)
   <-> run_operations [] ops = [])
  /\ (forall k h rest, run_operations [] ops = (k, h) :: rest ->
        get_first_impl (run_operations [] ops)
        = (false, Some k, Some k, Some h)
        /\ forall k', In k' (keys (run_operations [] ops)) ->
             String.leb k k' = true)
  /\ (forall i k h, nth_error (run_operations [] ops) i = Some (k, h) ->
        get_next_impl (run_operations [] ops) k
        = match nth_error (run_operations [] ops) (S i) with
          | Some (k', h') => (false, Some k', Some k', Some h')
          | None => (true, None, None, None)
          end)
  /\ (forall fuel, List.length (run_operations [] ops) <= fuel ->
        snapshot fuel (run_operations [] ops)
        = Some (run_operations [] ops))
  /\ StronglySorted (fun a b => String.ltb a b = true)
       (keys (run_operations [] ops))
  /\ NoDup (keys (run_operations [] ops)).
Proof.
  assert (Hok : map_ok (run_operations [] ops))
    by (apply run_operations_ok, map_ok_nil).
  destruct (run_operations [] ops) as [|[k0 h0] m] eqn:Hm.
  - split; [easy|].
    split; [intros k h rest H; discriminate|].
    split; [intros [|i] k h; discriminate|].
    split; [intros fuel _; now destruct fuel|].
    split; constructor.
  - split; [split; discriminate|].
    split.
    { intros k h rest [= <- <- <-]. split; [reflexivity|].
      intros k' [<-|Hin].
      - unfold String.leb. now rewrite string_compare_refl.
      - apply map_ok_inv in Hok. destruct Hok as [_ HF].
        unfold keys in Hin. apply in_map_iff in Hin.
        destruct Hin as [e [<- He]].
        rewrite Forall_forall in HF. now apply my_cmp_leb, HF. }
    split.
    { intros i k h Hn. apply (get_next_impl_nth _ Hok i k h Hn). }
    split.
    { intros fuel Hlen. unfold snapshot.
      change (get_first_impl ((k0, h0) :: m))
        with (result_at ((k0, h0) :: m) 0).
      rewrite (snapshot_from_nth _ Hok fuel 0) by lia. reflexivity. }
    split.
    { now apply StronglySorted_keys in Hok. }
    now apply map_ok_NoDup.
Qed.

Lemma snapshot_enumerates_in_key_order_witness :
  nth_error (run_operations []
               [op_update "b" "0x01"; op_update "a" "0x02";
                op_update "c" "0x03"; op_update "a" "0x04"]) 1
  = Some ("b", "0x01")
  /\ get_next_impl (run_operations []
               [op_update "b" "0x01"; op_update "a" "0x02";
                op_update "c" "0x03"; op_update "a" "0x04"]) "b"
     = (false, Some "c", Some "c", Some "0x03").
Proof.
  split; [reflexivity|].
  exact (proj1 (proj2 (proj2 (snapshot_enumerates_in_key_order
           [op_update "b" "0x01"; op_update "a" "0x02";
            op_update "c" "0x03"; op_update "a" "0x04"])))
           1 "b" "0x01" eq_refl).
Defined.

(** ** Byte strings *)

Lemma find_head (c : ascii) (s : string) : find c (String c s) = Some 0.
Proof. simpl. now rewrite Ascii.eqb_refl. Qed.

Lemma find_app_absent (c : ascii) (s t : string) :
  contains c s = false ->
  find c (s ++ t)
  = match find c t with
    | Some i => Some (String.length s + i)
    | None => None
    end.
Proof.
  induction s as [|a s IH]; simpl.
  - intros _. now destruct (find c t).
  - intros H. apply orb_false_iff in H. destruct H as [Ha Hs].
    rewrite Ha, (IH Hs). now destruct (find c t).
Qed.

Lemma take_app (s t : string) : take (String.length s) (s ++ t) = s.
Proof.
  unfold take. induction s as [|a s IH]; simpl.
  - now destruct t.
  - now rewrite IH.
Qed.

Lemma take_all (s : string) : take (String.length s) s = s.
Proof.
  unfold take. induction s as [|a s IH]; simpl; [reflexivity|].
  now rewrite IH.
Qed.

Lemma erase_front_app (s t : string) :
  erase_front (String.length s) (s ++ t) = t.
Proof. induction s as [|a s IH]; simpl; auto. Qed.

Lemma substring_skip (s t : string) (n : nat) :
  substring (String.length s) n (s ++ t) = substring 0 n t.
Proof. induction s as [|a s IH]; simpl; auto. Qed.

Lemma string_length_app (s t : string) :
  String.length (s ++ t) = String.length s + String.length t.
Proof. induction s as [|a s IH]; simpl; auto. Qed.

Lemma string_app_assoc (s t u : string) :
  ((s ++ t) ++ u = s ++ (t ++ u))%string.
Proof. induction s as [|a s IH]; simpl; [reflexivity|]. now rewrite IH. Qed.

Lemma string_app_inj (s s' t t' : string) :
  String.length s = String.length s' ->
  (s ++ t = s' ++ t')%string -> s = s' /\ t = t'.
Proof.
  revert s'. induction s as [|a s IH]; intros [|a' s']; simpl;
    try discriminate.
  - auto.
  - intros [= Hl] [= -> Happ]. destruct (IH _ Hl Happ) as [-> ->]. auto.
Qed.

(** What [on_readed] makes of a buffer that starts with the line
    [key SP value LF]. *)
Lemma on_readed_line (key value rest : string) :
  contains SP key = false ->
  contains LF key = false ->
  contains LF value = false ->
  let buf := (key ++ String SP (value ++ String LF rest))%string in
  find LF buf = Some (String.length key + S (String.length value))
  /\ on_readed buf ec_success
       (S (String.length key + S (String.length value)))
     = rd_update key (value ++ String LF "")%string rest.
Proof.
  intros Hsp Hlf Hv buf. subst buf.
  assert (HLF : find LF (key ++ String SP (value ++ String LF rest))
                = Some (String.length key + S (String.length value))).
  { rewrite (find_app_absent _ _ _ Hlf). simpl.
    rewrite (find_app_absent _ _ _ Hv), find_head.
    now rewrite Nat.add_0_r. }
  split; [exact HLF|].
  unfold on_readed.
  set (line1 := (key ++ String SP (value ++ String LF ""))%string).
  assert (Hbuf : (key ++ String SP (value ++ String LF rest))%string
                 = (line1 ++ rest)%string).
  { unfold line1. rewrite string_app_assoc. simpl.
    now rewrite string_app_assoc. }
  assert (Hlen : S (String.length key + S (String.length value))
                 = String.length line1).
  { unfold line1. rewrite string_length_app. simpl.
    rewrite string_length_app. simpl. lia. }
  rewrite Hbuf, Hlen, take_app, erase_front_app.
  unfold line1 at 1. rewrite (find_app_absent _ _ _ Hsp), find_head.
  rewrite Nat.add_0_r. unfold range.
  rewrite Nat.sub_0_r.
  fold (take (String.length key) line1). unfold line1 at 1.
  rewrite take_app.
  replace (String.length key + 1)
    with (String.length (key ++ String SP "")%string)
    by (rewrite string_length_app; reflexivity).
  replace line1
    with ((key ++ String SP "") ++ (value ++ String LF ""))%string
    by (unfold line1; now rewrite string_app_assoc).
  rewrite substring_skip.
  rewrite (string_length_app (key ++ String SP "")).
  rewrite Nat.add_comm, Nat.add_sub.
  fold (take (String.length (value ++ String LF "")%string)
             (value ++ String LF "")%string).
  now rewrite take_all.
Qed.

(** The key that [on_readed] cuts out holds neither a space nor a
    newline. *)
Lemma key_before_space (buf : string) :
  forall i pos,
  find LF buf = Some i ->
  find SP (take (S i) buf) = Some pos ->
  contains SP (range (take (S i) buf) 0 pos) = false
  /\ contains LF (range (take (S i) buf) 0 pos) = false.
Proof.
  unfold range, take.
  induction buf as [|a buf IH]; intros i pos; simpl; [discriminate|].
  destruct (Ascii.eqb a LF) eqn:Ha.
  - intros [= <-]. simpl. apply Ascii.eqb_eq in Ha. subst a. simpl.
    destruct buf; discriminate.
  - destruct (find LF buf) as [i'|] eqn:Hf; [|discriminate].
    intros [= <-]. simpl.
    destruct (Ascii.eqb a SP) eqn:Hs.
    + intros [= <-]. simpl. auto.
    + destruct (find SP (substring 0 (S i') buf)) as [pos'|] eqn:Hp;
        [|discriminate].
      intros [= <-]. simpl. rewrite Ha, Hs. simpl.
      specialize (IH i' pos' eq_refl Hp).
      rewrite ?Nat.sub_0_r in *. exact IH.
Qed.

(** ** The digest and its format *)

Lemma hex_value_digit (n : Z) :
  (0 <= n < 16)%Z -> hex_value (hex_digit n) = n.
Proof.
  intros H. destruct n as [|p|p]; [reflexivity| |lia].
  do 4 (destruct p as [p|p|]; try reflexivity); lia.
Qed.

Lemma hex_digit_lower (n : Z) : lower_hex_digit (hex_digit n) = true.
Proof.
  destruct n as [|p|p]; try reflexivity.
  do 4 (destruct p as [p|p|]; try reflexivity).
Qed.

Lemma nibble_range (w k : Z) :
  (0 <= Z.land (Z.shiftr w k) 0xF < 16)%Z.
Proof.
  change 0xF%Z with (Z.ones 4). rewrite Z.land_ones by lia.
  apply Z.mod_pos_bound. reflexivity.
Qed.

Lemma nibble_step (x k k' : Z) :
  (0 <= k)%Z -> (k' = k + 4)%Z ->
  Z.shiftr x k = (Z.land (Z.shiftr x k) 0xF + 16 * Z.shiftr x k')%Z.
Proof.
  intros Hk ->. change 0xF%Z with (Z.ones 4). rewrite Z.land_ones by lia.
  rewrite <- (Z.shiftr_shiftr x k 4) by lia.
  rewrite (Z.shiftr_div_pow2 (Z.shiftr x k) 4) by lia.
  change (2 ^ 4)%Z with 16%Z.
  pose proof (Z.div_mod (Z.shiftr x k) 16). lia.
Qed.

(** A 32-bit word is the sum of its eight nibbles. *)
Lemma nibbles_word (w : Z) :
  (0 <= w < 2 ^ 32)%Z ->
  w = (Z.land (Z.shiftr w 0) 0xF
       + 16 * (Z.land (Z.shiftr w 4) 0xF
       + 16 * (Z.land (Z.shiftr w 8) 0xF
       + 16 * (Z.land (Z.shiftr w 12) 0xF
       + 16 * (Z.land (Z.shiftr w 16) 0xF
       + 16 * (Z.land (Z.shiftr w 20) 0xF
       + 16 * (Z.land (Z.shiftr w 24) 0xF
       + 16 * Z.land (Z.shiftr w 28) 0xF)))))))%Z.
Proof.
  intros Hw.
  assert (H32 : Z.shiftr w 32 = 0%Z).
  { rewrite Z.shiftr_div_pow2 by lia. now apply Z.div_small. }
  assert (H0 : Z.shiftr w 0 = w) by apply Z.shiftr_0_r.
  pose proof (nibble_step w 0 4 ltac:(lia) eq_refl) as S0.
  pose proof (nibble_step w 4 8 ltac:(lia) eq_refl) as S1.
  pose proof (nibble_step w 8 12 ltac:(lia) eq_refl) as S2.
  pose proof (nibble_step w 12 16 ltac:(lia) eq_refl) as S3.
  pose proof (nibble_step w 16 20 ltac:(lia) eq_refl) as S4.
  pose proof (nibble_step w 20 24 ltac:(lia) eq_refl) as S5.
  pose proof (nibble_step w 24 28 ltac:(lia) eq_refl) as S6.
  pose proof (nibble_step w 28 32 ltac:(lia) eq_refl) as S7.
  rewrite H32 in S7. clear Hw H32.
  generalize dependent (Z.shiftr w 0). intros; subst.
  lia.
Qed.

Lemma string_cons_inj (a b : ascii) (s t : string) :
  String a s = String b t -> a = b /\ s = t.
Proof. intros [= -> ->]. auto. Qed.

Lemma sprintf_08x_inj (w w' : Z) :
  (0 <= w < 2 ^ 32)%Z -> (0 <= w' < 2 ^ 32)%Z ->
  sprintf_08x w = sprintf_08x w' -> w = w'.
Proof.
  intros Hw Hw' H. cbv [sprintf_08x map string_of_list_ascii] in H.
  apply string_cons_inj in H. destruct H as [H7 H].
  apply string_cons_inj in H. destruct H as [H6 H].
  apply string_cons_inj in H. destruct H as [H5 H].
  apply string_cons_inj in H. destruct H as [H4 H].
  apply string_cons_inj in H. destruct H as [H3 H].
  apply string_cons_inj in H. destruct H as [H2 H].
  apply string_cons_inj in H. destruct H as [H1 H].
  apply string_cons_inj in H. destruct H as [H0 _].
  apply (f_equal hex_value) in H0, H1, H2, H3, H4, H5, H6, H7.
  rewrite !hex_value_digit in H0, H1, H2, H3, H4, H5, H6, H7
    by apply nibble_range.
  rewrite (nibbles_word w Hw), (nibbles_word w' Hw').
  change (4 * 0)%Z with 0%Z in *. change (4 * 1)%Z with 4%Z in *.
  change (4 * 2)%Z with 8%Z in *. change (4 * 3)%Z with 12%Z in *.
  change (4 * 4)%Z with 16%Z in *. change (4 * 5)%Z with 20%Z in *.
  change (4 * 6)%Z with 24%Z in *. change (4 * 7)%Z with 28%Z in *.
  now rewrite H0, H1, H2, H3, H4, H5, H6, H7.
Qed.

Lemma sprintf_08x_length (w : Z) : String.length (sprintf_08x w) = 8.
Proof. reflexivity. Qed.

Lemma sprintf_08x_lower (w : Z) :
  string_forall lower_hex_digit (sprintf_08x w) = true.
Proof.
  cbv [sprintf_08x map string_of_list_ascii string_forall].
  now rewrite !hex_digit_lower.
Qed.

Lemma string_forall_app (p : ascii -> bool) (s t : string) :
  string_forall p (s ++ t)
  = string_forall p s && string_forall p t.
Proof.
  induction s as [|a s IH]; simpl; [reflexivity|].
  now rewrite IH, andb_assoc.
Qed.

Lemma format_digest_length (d : list Z) :
  String.length (format_digest d) = 8 * List.length d.
Proof.
  induction d as [|w d IH]; cbn [format_digest List.length];
    [reflexivity|].
  rewrite string_length_app, sprintf_08x_length, IH. lia.
Qed.

Lemma format_digest_lower (d : list Z) :
  string_forall lower_hex_digit (format_digest d) = true.
Proof.
  induction d as [|w d IH]; cbn [format_digest]; [reflexivity|].
  now rewrite string_forall_app, sprintf_08x_lower, IH.
Qed.

Lemma format_digest_inj (d d' : list Z) :
  Forall (fun w => 0 <= w < 2 ^ 32)%Z d ->
  Forall (fun w => 0 <= w < 2 ^ 32)%Z d' ->
  List.length d = List.length d' ->
  format_digest d = format_digest d' -> d = d'.
Proof.
  revert d'. induction d as [|w d IH]; intros [|w' d'];
    cbn [format_digest List.length]; try discriminate; [reflexivity|].
  intros Hd Hd' [= Hl] H.
  inversion Hd as [|? ? Hw Hd1]; inversion Hd' as [|? ? Hw' Hd1']; subst.
  apply string_app_inj in H; [|reflexivity]. destruct H as [H1 H2].
  f_equal; [now apply sprintf_08x_inj | now apply IH].
Qed.

Lemma w32_range (x : Z) : (0 <= Sha1.w32 x < 2 ^ 32)%Z.
Proof.
  unfold Sha1.w32. change 0xFFFFFFFF%Z with (Z.ones 32).
  rewrite Z.land_ones by lia. apply Z.mod_pos_bound. reflexivity.
Qed.

Lemma process_blocks_range (fuel : nat) (h : Sha1.state) (bytes : list Z) :
  state_range h -> state_range (Sha1.process_blocks fuel h bytes).
Proof.
  revert h bytes. induction fuel as [|fuel IH]; intros h bytes Hh.
  - exact Hh.
  - destruct bytes as [|b bytes]; [exact Hh|].
    change (state_range
              (Sha1.process_blocks fuel
                 (Sha1.process_block h (firstn 64 (b :: bytes)))
                 (skipn 64 (b :: bytes)))).
    apply IH.
    unfold Sha1.process_block, state_range, Sha1.add32.
    cbn [Sha1.h0 Sha1.h1 Sha1.h2 Sha1.h3 Sha1.h4].
    repeat constructor; apply w32_range.
Qed.

Lemma get_digest_range (msg : list Z) :
  Forall (fun w => 0 <= w < 2 ^ 32)%Z (Sha1.get_digest msg)
  /\ List.length (Sha1.get_digest msg) = 5.
Proof.
  split; [|reflexivity]. unfold Sha1.get_digest. cbv zeta.
  apply process_blocks_range. unfold state_range, Sha1.init.
  cbn [Sha1.h0 Sha1.h1 Sha1.h2 Sha1.h3 Sha1.h4].
  repeat constructor; lia.
Qed.

(** The formatted digest determines the digest. *)
Lemma sha1_hex_inj (s t : shared_buffer) :
  sha1_hex s = sha1_hex t ->
  Sha1.get_digest (bytes_of s) = Sha1.get_digest (bytes_of t).
Proof.
  unfold sha1_hex. intros H.
  apply string_app_inj in H; [|reflexivity]. destruct H as [_ H].
  destruct (get_digest_range (bytes_of s)) as [Hs Hls].
  destruct (get_digest_range (bytes_of t)) as [Ht Hlt].
  apply format_digest_inj; auto.
Qed.

Lemma sha1_hex_wire (s : shared_buffer) : wire_hash (sha1_hex s).
Proof.
  exists (format_digest (Sha1.get_digest (bytes_of s))).
  split; [reflexivity|]. split.
  - pose proof (proj2 (get_digest_range (bytes_of s))) as Hl.
    rewrite format_digest_length, Hl. reflexivity.
  - apply format_digest_lower.
Qed.

(** ** What a session submits *)

Lemma async_read_until_ready (incoming : list string) (buf : string) i :
  find LF buf = Some i ->
  async_read_until incoming buf = (ec_success, S i, buf, incoming).
Proof. intros H. destruct incoming; simpl; now rewrite H. Qed.

Lemma update_stores (m : map_type) (key val : shared_buffer) :
  map_ok m ->
  map_find key (fst (update m key val)) = Some (key, sha1_hex val).
Proof.
  intros Hok. unfold update.
  pose proof (hash_calculated_spec m key (sha1_hex val) Hok) as Hs.
  destruct (hash_calculated m key (sha1_hex val)) as [m' r]. simpl.
  destruct Hs as [(_ & Hf & _) | (_ & -> & Hf)]; exact Hf.
Qed.

(** C1, as the code has it: for a line [key SP value LF], the read
    completes on the line, [on_readed] submits [key] with the bytes after
    the first space up to and including the newline, and once the update is
    applied the hash stored for [key] is the SHA-1 digest of these bytes,
    [0x] and forty lowercase hexadecimal digits.  For [foo hello LF] on an
    empty server that is the digest of [hello LF]. *)
Theorem stored_hash_is_digest_of_rest_of_line
    (key value rest : string) (incoming : list string) (m : map_type) :
  contains SP key = false ->
  contains LF key = false ->
  contains LF value = false ->
  map_ok m ->
  let buf := (key ++ String SP (value ++ String LF rest))%string in
  let rd := S (String.length key + S (String.length value)) in
  let val := (value ++ String LF "")%string in
  async_read_until incoming buf = (ec_success, rd, buf, incoming)
  /\ on_readed buf ec_success rd = rd_update key val rest
  /\ map_find key (fst (update m key val)) = Some (key, sha1_hex val)
  /\ wire_hash (sha1_hex val)
  /\ apply_updates [] (read_loop 1 [("foo hello" ++ String LF "")%string] "")
     = ([("foo", "0xf572d396fae9206628714fb2ce00f72e94f2258f")],
        [line "foo" "0xf572d396fae9206628714fb2ce00f72e94f2258f"]).
Proof.
  intros Hsp Hlf Hv Hok buf rd val.
  destruct (on_readed_line key value rest Hsp Hlf Hv) as [Hfind Hrd].
  split; [now apply async_read_until_ready|].
  split; [exact Hrd|].
  split; [now apply update_stores|].
  split; [apply sha1_hex_wire|].
  vm_compute. reflexivity.
Qed.

Lemma stored_hash_is_digest_of_rest_of_line_witness :
  contains SP "foo" = false
  /\ contains LF "foo" = false
  /\ contains LF "hello" = false
  /\ map_ok []
  /\ on_readed ("foo" ++ String SP ("hello" ++ String LF "k v"))%string
       ec_success 10
     = rd_update "foo" ("hello" ++ String LF "")%string "k v".
Proof.
  repeat (split; [reflexivity || constructor|]).
  exact (proj1 (proj2 (stored_hash_is_digest_of_rest_of_line
                         "foo" "hello" "k v" [] []
                         eq_refl eq_refl eq_refl map_ok_nil))).
Defined.

(** The claim C1 as it is worded fails on the line [foo hello LF]: the hash
    stored and sent is not the digest of [hello], the bytes between the
    space and the newline. *)
Lemma hash_of_foo_hello_is_not_digest_of_hello :
  sha1_hex "hello" = "0xaaf4c61ddcc5e8a2dabede0f3b482cd9aea9434d"
  /\ map_find "foo"
       (fst (apply_updates []
               (read_loop 1 [("foo hello" ++ String LF "")%string] "")))
     <> Some ("foo", sha1_hex "hello")
  /\ snd (apply_updates []
            (read_loop 1 [("foo hello" ++ String LF "")%string] ""))
     <> [line "foo" "0xaaf4c61ddcc5e8a2dabede0f3b482cd9aea9434d"].
Proof.
  split; [vm_compute; reflexivity|].
  split; vm_compute; intros H; discriminate H.
Qed.

Lemma read_key_clean
    (incoming incoming' : list string) (buf0 buf buf' : string)
    (ec : error_code) (rd : nat) (key val : shared_buffer) :
  async_read_until incoming buf0 = (ec, rd, buf, incoming') ->
  on_readed buf ec rd = rd_update key val buf' ->
  contains SP key = false /\ contains LF key = false.
Proof.
  revert buf0. induction incoming as [|piece incoming IH]; intros buf0;
    simpl; destruct (find LF buf0) as [i|] eqn:Hf.
  - intros [= <- <- <- <-]. unfold on_readed.
    destruct (find SP (take (S i) buf0)) as [pos|] eqn:Hp; [|discriminate].
    intros [= <- _ _]. now apply key_before_space.
  - intros [= <- <- <- <-]. discriminate.
  - intros [= <- <- <- <-]. unfold on_readed.
    destruct (find SP (take (S i) buf0)) as [pos|] eqn:Hp; [|discriminate].
    intros [= <- _ _]. now apply key_before_space.
  - apply IH.
Qed.

(** The claim C8 as it is worded fails on the line [SP x LF]: it is
    accepted, and the key submitted and inserted is empty. *)
Lemma empty_key_is_accepted :
  read_loop 1 [String SP ("x" ++ String LF "")%string] ""
  = [("", ("x" ++ String LF "")%string)]
  /\ keys (fst (apply_updates []
             (read_loop 1 [String SP ("x" ++ String LF "")%string] "")))
     = [""]
  /\ String.length "" = 0.
Proof. repeat split; vm_compute; reflexivity. Qed.

(** Every key that one client gets into the map of a fresh server holds no
    space and no newline. *)
Lemma read_loop_keys (fuel : nat) :
  forall incoming buf,
  Forall (fun kv => contains SP (fst kv) = false
                    /\ contains LF (fst kv) = false)
         (read_loop fuel incoming buf).
Proof.
  induction fuel as [|fuel IH]; intros incoming buf; simpl; [constructor|].
  destruct (async_read_until incoming buf) as [[[ec rd] buf1] incoming1]
    eqn:Hr.
  destruct (on_readed buf1 ec rd) as [|buf2|key val buf2] eqn:Ho.
  - constructor.
  - apply IH.
  - constructor; [|apply IH]. simpl.
    eapply read_key_clean; eauto.
Qed.

(** ** A line without a space *)

Lemma wrong_string_stays (buf : string) (i : nat) :
  find LF buf = Some i ->
  find SP (take (S i) buf) = None ->
  forall fuel incoming, read_loop fuel incoming buf = [].
Proof.
  intros Hlf Hsp. induction fuel as [|fuel IH]; intros incoming;
    [reflexivity|].
  cbn [read_loop]. rewrite (async_read_until_ready incoming buf i Hlf).
  unfold on_readed. rewrite Hsp. apply IH.
Qed.

(** C7, what the code does: a line without a space is logged and nothing
    is submitted for it, but [on_readed] starts the next read with the line
    still in the buffer; that read completes at once on the same line, and
    so does every later one: the session submits nothing any more,
    whatever follows the line and whatever the peer sends later. *)
Theorem line_without_space_is_never_consumed (bad rest : string) :
  contains SP bad = false ->
  contains LF bad = false ->
  on_readed (bad ++ String LF rest)%string ec_success
    (S (String.length bad))
  = rd_wrong_string (bad ++ String LF rest)%string
  /\ forall fuel incoming,
       read_loop fuel incoming (bad ++ String LF rest)%string = [].
Proof.
  intros Hsp Hlf.
  assert (Hfind : find LF (bad ++ String LF rest) = Some (String.length bad)).
  { rewrite (find_app_absent _ _ _ Hlf), find_head. now rewrite Nat.add_0_r. }
  assert (Htake : take (S (String.length bad)) (bad ++ String LF rest)
                  = (bad ++ String LF "")%string).
  { replace (bad ++ String LF rest)%string
      with ((bad ++ String LF "") ++ rest)%string
      by (now rewrite string_app_assoc).
    replace (S (String.length bad))
      with (String.length (bad ++ String LF "")%string)
      by (rewrite string_length_app; simpl; lia).
    apply take_app. }
  assert (Hnone : find SP (take (S (String.length bad))
                             (bad ++ String LF rest)) = None).
  { rewrite Htake, (find_app_absent _ _ _ Hsp). reflexivity. }
  split.
  - unfold on_readed. now rewrite Hnone.
  - now apply (wrong_string_stays _ _ Hfind Hnone).
Qed.

Lemma line_without_space_is_never_consumed_witness :
  contains SP "no_space_here" = false
  /\ contains LF "no_space_here" = false
  /\ read_loop 1 [("ok v" ++ String LF "")%string] ""
     = [("ok", ("v" ++ String LF "")%string)]
  /\ forall fuel,
       read_loop (S fuel)
         [("no_space_here" ++ String LF ("ok v" ++ String LF ""))%string] ""
       = [].
Proof.
  split; [reflexivity|]. split; [reflexivity|]. split; [reflexivity|].
  intros fuel. cbn [read_loop async_read_until find String.append].
  change (on_readed
            ("no_space_here" ++ String LF ("ok v" ++ String LF ""))%string
            ec_success 14)
    with (rd_wrong_string
            ("no_space_here" ++ String LF ("ok v" ++ String LF ""))%string).
  cbv iota.
  exact (proj2 (line_without_space_is_never_consumed
                  "no_space_here" ("ok v" ++ String LF "")%string
                  eq_refl eq_refl) fuel []).
Defined.

(** ** Broadcasts of repeated updates *)

Lemma update_same (m : map_type) (K V : shared_buffer) :
  map_find K m = Some (K, sha1_hex V) ->
  update m K V = (m, (false, None, None)).
Proof.
  intros Hf. unfold update, hash_calculated. rewrite Hf.
  now rewrite String.eqb_refl.
Qed.

Lemma update_new (m : map_type) (K V : shared_buffer) :
  map_ok m ->
  map_find K m <> Some (K, sha1_hex V) ->
  snd (update m K V) = (true, Some K, Some (sha1_hex V))
  /\ map_find K (fst (update m K V)) = Some (K, sha1_hex V)
  /\ map_ok (fst (update m K V)).
Proof.
  intros Hok Hne. unfold update.
  pose proof (hash_calculated_ok m K (sha1_hex V) Hok) as Hok'.
  pose proof (hash_calculated_spec m K (sha1_hex V) Hok) as Hs.
  destruct (hash_calculated m K (sha1_hex V)) as [m' r]. simpl in *.
  destruct Hs as [(Hr & Hf & _) | (_ & _ & Hf)]; [auto|contradiction].
Qed.

Lemma apply_updates_same (m : map_type) (K V : shared_buffer) (n : nat) :
  map_find K m = Some (K, sha1_hex V) ->
  apply_updates m (repeat (K, V) n) = (m, []).
Proof.
  intros Hf. induction n as [|n IH]; [reflexivity|].
  cbn [repeat apply_updates]. now rewrite (update_same m K V Hf), IH.
Qed.

(** C4: [N >= 1] submissions in sequence of the same [update(K, V)], the
    first of which is not itself a repetition (when it is applied the map
    does not hold the hash of [V] for [K]), are broadcast exactly once
    over the [N] of them; [update(K, V1)] then [update(K, V2)] with
    different SHA-1 digests, the first again not a repetition, are
    broadcast exactly twice. *)
Theorem repeated_update_broadcasts
    (m : map_type) (K V V1 V2 : shared_buffer) (N : nat) :
  map_ok m ->
  (1 <= N ->
   map_find K m <> Some (K, sha1_hex V) ->
   snd (apply_updates m (repeat (K, V) N)) = [line K (sha1_hex V)])
  /\ (Sha1.get_digest (bytes_of V1) <> Sha1.get_digest (bytes_of V2) ->
      map_find K m <> Some (K, sha1_hex V1) ->
      snd (apply_updates m [(K, V1); (K, V2)])
      = [line K (sha1_hex V1); line K (sha1_hex V2)]).
Proof.
  intros Hok. split.
  - intros HN Hne. destruct N as [|n]; [lia|].
    cbn [repeat apply_updates].
    destruct (update_new m K V Hok Hne) as (Hr & Hf & _).
    destruct (update m K V) as [m1 r]. simpl in Hr, Hf. subst r.
    rewrite (apply_updates_same m1 K V n Hf). reflexivity.
  - intros Hd Hne. cbn [apply_updates].
    destruct (update_new m K V1 Hok Hne) as (Hr & Hf & Hok1).
    destruct (update m K V1) as [m1 r]. simpl in Hr, Hf, Hok1. subst r.
    assert (Hne2 : map_find K m1 <> Some (K, sha1_hex V2)).
    { rewrite Hf. intros H. apply Hd, sha1_hex_inj. congruence. }
    destruct (update_new m1 K V2 Hok1 Hne2) as (Hr2 & _ & _).
    destruct (update m1 K V2) as [m2 r2]. simpl in Hr2. subst r2.
    reflexivity.
Qed.

Lemma repeated_update_broadcasts_witness :
  map_ok [("k", sha1_hex "v0")]
  /\ 1 <= 3
  /\ map_find "k" [("k", sha1_hex "v0")] <> Some ("k", sha1_hex "v1")
  /\ snd (apply_updates [("k", sha1_hex "v0")] (repeat ("k", "v1") 3))
     = [line "k" (sha1_hex "v1")].
Proof.
  assert (Hok : map_ok [("k", sha1_hex "v0")]) by (repeat constructor).
  assert (Hne : map_find "k" [("k", sha1_hex "v0")]
                <> Some ("k", sha1_hex "v1"))
    by (vm_compute; intros H; discriminate H).
  split; [exact Hok|]. split; [lia|]. split; [exact Hne|].
  apply (proj1 (repeated_update_broadcasts
                  [("k", sha1_hex "v0")] "k" "v1" "" "" 3 Hok));
    [lia | exact Hne].
Defined.

(** ** The hasher delivers in the order of submission *)

Section HasherProofs.

Context {CB : Type}.

Implicit Types (q : queue_type CB) (h : hasher CB) (item : queue_item CB).

Lemma strand_owed_app (a b : list (hasher_task CB)) :
  strand_owed (a ++ b) = strand_owed a ++ strand_owed b.
Proof.
  induction a as [|[str cb|it hash] a IH]; simpl; [reflexivity| |exact IH].
  now rewrite IH.
Qed.

Lemma strand_nodes_app (a b : list (hasher_task CB)) :
  strand_nodes (a ++ b) = strand_nodes a ++ strand_nodes b.
Proof.
  induction a as [|[str cb|it hash] a IH]; simpl; [reflexivity|exact IH|].
  now rewrite IH.
Qed.

Lemma find_node_app q1 q2 it :
  find_node it (q1 ++ q2)
  = match find_node it q1 with
    | Some item => Some item
    | None => find_node it q2
    end.
Proof.
  induction q1 as [|item q1 IH]; simpl; [reflexivity|].
  now destruct (Nat.eqb (it_node item) it).
Qed.

Lemma find_node_In q it item :
  find_node it q = Some item -> In item q /\ it_node item = it.
Proof.
  induction q as [|x q IH]; simpl; [discriminate|].
  destruct (Nat.eqb (it_node x) it) eqn:E.
  - intros [= ->]. apply Nat.eqb_eq in E. auto.
  - intros H. destruct (IH H). auto.
Qed.

Lemma find_node_None q it :
  ~ In it (nodes q) -> find_node it q = None.
Proof.
  induction q as [|x q IH]; simpl; [reflexivity|].
  intros H. destruct (Nat.eqb (it_node x) it) eqn:E.
  - apply Nat.eqb_eq in E. tauto.
  - apply IH. tauto.
Qed.

(** In a queue without repeated nodes an item is found by its node. *)
Lemma find_node_unique q item :
  NoDup (nodes q) -> In item q -> find_node (it_node item) q = Some item.
Proof.
  induction q as [|x q IH]; simpl; [easy|].
  intros Hnd [->|Hin].
  - now rewrite Nat.eqb_refl.
  - inversion Hnd as [|? ? Hx Hq]; subst.
    destruct (Nat.eqb (it_node x) (it_node item)) eqn:E; [|now apply IH].
    apply Nat.eqb_eq in E. exfalso. apply Hx. rewrite E.
    unfold nodes. now apply in_map.
Qed.

Lemma nodes_set_hash q it hash : nodes (set_hash it hash q) = nodes q.
Proof.
  induction q as [|x q IH]; simpl; [reflexivity|].
  destruct (Nat.eqb (it_node x) it); simpl; [reflexivity|].
  now rewrite IH.
Qed.

Lemma owed_set_hash q it hash :
  map item_owed (set_hash it hash q) = map item_owed q.
Proof.
  induction q as [|x q IH]; simpl; [reflexivity|].
  destruct (Nat.eqb (it_node x) it); simpl; [reflexivity|].
  now rewrite IH.
Qed.

Lemma find_node_set_hash_other q it hash it' :
  it' <> it -> find_node it' (set_hash it hash q) = find_node it' q.
Proof.
  intros Hne. induction q as [|x q IH]; simpl; [reflexivity|].
  destruct (Nat.eqb (it_node x) it) eqn:E; simpl.
  - apply Nat.eqb_eq in E.
    destruct (Nat.eqb (it_node x) it') eqn:E'; [|reflexivity].
    apply Nat.eqb_eq in E'. congruence.
  - now rewrite IH.
Qed.

Lemma find_node_set_hash_same q it hash item :
  find_node it q = Some item ->
  find_node it (set_hash it hash q)
  = Some (mk_queue_item (it_node item) (it_str item) (Some hash)
            (it_cb item)).
Proof.
  induction q as [|x q IH]; simpl; [discriminate|].
  destruct (Nat.eqb (it_node x) it) eqn:E; simpl.
  - intros [= ->]. now rewrite E.
  - rewrite E. exact IH.
Qed.

Lemma In_set_hash q it hash x :
  In x (set_hash it hash q) ->
  In x q
  \/ exists item, In item q /\ it_node item = it
       /\ x = mk_queue_item (it_node item) (it_str item) (Some hash)
                (it_cb item).
Proof.
  induction q as [|y q IH]; simpl; [easy|].
  destruct (Nat.eqb (it_node y) it) eqn:E; simpl.
  - apply Nat.eqb_eq in E. intros [<-|Hin]; [|auto].
    right. exists y. auto.
  - intros [<-|Hin]; [auto|].
    destruct (IH Hin) as [H|[item (H1 & H2 & H3)]]; [auto|].
    right. exists item. auto.
Qed.

Lemma sha1_hex_not_empty (s : shared_buffer) :
  String.eqb (sha1_hex s) "" = false.
Proof. reflexivity. Qed.

(** The loop of [on_hashed] takes a run of hashed nodes off the front of
    the queue and calls what they are owed. *)
Lemma drain_spec q :
  Forall hash_ok q ->
  exists done,
    q = done ++ snd (drain q)
    /\ fst (drain q) = map item_owed done
    /\ Forall (fun item => it_hash item <> None) done
    /\ match snd (drain q) with
       | item :: _ => it_hash item = None
       | [] => True
       end.
Proof.
  induction q as [|x q IH]; intros Hq.
  - exists []. simpl. auto.
  - inversion Hq as [|? ? Hx Hq']; subst. simpl.
    destruct (it_hash x) as [hash|] eqn:Hh.
    + rewrite (Hx hash Hh), sha1_hex_not_empty. simpl.
      destruct (IH Hq') as (done & Hd & Hc & Hn & Hhead).
      destruct (drain q) as [calls q']. simpl in *.
      exists (x :: done). repeat split.
      * simpl. now rewrite <- Hd.
      * simpl. unfold item_owed at 1. now rewrite Hc.
      * constructor; [congruence|exact Hn].
      * exact Hhead.
    + exists []. simpl. auto.
Qed.

End HasherProofs.

Section HasherSteps.

Context {CB : Type}.

Implicit Types (q : queue_type CB) (h : hasher CB) (item : queue_item CB).

Lemma hash_ok_set_hash q it hash item0 :
  NoDup (nodes q) ->
  Forall hash_ok q ->
  find_node it q = Some item0 ->
  hash = sha1_hex (it_str item0) ->
  Forall hash_ok (set_hash it hash q).
Proof.
  intros Hnd Hq Hf Hh. rewrite Forall_forall in *. intros x Hx.
  destruct (In_set_hash _ _ _ _ Hx) as [Hin|[item (Hin & Hn & ->)]].
  - now apply Hq.
  - pose proof (find_node_unique q item Hnd Hin) as Hu.
    rewrite Hn, Hf in Hu. injection Hu as <-.
    intros hs. simpl. now intros [= <-].
Qed.

Lemma head_set_hash_other q it hash :
  match q with
  | first :: _ => Nat.eqb (it_node first) it = false
  | [] => True
  end ->
  match set_hash it hash q with
  | first :: _ => In first q /\ nth_error q 0 = Some first
  | [] => q = []
  end.
Proof.
  destruct q as [|x q]; simpl; [reflexivity|].
  intros ->. simpl. auto.
Qed.

(** [on_hashed] for a node of the queue that waits for its hash. *)
Lemma on_hashed_spec q it hash item0 :
  NoDup (nodes q) ->
  Forall hash_ok q ->
  match q with item :: _ => it_hash item = None | [] => True end ->
  find_node it q = Some item0 ->
  hash = sha1_hex (it_str item0) ->
  exists done,
    set_hash it hash q = done ++ snd (on_hashed q it hash)
    /\ fst (on_hashed q it hash) = map item_owed done
    /\ Forall (fun item => it_hash item <> None) done
    /\ Forall hash_ok (snd (on_hashed q it hash))
    /\ match snd (on_hashed q it hash) with
       | item :: _ => it_hash item = None
       | [] => True
       end.
Proof.
  intros Hnd Hq Hhead Hf Hh.
  pose proof (hash_ok_set_hash q it hash item0 Hnd Hq Hf Hh) as Hq1.
  unfold on_hashed.
  destruct (set_hash it hash q) as [|first q1] eqn:Hs.
  - exists []. simpl. auto.
  - destruct (Nat.eqb (it_node first) it) eqn:E.
    + destruct (drain_spec (first :: q1) Hq1) as (done & Hd & Hc & Hn & Hhd).
      exists done. repeat split; auto.
      rewrite Hd in Hq1. now apply Forall_app in Hq1.
    + exists []. simpl. repeat split; auto.
      destruct q as [|x q]; [discriminate|]. simpl in Hs.
      destruct (Nat.eqb (it_node x) it) eqn:E'.
      * injection Hs as <- <-. simpl in E. congruence.
      * injection Hs as <- <-. exact Hhead.
Qed.

Lemma pending_hash h str cb : pending (hash h str cb) = pending h.
Proof.
  unfold pending. simpl. rewrite strand_nodes_app. simpl.
  now rewrite app_nil_r.
Qed.

Lemma hasher_inv_init : hasher_inv (@hasher_init CB).
Proof. constructor; simpl; auto; constructor. Qed.

Lemma hasher_inv_hash h str cb :
  hasher_inv h -> hasher_inv (hash h str cb).
Proof.
  intros [Ho Hnd Hf Hh Hs Hpn Hp Hw Hhd].
  constructor; rewrite ?pending_hash; simpl; auto.
  - rewrite map_app, strand_owed_app, Ho. simpl.
    now rewrite <- !app_assoc.
  - apply Forall_app. split; [exact Hs|]. constructor; simpl; auto.
Qed.

Lemma unhashed_node q it : unhashed q it -> In it (nodes q).
Proof.
  intros [item [Hf _]]. apply find_node_In in Hf. destruct Hf as [Hin <-].
  unfold nodes. now apply in_map.
Qed.

Lemma unhashed_app q it x : unhashed q it -> unhashed (q ++ [x]) it.
Proof.
  intros [item [Hf Hn]]. exists item. split; [|exact Hn].
  now rewrite find_node_app, Hf.
Qed.

Lemma task_ok_app q x t : task_ok q t -> task_ok (q ++ [x]) t.
Proof.
  destruct t as [str cb|it hash]; simpl; [auto|].
  intros [item [Hf Hh]]. exists item. split; [|exact Hh].
  now rewrite find_node_app, Hf.
Qed.

(** The strand runs [hash_impl]. *)
Lemma hasher_inv_hash_impl h str cb strand :
  hasher_inv h ->
  h_calling h = [] ->
  h_strand h = t_hash_impl str cb :: strand ->
  hasher_inv (mk_hasher (hash_impl (m_queue h) (h_nodes h) str cb) []
                (S (h_nodes h)) strand (h_pool h ++ [h_nodes h])
                (h_posted h) (h_called h)).
Proof.
  intros [Ho Hnd Hf Hh Hs Hpn Hp Hw Hhd] Hcalling Hst.
  unfold pending in *. rewrite Hst, Hcalling in *. simpl in *.
  assert (Hnew : ~ In (h_nodes h) (nodes (m_queue h))).
  { intros Hin. rewrite Forall_forall in Hf. specialize (Hf _ Hin). lia. }
  assert (Hnp : ~ In (h_nodes h) (strand_nodes strand ++ h_pool h)).
  { intros Hin. rewrite Forall_forall in Hp.
    apply Hnew, (unhashed_node _ _ (Hp _ Hin)). }
  unfold hash_impl. constructor; unfold pending; simpl.
  - rewrite Ho, map_app. simpl. now rewrite <- !app_assoc.
  - unfold nodes. rewrite map_app. simpl.
    apply NoDup_app; [exact Hnd | repeat constructor; easy |].
    intros n Hn [<-|[]]. now apply Hnew.
  - unfold nodes. rewrite map_app. simpl. apply Forall_app. split.
    + eapply Forall_impl; [|exact Hf]. simpl. lia.
    + repeat constructor.
  - apply Forall_app. split; [exact Hh|]. constructor; [|constructor].
    intros hs. simpl. discriminate.
  - inversion Hs as [|? ? _ Hs']; subst.
    eapply Forall_impl; [|exact Hs']. intros t. apply task_ok_app.
  - rewrite app_assoc. apply NoDup_app; [exact Hpn | repeat constructor; easy|].
    intros n Hn [<-|[]]. now apply Hnp.
  - rewrite app_assoc. apply Forall_app. split.
    + eapply Forall_impl; [|exact Hp]. intros a. apply unhashed_app.
    + constructor; [|constructor].
      exists (mk_queue_item (h_nodes h) str None cb).
      split; [|reflexivity].
      rewrite find_node_app, (find_node_None _ _ Hnew). simpl.
      now rewrite Nat.eqb_refl.
  - apply Forall_app. split.
    + eapply Forall_impl; [|exact Hw]. simpl. intros item Hi Hn.
      rewrite app_assoc. apply in_or_app. left. now apply Hi.
    + constructor; [|constructor]. simpl. intros _.
      rewrite app_assoc. apply in_or_app. right. now left.
  - destruct (m_queue h); simpl; auto.
Qed.

Lemma strand_nodes_In (strand : list (hasher_task CB)) it hash :
  In (t_on_hashed it hash) strand -> In it (strand_nodes strand).
Proof.
  induction strand as [|[str cb|it' hash'] strand IH]; simpl; [easy| |].
  - intros [H|H]; [discriminate|auto].
  - intros [[= -> ->]|H]; auto.
Qed.

(** The strand runs [on_hashed]. *)
Lemma hasher_inv_on_hashed h it hash strand :
  hasher_inv h ->
  h_calling h = [] ->
  h_strand h = t_on_hashed it hash :: strand ->
  hasher_inv (mk_hasher (snd (on_hashed (m_queue h) it hash))
                (fst (on_hashed (m_queue h) it hash)) (h_nodes h)
                strand (h_pool h) (h_posted h) (h_called h)).
Proof.
  intros [Ho Hnd Hf Hh Hs Hpn Hp Hw Hhd] Hcalling Hst.
  unfold pending in *. rewrite Hst, Hcalling in *. simpl in *.
  inversion Hs as [|? ? Hhead Hs']; subst.
  inversion Hpn as [|? ? Hnotin Hpn']; subst.
  inversion Hp as [|? ? Hun Hp']; subst.
  simpl in Hhead. destruct Hhead as [item0 [Hfind Hhash]].
  destruct (on_hashed_spec _ _ _ _ Hnd Hh Hhd Hfind Hhash)
    as (done & Hd & Hc & Hn & Hq' & Hhd').
  set (q' := snd (on_hashed (m_queue h) it hash)) in *.
  assert (Hnodes : nodes (m_queue h) = nodes done ++ nodes q').
  { rewrite <- (nodes_set_hash _ it hash), Hd. unfold nodes. apply map_app. }
  assert (Hkeep : forall it', it' <> it -> unhashed (m_queue h) it' ->
            exists item, find_node it' q' = Some item
                         /\ find_node it' (m_queue h) = Some item
                         /\ it_hash item = None).
  { intros it' Hne [item [Hf' Hn']]. exists item. split; [|auto].
    pose proof Hf' as Hf''.
    rewrite <- (find_node_set_hash_other _ it hash) in Hf'' by auto.
    rewrite Hd, find_node_app in Hf''.
    destruct (find_node it' done) as [x|] eqn:Hx; [|exact Hf''].
    injection Hf'' as ->. apply find_node_In in Hx. destruct Hx as [Hin _].
    rewrite Forall_forall in Hn. now destruct (Hn _ Hin). }
  assert (Hrest : forall it', In it' (strand_nodes strand ++ h_pool h) ->
            it' <> it /\ unhashed (m_queue h) it').
  { intros it' Hin. split; [intros ->; contradiction|].
    rewrite Forall_forall in Hp'. now apply Hp'. }
  constructor; unfold pending; simpl.
  - rewrite Ho, Hc. rewrite <- (owed_set_hash _ it hash), Hd, map_app.
    now rewrite <- !app_assoc.
  - rewrite Hnodes in Hnd. eapply NoDup_app_remove_l; eauto.
  - rewrite Hnodes in Hf. apply Forall_app in Hf. tauto.
  - exact Hq'.
  - rewrite Forall_forall. intros [str cb|it' hash'] Ht; simpl; [auto|].
    assert (Hin : In it' (strand_nodes strand ++ h_pool h)).
    { apply in_or_app. left. eapply strand_nodes_In; eauto. }
    destruct (Hrest _ Hin) as [Hne Hun'].
    destruct (Hkeep _ Hne Hun') as (item & H1 & H2 & _).
    rewrite Forall_forall in Hs'. destruct (Hs' _ Ht) as (item1 & H3 & H4).
    exists item. split; [exact H1|]. congruence.
  - exact Hpn'.
  - rewrite Forall_forall. intros it' Hin.
    destruct (Hrest _ Hin) as [Hne Hun'].
    destruct (Hkeep _ Hne Hun') as (item & H1 & _ & H3).
    exists item. auto.
  - rewrite Forall_forall. intros item Hin Hnone.
    assert (Hin1 : In item (set_hash it hash (m_queue h))).
    { rewrite Hd. apply in_or_app. now right. }
    assert (Hnd1 : NoDup (nodes (set_hash it hash (m_queue h))))
      by now rewrite nodes_set_hash.
    destruct (In_set_hash _ _ _ _ Hin1) as [Hq|[x (_ & _ & ->)]];
      [|discriminate].
    rewrite Forall_forall in Hw. destruct (Hw _ Hq Hnone) as [Heq|Hpend];
      [|exact Hpend].
    exfalso.
    pose proof (find_node_unique _ _ Hnd1 Hin1) as Hu.
    rewrite <- Heq, (find_node_set_hash_same _ _ hash _ Hfind) in Hu.
    injection Hu as Hu. rewrite <- Hu in Hnone. discriminate.
  - exact Hhd'.
Qed.

Lemma nth_error_split_at {A} (l : list A) (i : nat) (x : A) :
  nth_error l i = Some x -> l = firstn i l ++ x :: skipn (S i) l.
Proof.
  revert l. induction i as [|i IH]; intros [|y l]; simpl; try discriminate.
  - now intros [= ->].
  - intros H. f_equal. exact (IH l H).
Qed.

(** The pool runs a job. *)
Lemma hasher_inv_pool h i h' :
  hasher_inv h -> hasher_pool_step h i = Some h' -> hasher_inv h'.
Proof.
  intros [Ho Hnd Hf Hh Hs Hpn Hp Hw Hhd] Hstep.
  unfold hasher_pool_step, pool_job in Hstep.
  destruct (nth_error (h_pool h) i) as [it|] eqn:Hnth; [|discriminate].
  destruct (find_node it (m_queue h)) as [item|] eqn:Hfind; [|discriminate].
  injection Hstep as <-.
  pose proof (nth_error_split_at _ _ _ Hnth) as Hsplit.
  set (p1 := firstn i (h_pool h)) in *.
  set (p2 := skipn (S i) (h_pool h)) in *.
  assert (Hperm : Permutation (pending h)
            (strand_nodes (h_strand h ++ [t_on_hashed it (sha1_hex (it_str item))])
             ++ p1 ++ p2)).
  { unfold pending. rewrite strand_nodes_app, Hsplit. simpl.
    rewrite <- !app_assoc. apply Permutation_app_head. simpl.
    symmetry. apply Permutation_middle. }
  constructor; unfold pending in *; simpl.
  - rewrite strand_owed_app. simpl. now rewrite app_nil_r.
  - exact Hnd.
  - exact Hf.
  - exact Hh.
  - apply Forall_app. split; [exact Hs|]. constructor; [|constructor].
    simpl. exists item. auto.
  - eapply Permutation_NoDup; eauto.
  - eapply Permutation_Forall; eauto.
  - eapply Forall_impl; [|exact Hw]. simpl. intros x Hx Hn.
    eapply Permutation_in; eauto.
  - exact Hhd.
Qed.

(** The loop of [on_hashed] calls its next callback. *)
Lemma hasher_inv_call h call calling :
  hasher_inv h ->
  h_calling h = call :: calling ->
  hasher_inv (mk_hasher (m_queue h) calling (h_nodes h) (h_strand h)
                (h_pool h) (h_posted h) (h_called h ++ [call])).
Proof.
  intros [Ho Hnd Hf Hh Hs Hpn Hp Hw Hhd] Hcalling.
  constructor; auto. simpl. rewrite Ho, Hcalling.
  now rewrite <- !app_assoc.
Qed.

Lemma hasher_inv_strand h h' calls :
  hasher_inv h -> hasher_strand_step h = Some (h', calls) -> hasher_inv h'.
Proof.
  intros Hinv. unfold hasher_strand_step.
  destruct (h_calling h) as [|call calling] eqn:Hc.
  - destruct (h_strand h) as [|[str cb|it hash] strand] eqn:Hst;
      [discriminate| |].
    + intros [= <- _]. now apply hasher_inv_hash_impl.
    + pose proof (hasher_inv_on_hashed h it hash strand Hinv Hc Hst) as H.
      destruct (on_hashed (m_queue h) it hash) as [calls' q'].
      intros [= <- _]. exact H.
  - intros [= <- _]. now apply hasher_inv_call.
Qed.

Lemma hasher_inv_step h e h' :
  hasher_inv h -> hasher_step h e = Some h' -> hasher_inv h'.
Proof.
  intros Hinv. destruct e as [str cb| |i]; simpl.
  - intros [= <-]. now apply hasher_inv_hash.
  - destruct (hasher_strand_step h) as [[h1 calls]|] eqn:Hs; [|discriminate].
    intros [= <-]. eapply hasher_inv_strand; eauto.
  - now apply hasher_inv_pool.
Qed.

Lemma hasher_inv_run es : forall h h',
  hasher_inv h -> hasher_run h es = Some h' -> hasher_inv h'.
Proof.
  induction es as [|e es IH]; simpl; intros h h' Hinv.
  - now intros [= <-].
  - destruct (hasher_step h e) as [h1|] eqn:Hs; [|discriminate].
    apply IH. eapply hasher_inv_step; eauto.
Qed.

(** Nothing is left to do: every job posted had its callback. *)
Lemma hasher_idle h :
  hasher_inv h -> h_calling h = [] -> h_strand h = [] -> h_pool h = [] ->
  h_called h = map owed (h_posted h).
Proof.
  intros [Ho Hnd Hf Hh Hs Hpn Hp Hw Hhd] Hcalling Hst Hpool.
  unfold pending in Hw. rewrite Hcalling, Hst, Hpool in *. simpl in *.
  destruct (m_queue h) as [|item q].
  - simpl in Ho. now rewrite app_nil_r in Ho.
  - inversion Hw as [|? ? Hi _]; subst. now destruct (Hi Hhd).
Qed.

End HasherSteps.

(** ** The server applies and broadcasts in the order of submission *)

Lemma update_nth_length {A} (n : nat) (f : A -> A) (l : list A) :
  List.length (update_nth n f l) = List.length l.
Proof.
  revert n. induction l as [|x l IH]; intros [|n]; simpl; auto.
Qed.

Lemma nth_update_nth {A} (l : list A) (k : nat) (f : A -> A) (x d : A) :
  nth_error l k = Some x ->
  forall s, nth s (update_nth k f l) d
            = if Nat.eqb s k then f x else nth s l d.
Proof.
  revert k. induction l as [|y l IH]; intros [|k]; simpl; try discriminate.
  - intros [= ->] [|s]; reflexivity.
  - intros H [|s]; simpl; [reflexivity|]. now apply IH.
Qed.

Lemma nth_error_update_nth {A} (l : list A) (k : nat) (f : A -> A) (s : nat) :
  nth_error (update_nth k f l) s
  = if Nat.eqb s k then option_map f (nth_error l s) else nth_error l s.
Proof.
  revert k s. induction l as [|y l IH]; intros k s.
  - destruct k, s; simpl; try reflexivity; now destruct (Nat.eqb _ _).
  - destruct k as [|k], s as [|s]; simpl; auto.
Qed.

Lemma nth_app_default {A} (l : list A) (d : A) (s : nat) :
  nth s (l ++ [d]) d = nth s l d.
Proof.
  revert s. induction l as [|y l IH]; intros [|s]; simpl; auto.
  now destruct s.
Qed.

Lemma calc_owed_app (a b : list state_task) :
  calc_owed (a ++ b) = calc_owed a ++ calc_owed b.
Proof.
  induction a as [|[] a IH]; simpl; auto. now rewrite IH.
Qed.

Lemma done_owed_app (a b : list state_task) :
  done_owed (a ++ b) = done_owed a ++ done_owed b.
Proof.
  induction a as [|[] a IH]; simpl; auto. now rewrite IH.
Qed.

Lemma written_seqs_app (a b : list (shared_buffer * send_cb)) :
  written_seqs (a ++ b) = written_seqs a ++ written_seqs b.
Proof.
  induction a as [|[msg []] a IH]; simpl; auto. now rewrite IH.
Qed.

Lemma exec_seqs_app (a b : list session_task) :
  exec_seqs (a ++ b) = exec_seqs a ++ exec_seqs b.
Proof.
  induction a as [|[it str|msg []] a IH]; simpl; auto. now rewrite IH.
Qed.

Lemma smgr_seqs_app (a b : list smgr_task) :
  smgr_seqs (a ++ b) = smgr_seqs a ++ smgr_seqs b.
Proof.
  induction a as [|[] a IH]; simpl; auto. now rewrite IH.
Qed.

Lemma smgr_adds_app (a b : list smgr_task) :
  smgr_adds (a ++ b) = smgr_adds a ++ smgr_adds b.
Proof.
  induction a as [|[] a IH]; simpl; auto. now rewrite IH.
Qed.

Lemma done_owed_callbacks (calls : list (hash_cb * shared_buffer)) :
  done_owed (map hash_callback calls) = map called_owed calls
  /\ calc_owed (map hash_callback calls) = [].
Proof.
  induction calls as [|[[key cb] hash] calls [IH1 IH2]]; simpl; auto.
  split; [now rewrite IH1 | exact IH2].
Qed.

Lemma posted_owed_owed (jobs : list (shared_buffer * hash_cb)) :
  map posted_owed jobs = map called_owed (map owed jobs).
Proof. rewrite map_map. reflexivity. Qed.

(** *** Ascending lists *)

Lemma ordered_nil n : ordered n [].
Proof. split; constructor. Qed.

Lemma ordered_mono n m l : ordered n l -> n <= m -> ordered m l.
Proof.
  intros [Hs Hf] Hle. split; [exact Hs|].
  eapply Forall_impl; [|exact Hf]. simpl. lia.
Qed.

Lemma sorted_snoc (l : list nat) (x : nat) :
  StronglySorted lt l -> Forall (fun y => y < x) l ->
  StronglySorted lt (l ++ [x]).
Proof.
  induction l as [|y l IH]; simpl; intros Hs Hf.
  - repeat constructor.
  - inversion Hs as [|? ? Hs' Hy]; inversion Hf as [|? ? Hyx Hf'];
      subst. constructor; [now apply IH|].
    apply Forall_app. split; [exact Hy|]. repeat constructor. exact Hyx.
Qed.

Lemma ordered_snoc n l : ordered n l -> ordered (S n) (l ++ [n]).
Proof.
  intros [Hs Hf]. split.
  - now apply sorted_snoc.
  - apply Forall_app. split.
    + eapply Forall_impl; [|exact Hf]. simpl. lia.
    + repeat constructor.
Qed.

Lemma sorted_remove (a b : list nat) (x : nat) :
  StronglySorted lt (a ++ x :: b) -> StronglySorted lt (a ++ b).
Proof.
  induction a as [|y a IH]; simpl; intros Hs.
  - now inversion Hs.
  - inversion Hs as [|? ? Hs' Hy]; subst. constructor; [now apply IH|].
    apply Forall_app in Hy. destruct Hy as [Ha Hb].
    apply Forall_app. split; [exact Ha|]. now inversion Hb.
Qed.

Lemma ordered_remove n a b x : ordered n (a ++ x :: b) -> ordered n (a ++ b).
Proof.
  intros [Hs Hf]. split; [eapply sorted_remove; eauto|].
  apply Forall_app in Hf. destruct Hf as [Ha Hb].
  apply Forall_app. split; [exact Ha|]. now inversion Hb.
Qed.

(** In a list numbered from zero the element after [a] has the number
    [length a]. *)
Lemma numbered_position {A} (g : A -> nat) (a b : list A) (x : A) (n : nat) :
  map g (a ++ x :: b) = seq 0 n -> g x = List.length a.
Proof.
  intros H.
  assert (Hn : nth (List.length a) (map g (a ++ x :: b)) 0 = g x).
  { rewrite map_app. rewrite app_nth2; rewrite length_map; [|lia].
    now rewrite Nat.sub_diag. }
  assert (Hlen : List.length a < n).
  { apply (f_equal (@List.length nat)) in H.
    rewrite length_map, length_app, length_seq in H. simpl in H. lia. }
  rewrite H, seq_nth in Hn by exact Hlen. simpl in Hn. congruence.
Qed.

(** *** Each step keeps the invariant *)

Lemma nth_update_nth_cases {A} (l : list A) (k : nat) (f : A -> A) (d : A) :
  forall s,
    nth s (update_nth k f l) d = nth s l d
    \/ nth s (update_nth k f l) d = f (nth s l d).
Proof.
  revert k. induction l as [|y l IH]; intros k s.
  - left. now destruct k.
  - destruct k as [|k], s as [|s]; simpl; auto.
Qed.

Lemma chain_update_nth (ss : list session) (k : session_id)
    (f : session -> session) (sess : session) (strand : list smgr_task)
    (n : nat) :
  nth_error ss k = Some sess ->
  chain (f sess) strand = chain sess strand ->
  (forall s, ordered n (chain (nth s ss new_session) strand)) ->
  forall s, ordered n (chain (nth s (update_nth k f ss) new_session) strand).
Proof.
  intros Hk Hf H s. rewrite (nth_update_nth _ _ _ _ _ Hk).
  destruct (Nat.eqb s k) eqn:E; [|apply H].
  rewrite Hf. specialize (H k).
  now rewrite (nth_error_nth _ _ _ Hk) in H.
Qed.

Lemma chain_update_nth_all (ss : list session) (k : session_id)
    (f : session -> session) (strand : list smgr_task) (n : nat) :
  (forall x, chain (f x) strand = chain x strand) ->
  (forall s, ordered n (chain (nth s ss new_session) strand)) ->
  forall s, ordered n (chain (nth s (update_nth k f ss) new_session) strand).
Proof.
  intros Hf H s.
  destruct (nth_update_nth_cases ss k f new_session s) as [-> | ->];
    [|rewrite Hf]; apply H.
Qed.

Lemma server_inv_init : server_inv server_init.
Proof.
  constructor; simpl; auto.
  - apply hasher_inv_init.
  - intros [|s]; apply ordered_nil.
  - split; constructor.
Qed.

(** A change of one session that leaves alone what is on its way to
    it. *)
Lemma server_inv_session st k f sess :
  server_inv st ->
  nth_error (sessions st) k = Some sess ->
  chain (f sess) (smgr_strand st) = chain sess (smgr_strand st) ->
  server_inv (set_sessions st (update_nth k f (sessions st))).
Proof.
  intros [Hh Hseq Hpost Hcall Hchain [Hnd Hlt]] Hk Hf.
  constructor; simpl; auto.
  - eapply chain_update_nth; eauto.
  - now rewrite update_nth_length.
Qed.

(** A handler posted to the state that is neither [calculate_hash] nor
    [hash_calculated]. *)
Lemma server_inv_post_state st t :
  server_inv st -> calc_owed [t] = [] -> done_owed [t] = [] ->
  server_inv (post_state st t).
Proof.
  intros [Hh Hseq Hpost Hcall Hchain [Hnd Hlt]] Hc Hd.
  constructor; simpl; auto.
  - now rewrite calc_owed_app, Hc, app_nil_r.
  - now rewrite done_owed_app, Hd, app_nil_r.
Qed.

Lemma server_inv_accept st : server_inv st -> server_inv (accept st).
Proof.
  intros [Hh Hseq Hpost Hcall Hchain [Hnd Hlt]].
  constructor; simpl; auto.
  - now rewrite calc_owed_app, app_nil_r.
  - now rewrite done_owed_app, app_nil_r.
  - intros s. rewrite nth_app_default. unfold chain.
    rewrite smgr_seqs_app. simpl. rewrite app_nil_r. apply Hchain.
  - rewrite smgr_adds_app, length_app. simpl. rewrite app_assoc. split.
    + apply NoDup_app; [exact Hnd | repeat constructor; easy|].
      intros s Hs [<-|[]]. rewrite Forall_forall in Hlt.
      specialize (Hlt _ Hs). lia.
    + apply Forall_app. split.
      * eapply Forall_impl; [|exact Hlt]. simpl. lia.
      * repeat constructor. lia.
Qed.

Lemma server_inv_receive st s bytes st' :
  server_inv st -> receive st s bytes = Some st' -> server_inv st'.
Proof.
  intros Hinv. unfold receive.
  destruct (nth_error (sessions st) s) as [sess|] eqn:Hs; [|discriminate].
  destruct (s_reading sess); [|discriminate]. intros [= <-].
  eapply server_inv_session; eauto.
Qed.

Lemma server_inv_readed st s sess ec rd :
  server_inv st -> nth_error (sessions st) s = Some sess ->
  server_inv (readed_step st s sess ec rd).
Proof.
  intros Hinv Hs. unfold readed_step.
  destruct (on_readed (s_buf sess) ec rd) as [|buf|key val buf].
  - eapply server_inv_session; eauto.
  - eapply server_inv_session; eauto.
  - destruct Hinv as [Hh Hseq Hpost Hcall Hchain [Hnd Hlt]].
    constructor; simpl; auto.
    + rewrite map_app, length_app, seq_app, Hseq. reflexivity.
    + rewrite map_app, calc_owed_app, Hpost. simpl.
      now rewrite <- app_assoc.
    + now rewrite done_owed_app, app_nil_r.
    + eapply chain_update_nth; eauto.
    + now rewrite update_nth_length.
Qed.

Lemma server_inv_read st s st' :
  server_inv st -> read st s = Some st' -> server_inv st'.
Proof.
  intros Hinv. unfold read.
  destruct (nth_error (sessions st) s) as [sess|] eqn:Hs; [|discriminate].
  destruct (s_reading sess); [|discriminate].
  destruct (find LF (s_buf sess)); [|discriminate]. intros [= <-].
  now apply server_inv_readed.
Qed.

Lemma server_inv_read_error st s ec st' :
  server_inv st -> read_error st s ec = Some st' -> server_inv st'.
Proof.
  intros Hinv. unfold read_error.
  destruct (nth_error (sessions st) s) as [sess|] eqn:Hs; [|discriminate].
  destruct ec; try discriminate;
    (destruct (s_reading sess); [|discriminate];
     destruct (find LF (s_buf sess)); [discriminate|]; intros [= <-];
     now apply server_inv_readed).
Qed.

Lemma server_inv_session_step st s st' :
  server_inv st -> session_step st s = Some st' -> server_inv st'.
Proof.
  intros Hinv. unfold session_step.
  destruct (nth_error (sessions st) s) as [sess|] eqn:Hs; [|discriminate].
  destruct (s_exec sess) as [|[it str|msg cb] exec] eqn:He; [discriminate| |];
    intros [= <-]; eapply server_inv_session; eauto;
    unfold chain; simpl; rewrite He.
  - rewrite exec_seqs_app. simpl. now rewrite app_nil_r.
  - rewrite written_seqs_app. destruct cb as [seq|it]; simpl.
    + now rewrite <- app_assoc.
    + now rewrite app_nil_r.
Qed.

Lemma server_inv_written st s i ok st' :
  server_inv st -> written st s i ok = Some st' -> server_inv st'.
Proof.
  intros Hinv. unfold written.
  destruct (nth_error (sessions st) s) as [sess|] eqn:Hs; [|discriminate].
  destruct (nth_error (s_writing sess) i) as [cb|]; [|discriminate].
  assert (H : server_inv
    (set_sessions st
       (update_nth s
          (fun x => mk_session (s_buf x) (s_reading x) (s_expired x)
                      (s_exec x)
                      (firstn i (s_writing x) ++ skipn (S i) (s_writing x))
                      (s_written x))
          (sessions st))))
    by (eapply server_inv_session; eauto).
  destruct ok, cb; intros [= <-]; auto.
  now apply server_inv_post_state.
Qed.

Lemma server_inv_expire st s st' :
  server_inv st -> expire st s = Some st' -> server_inv st'.
Proof.
  intros Hinv. unfold expire.
  destruct (nth_error (sessions st) s) as [sess|] eqn:Hs; [|discriminate].
  destruct (s_reading sess); [discriminate|]. intros [= <-].
  eapply server_inv_session; eauto.
Qed.

Lemma hasher_strand_step_history {CB} (h h' : hasher CB) calls :
  hasher_strand_step h = Some (h', calls) ->
  h_posted h' = h_posted h /\ h_called h' = h_called h ++ calls.
Proof.
  unfold hasher_strand_step.
  destruct (h_calling h) as [|call calling].
  - destruct (h_strand h) as [|[str cb|it hash] strand]; [discriminate| |].
    + intros [= <- <-]. simpl. now rewrite app_nil_r.
    + destruct (on_hashed (m_queue h) it hash) as [calls' q].
      intros [= <- <-]. simpl. now rewrite app_nil_r.
  - intros [= <- <-]. auto.
Qed.

Lemma hasher_pool_step_history {CB} (h h' : hasher CB) i :
  hasher_pool_step h i = Some h' ->
  h_posted h' = h_posted h /\ h_called h' = h_called h.
Proof.
  unfold hasher_pool_step.
  destruct (nth_error (h_pool h) i) as [it|]; [|discriminate].
  destruct (pool_job (m_queue h) it); [|discriminate].
  intros [= <-]. auto.
Qed.

(** The runs of [hash_calculated] so far, and then those to come in the
    order in which they wait, are the lines accepted. *)
Lemma applied_prefix st :
  server_inv st ->
  map sub_owed (submitted st)
  = applied st ++ done_owed (state_strand st)
    ++ map called_owed
         (h_calling (m_hasher st)
          ++ map item_owed (m_queue (m_hasher st))
          ++ strand_owed (h_strand (m_hasher st)))
    ++ calc_owed (state_strand st).
Proof.
  intros [Hh Hseq Hpost Hcall Hchain Hlist].
  rewrite Hpost, posted_owed_owed, (inv_order _ Hh), !map_app, Hcall.
  now rewrite <- !app_assoc.
Qed.

(** The [hash_calculated] handler at the head of the strand belongs to the
    update whose number is the count of the runs so far. *)
Lemma next_application st key hash cb strand :
  server_inv st ->
  state_strand st = t_hash_calculated key hash cb :: strand ->
  cb_seq cb = List.length (applied st).
Proof.
  intros Hinv Hst. pose proof (applied_prefix st Hinv) as Hp.
  rewrite Hst in Hp. simpl in Hp.
  apply (f_equal (map (fun x : application => cb_seq (fst (fst x))))) in Hp.
  rewrite map_map in Hp. simpl in Hp. rewrite (sinv_seq _ Hinv) in Hp.
  symmetry in Hp.
  exact (numbered_position _ _ _ (cb, key, hash) _ Hp).
Qed.

Lemma server_inv_state_strand st st' :
  server_inv st -> state_strand_step st = Some st' -> server_inv st'.
Proof.
  intros Hinv. unfold state_strand_step.
  destruct (state_strand st) as [|[key val cb|key hash cb|s|it s] strand]
    eqn:Hst; [discriminate| | | |].
  - intros [= <-].
    destruct Hinv as [Hh Hseq Hpost Hcall Hchain Hlist].
    rewrite Hst in *. simpl in *.
    constructor; simpl; auto.
    + now apply hasher_inv_hash.
    + rewrite map_app, Hpost. simpl. now rewrite <- app_assoc.
  - pose proof (next_application st key hash cb strand Hinv Hst) as Hn.
    destruct Hinv as [Hh Hseq Hpost Hcall Hchain [Hnd Hlt]].
    rewrite Hst in *. simpl in *.
    destruct (hash_calculated (m_map st) key hash) as [m r].
    intros [= <-]. constructor; simpl; auto.
    + rewrite Hcall. now rewrite <- app_assoc.
    + intros s. rewrite length_app. simpl. rewrite Nat.add_1_r.
      unfold chain. rewrite smgr_seqs_app.
      destruct (on_updated r) as [msg|]; simpl.
      * rewrite Hn, !app_assoc. apply ordered_snoc.
        rewrite <- app_assoc. apply Hchain.
      * rewrite app_nil_r. eapply ordered_mono; [apply Hchain|lia].
    + rewrite smgr_adds_app.
      destruct (on_updated r); simpl; rewrite app_nil_r; auto.
  - intros [= <-].
    destruct Hinv as [Hh Hseq Hpost Hcall Hchain [Hnd Hlt]].
    rewrite Hst in *. simpl in *.
    constructor; simpl; auto.
    + unfold got_message.
      destruct (on_got_message (get_first_impl (m_map st))) as [[it str]|];
        [|exact Hchain].
      apply chain_update_nth_all; [|exact Hchain].
      intros x. unfold chain. simpl. rewrite exec_seqs_app. simpl.
      now rewrite app_nil_r.
    + unfold got_message.
      destruct (on_got_message (get_first_impl (m_map st))) as [[it str]|];
        [|auto].
      unfold post_session. now rewrite update_nth_length.
  - intros [= <-].
    destruct Hinv as [Hh Hseq Hpost Hcall Hchain [Hnd Hlt]].
    rewrite Hst in *. simpl in *.
    constructor; simpl; auto.
    + unfold got_message.
      destruct (on_got_message (get_next_impl (m_map st) it))
        as [[it' str]|]; [|exact Hchain].
      apply chain_update_nth_all; [|exact Hchain].
      intros x. unfold chain. simpl. rewrite exec_seqs_app. simpl.
      now rewrite app_nil_r.
    + unfold got_message.
      destruct (on_got_message (get_next_impl (m_map st) it))
        as [[it' str]|]; [|auto].
      unfold post_session. now rewrite update_nth_length.
Qed.

Lemma server_inv_hasher_strand st st' :
  server_inv st -> hasher_strand st = Some st' -> server_inv st'.
Proof.
  intros [Hh Hseq Hpost Hcall Hchain Hlist]. unfold hasher_strand.
  destruct (hasher_strand_step (m_hasher st)) as [[h calls]|] eqn:Hs;
    [|discriminate].
  intros [= <-].
  destruct (hasher_strand_step_history _ _ _ Hs) as [Hp Hc].
  destruct (done_owed_callbacks calls) as [Hd Hcalc].
  constructor; simpl; auto.
  - eapply hasher_inv_strand; eauto.
  - now rewrite Hp, calc_owed_app, Hcalc, app_nil_r.
  - now rewrite Hc, map_app, Hcall, done_owed_app, Hd, <- app_assoc.
Qed.

Lemma server_inv_pool st i st' :
  server_inv st -> pool st i = Some st' -> server_inv st'.
Proof.
  intros [Hh Hseq Hpost Hcall Hchain Hlist]. unfold pool.
  destruct (hasher_pool_step (m_hasher st) i) as [h|] eqn:Hs;
    [|discriminate].
  intros [= <-].
  destruct (hasher_pool_step_history _ _ _ Hs) as [Hp Hc].
  constructor; simpl; auto.
  - eapply hasher_inv_pool; eauto.
  - now rewrite Hp.
  - now rewrite Hc.
Qed.

Lemma NoDup_app_In {A} (l l' : list A) (x : A) :
  NoDup (l ++ l') -> In x l -> ~ In x l'.
Proof.
  induction l as [|y l IH]; simpl; [easy|].
  intros Hnd [->|Hin] Hin'.
  - inversion Hnd as [|? ? Hx _]; subst. apply Hx, in_or_app. now right.
  - inversion Hnd; subst. now apply (IH H2 Hin).
Qed.

(** The loop of [broadcast] posts the message at most once to a session
    and keeps some of the list. *)
Lemma broadcast_spec (msg : shared_buffer) (seq : nat) (l : list session_id) :
  NoDup l ->
  forall ss,
    List.length (snd (broadcast l msg seq ss)) = List.length ss
    /\ incl (fst (broadcast l msg seq ss)) l
    /\ NoDup (fst (broadcast l msg seq ss))
    /\ forall s,
         (nth s (snd (broadcast l msg seq ss)) new_session
          = nth s ss new_session
          \/ nth s (snd (broadcast l msg seq ss)) new_session
             = (fun x => mk_session (s_buf x) (s_reading x) (s_expired x)
                           (s_exec x ++ [t_send_impl msg (cb_broadcast seq)])
                           (s_writing x) (s_written x))
                 (nth s ss new_session))
         /\ (~ In s l ->
             nth s (snd (broadcast l msg seq ss)) new_session
             = nth s ss new_session).
Proof.
  induction l as [|k l IH]; intros Hnd ss; simpl.
  - repeat split; auto using incl_nil_l, NoDup_nil.
  - inversion Hnd as [|? ? Hk Hnd']; subst.
    destruct (nth_error ss k) as [sess|] eqn:Hsess.
    + destruct (s_expired sess).
      * destruct (IH Hnd' ss) as (H1 & H2 & H3 & H4).
        repeat split; auto using incl_tl.
        -- apply H4.
        -- intros Hn. apply H4. tauto.
      * set (ss1 := post_session k (t_send_impl msg (cb_broadcast seq)) ss).
        destruct (IH Hnd' ss1) as (H1 & H2 & H3 & H4).
        destruct (broadcast l msg seq ss1) as [l' ss'] eqn:Hb.
        simpl in *.
        assert (Hss1 : forall s, nth s ss1 new_session
                  = if Nat.eqb s k
                    then mk_session (s_buf sess) (s_reading sess)
                           (s_expired sess)
                           (s_exec sess ++ [t_send_impl msg (cb_broadcast seq)])
                           (s_writing sess) (s_written sess)
                    else nth s ss new_session).
        { intros s. unfold ss1, post_session.
          now rewrite (nth_update_nth _ _ _ _ _ Hsess). }
        repeat split.
        -- rewrite H1. unfold ss1, post_session. apply update_nth_length.
        -- intros x [<-|Hx]; [now left|right; now apply H2].
        -- constructor; [|exact H3]. intros Hin. apply Hk. now apply H2.
        -- destruct (Nat.eqb s k) eqn:E.
           ++ apply Nat.eqb_eq in E. subst s. right.
              rewrite (proj2 (H4 k) Hk), Hss1, Nat.eqb_refl.
              now rewrite (nth_error_nth _ _ _ Hsess).
           ++ destruct (proj1 (H4 s)) as [Hs|Hs]; rewrite Hs, Hss1, E; auto.
        -- intros Hn. rewrite (proj2 (H4 s)) by tauto.
           rewrite Hss1.
           destruct (Nat.eqb s k) eqn:E; [|reflexivity].
           apply Nat.eqb_eq in E. exfalso. apply Hn. now left.
    + destruct (IH Hnd' ss) as (H1 & H2 & H3 & H4).
      repeat split; auto using incl_tl.
      * apply H4.
      * intros Hn. apply H4. tauto.
Qed.

Lemma server_inv_smgr_strand st st' :
  server_inv st -> smgr_strand_step st = Some st' -> server_inv st'.
Proof.
  intros [Hh Hseq Hpost Hcall Hchain [Hnd Hlt]]. unfold smgr_strand_step.
  destruct (smgr_strand st) as [|[s|msg seq] strand] eqn:Hst;
    [discriminate| |].
  - intros [= <-]. simpl in *. constructor; simpl; auto.
    now rewrite <- !app_assoc.
  - simpl in *.
    pose proof (broadcast_spec msg seq (m_list st)
                  (NoDup_app_remove_r _ _ Hnd) (sessions st))
      as (H1 & H2 & H3 & H4).
    destruct (broadcast (m_list st) msg seq (sessions st)) as [l ss].
    simpl in *. intros [= <-]. constructor; simpl; auto.
    + intros s. specialize (Hchain s). unfold chain in *. simpl in Hchain.
      destruct (proj1 (H4 s)) as [-> | ->]; simpl.
      * rewrite app_assoc in Hchain |- *.
        eapply ordered_remove; eauto.
      * rewrite exec_seqs_app. simpl. now rewrite <- !app_assoc.
    + split.
      * apply NoDup_app; [exact H3 | eapply NoDup_app_remove_l; eauto|].
        intros x Hx. eapply NoDup_app_In; eauto.
      * rewrite H1. apply Forall_app. apply Forall_app in Hlt.
        destruct Hlt as [Hl Ha]. split; [|exact Ha].
        rewrite Forall_forall in *. auto.
Qed.

Lemma server_inv_step st e st' :
  server_inv st -> step st e = Some st' -> server_inv st'.
Proof.
  intros Hinv. destruct e; simpl.
  - intros [= <-]. now apply server_inv_accept.
  - now apply server_inv_receive.
  - now apply server_inv_read.
  - now apply server_inv_read_error.
  - now apply server_inv_state_strand.
  - now apply server_inv_hasher_strand.
  - now apply server_inv_pool.
  - now apply server_inv_smgr_strand.
  - now apply server_inv_session_step.
  - now apply server_inv_written.
  - now apply server_inv_expire.
Qed.

Lemma server_inv_run es : forall st st',
  server_inv st -> run st es = Some st' -> server_inv st'.
Proof.
  induction es as [|e es IH]; simpl; intros st st' Hinv.
  - now intros [= <-].
  - destruct (step st e) as [st1|] eqn:Hs; [|discriminate].
    apply IH. eapply server_inv_step; eauto.
Qed.

(** *** The map, the keys and the lines broadcast *)

Lemma Forall_update_nth_at {A} (P : A -> Prop) (l : list A) (k : nat)
    (f : A -> A) (x : A) :
  nth_error l k = Some x -> P (f x) -> Forall P l ->
  Forall P (update_nth k f l).
Proof.
  revert k. induction l as [|y l IH]; intros [|k]; simpl; try discriminate.
  - intros [= ->] Hx H. inversion H; subst. now constructor.
  - intros Hk Hx H. inversion H; subst. constructor; eauto.
Qed.

Lemma Forall_update_nth_all {A} (P : A -> Prop) (l : list A) (k : nat)
    (f : A -> A) :
  (forall x, P x -> P (f x)) -> Forall P l -> Forall P (update_nth k f l).
Proof.
  intros Hf. revert k. induction l as [|y l IH]; intros k H.
  - now destruct k.
  - inversion H; subst. destruct k; simpl; constructor; auto.
Qed.

Lemma reports_more apps a msg n : reports apps msg n -> reports (apps ++ a) msg n.
Proof.
  intros (cb & key & hash & Hn & Hm). exists cb, key, hash.
  split; [|exact Hm]. rewrite nth_error_app1; [exact Hn|].
  apply nth_error_Some. congruence.
Qed.

Lemma session_ok_more apps a sess :
  session_ok apps sess -> session_ok (apps ++ a) sess.
Proof.
  intros [He Hw]. split.
  - eapply Forall_impl; [|exact He]. intros [it str|msg [n|it]]; simpl; auto.
    apply reports_more.
  - eapply Forall_impl; [|exact Hw]. intros [msg [n|it]]; simpl; auto.
    apply reports_more.
Qed.

(** The line that [on_updated] makes of the result of [hash_calculated]. *)
Lemma on_updated_line (m : map_type) (key hash msg : shared_buffer) :
  on_updated (snd (hash_calculated m key hash)) = Some msg ->
  msg = line key hash.
Proof.
  unfold hash_calculated.
  destruct (map_find key m) as [[k h]|] eqn:Hf; simpl.
  - apply map_find_key in Hf. subst k.
    destruct (negb (String.eqb h hash)); simpl; [|discriminate].
    now intros [= <-].
  - now intros [= <-].
Qed.

Lemma run_operations_app (m : map_type) (a b : list operation) :
  run_operations m (a ++ b) = run_operations (run_operations m a) b.
Proof. unfold run_operations. apply fold_left_app. Qed.

Lemma server_data_inv_init : server_data_inv server_init.
Proof. constructor; simpl; auto. Qed.

(** A change of one session that keeps it in order. *)
Lemma server_data_inv_session st k f sess :
  server_data_inv st ->
  nth_error (sessions st) k = Some sess ->
  (session_ok (applied st) sess -> session_ok (applied st) (f sess)) ->
  server_data_inv (set_sessions st (update_nth k f (sessions st))).
Proof.
  intros [Hk Hm Hs Hss] Hsess Hf. constructor; simpl; auto.
  eapply Forall_update_nth_at; eauto. apply Hf.
  rewrite Forall_forall in Hss. apply Hss. eapply nth_error_In; eauto.
Qed.

Lemma server_data_inv_post_state st t :
  server_data_inv st -> server_data_inv (post_state st t).
Proof. intros [Hk Hm Hs Hss]. constructor; simpl; auto. Qed.

Lemma server_data_inv_accept st :
  server_data_inv st -> server_data_inv (accept st).
Proof.
  intros [Hk Hm Hs Hss]. constructor; simpl; auto.
  - apply Forall_app. split; [exact Hs|]. repeat constructor.
  - apply Forall_app. split; [exact Hss|]. repeat constructor.
Qed.

Lemma server_data_inv_receive st s bytes st' :
  server_data_inv st -> receive st s bytes = Some st' -> server_data_inv st'.
Proof.
  intros Hinv. unfold receive.
  destruct (nth_error (sessions st) s) as [sess|] eqn:Hs; [|discriminate].
  destruct (s_reading sess); [|discriminate]. intros [= <-].
  eapply server_data_inv_session; eauto.
Qed.

Lemma server_data_inv_readed st s sess ec rd :
  server_data_inv st -> nth_error (sessions st) s = Some sess ->
  (ec = ec_success ->
   exists i, find LF (s_buf sess) = Some i /\ rd = S i) ->
  server_data_inv (readed_step st s sess ec rd).
Proof.
  intros Hinv Hs Hrd. unfold readed_step.
  destruct (on_readed (s_buf sess) ec rd) as [|buf|key val buf] eqn:Ho.
  - eapply server_data_inv_session; eauto.
  - eapply server_data_inv_session; eauto.
  - destruct Hinv as [Hk Hm Hsm Hss]. constructor; simpl; auto.
    + apply Forall_app. split; [exact Hk|]. constructor; [|constructor].
      simpl. unfold on_readed in Ho.
      destruct ec; try discriminate.
      destruct (Hrd eq_refl) as [i [Hf ->]].
      destruct (find SP (take (S i) (s_buf sess))) as [pos|] eqn:Hp;
        [|discriminate].
      injection Ho as <- _ _. now apply key_before_space.
    + eapply Forall_update_nth_at; eauto.
      rewrite Forall_forall in Hss.
      exact (Hss _ (nth_error_In _ _ Hs)).
Qed.

Lemma server_data_inv_read st s st' :
  server_data_inv st -> read st s = Some st' -> server_data_inv st'.
Proof.
  intros Hinv. unfold read.
  destruct (nth_error (sessions st) s) as [sess|] eqn:Hs; [|discriminate].
  destruct (s_reading sess); [|discriminate].
  destruct (find LF (s_buf sess)) as [i|] eqn:Hf; [|discriminate].
  intros [= <-]. apply server_data_inv_readed; auto.
  intros _. now exists i.
Qed.

Lemma server_data_inv_read_error st s ec st' :
  server_data_inv st -> read_error st s ec = Some st' -> server_data_inv st'.
Proof.
  intros Hinv. unfold read_error.
  destruct (nth_error (sessions st) s) as [sess|] eqn:Hs; [|discriminate].
  destruct ec; try discriminate;
    (destruct (s_reading sess); [|discriminate];
     destruct (find LF (s_buf sess)); [discriminate|]; intros [= <-];
     apply server_data_inv_readed; auto; discriminate).
Qed.

Lemma server_data_inv_session_step st s st' :
  server_data_inv st -> session_step st s = Some st' -> server_data_inv st'.
Proof.
  intros Hinv. unfold session_step.
  destruct (nth_error (sessions st) s) as [sess|] eqn:Hs; [|discriminate].
  destruct (s_exec sess) as [|[it str|msg cb] exec] eqn:He; [discriminate| |];
    intros [= <-]; eapply server_data_inv_session; eauto;
    unfold session_ok; simpl; rewrite He; intros [Hx Hw];
    inversion Hx as [|? ? Ht Hx']; subst.
  - split; [|exact Hw]. apply Forall_app. split; [exact Hx'|].
    repeat constructor.
  - split; [exact Hx'|]. apply Forall_app. split; [exact Hw|].
    constructor; [|constructor]. exact Ht.
Qed.

Lemma server_data_inv_written st s i ok st' :
  server_data_inv st -> written st s i ok = Some st' -> server_data_inv st'.
Proof.
  intros Hinv. unfold written.
  destruct (nth_error (sessions st) s) as [sess|] eqn:Hs; [|discriminate].
  destruct (nth_error (s_writing sess) i) as [cb|]; [|discriminate].
  assert (H : server_data_inv
    (set_sessions st
       (update_nth s
          (fun x => mk_session (s_buf x) (s_reading x) (s_expired x)
                      (s_exec x)
                      (firstn i (s_writing x) ++ skipn (S i) (s_writing x))
                      (s_written x))
          (sessions st))))
    by (eapply server_data_inv_session; eauto).
  destruct ok, cb; intros [= <-]; auto.
  now apply server_data_inv_post_state.
Qed.

Lemma server_data_inv_expire st s st' :
  server_data_inv st -> expire st s = Some st' -> server_data_inv st'.
Proof.
  intros Hinv. unfold expire.
  destruct (nth_error (sessions st) s) as [sess|] eqn:Hs; [|discriminate].
  destruct (s_reading sess); [discriminate|]. intros [= <-].
  eapply server_data_inv_session; eauto.
Qed.

Lemma got_message_ok apps s r ss :
  Forall (session_ok apps) ss -> Forall (session_ok apps) (got_message s r ss).
Proof.
  intros H. unfold got_message.
  destruct (on_got_message r) as [[it str]|]; [|exact H].
  apply Forall_update_nth_all; [|exact H].
  intros x [Hx Hw]. split; [|exact Hw]. simpl.
  apply Forall_app. split; [exact Hx|]. repeat constructor.
Qed.

Lemma server_data_inv_state_strand st st' :
  server_inv st -> server_data_inv st ->
  state_strand_step st = Some st' -> server_data_inv st'.
Proof.
  intros Hinv [Hk Hm Hsm Hss]. unfold state_strand_step.
  destruct (state_strand st) as [|[key val cb|key hash cb|s|it s] strand]
    eqn:Hst; [discriminate| | | |].
  - intros [= <-]. constructor; simpl; auto.
  - pose proof (next_application st key hash cb strand Hinv Hst) as Hn.
    pose proof (on_updated_line (m_map st) key hash) as Hline.
    destruct (hash_calculated (m_map st) key hash) as [m r] eqn:Hhc.
    intros [= <-]. constructor; simpl; auto.
    + rewrite map_app, run_operations_app.
      etransitivity;
        [|apply (f_equal (fun x => run_operations x _) Hm)].
      unfold run_operations. simpl. now rewrite Hhc.
    + apply Forall_app. split.
      * eapply Forall_impl; [|exact Hsm]. intros [s|msg n]; simpl; auto.
        apply reports_more.
      * simpl in Hline. destruct (on_updated r) as [msg|]; [|constructor].
        constructor; [|constructor]. simpl. exists cb, key, hash.
        split; [|now apply Hline].
        rewrite Hn, nth_error_app2, Nat.sub_diag by lia. reflexivity.
    + eapply Forall_impl; [|exact Hss]. intros x. apply session_ok_more.
  - intros [= <-]. constructor; simpl; auto. now apply got_message_ok.
  - intros [= <-]. constructor; simpl; auto. now apply got_message_ok.
Qed.

Lemma server_data_inv_hasher_strand st st' :
  server_data_inv st -> hasher_strand st = Some st' -> server_data_inv st'.
Proof.
  intros [Hk Hm Hsm Hss]. unfold hasher_strand.
  destruct (hasher_strand_step (m_hasher st)) as [[h calls]|];
    [|discriminate].
  intros [= <-]. constructor; simpl; auto.
Qed.

Lemma server_data_inv_pool st i st' :
  server_data_inv st -> pool st i = Some st' -> server_data_inv st'.
Proof.
  intros [Hk Hm Hsm Hss]. unfold pool.
  destruct (hasher_pool_step (m_hasher st) i) as [h|]; [|discriminate].
  intros [= <-]. constructor; simpl; auto.
Qed.

Lemma broadcast_ok apps msg seq (l : list session_id) :
  reports apps msg seq ->
  forall ss, Forall (session_ok apps) ss ->
             Forall (session_ok apps) (snd (broadcast l msg seq ss)).
Proof.
  intros Hr. induction l as [|k l IH]; intros ss Hss; simpl; [exact Hss|].
  destruct (nth_error ss k) as [sess|]; [|now apply IH].
  destruct (s_expired sess); [now apply IH|].
  specialize (IH (post_session k (t_send_impl msg (cb_broadcast seq)) ss)).
  destruct (broadcast l msg seq
              (post_session k (t_send_impl msg (cb_broadcast seq)) ss))
    as [l' ss'].
  simpl in *. apply IH. unfold post_session.
  apply Forall_update_nth_all; [|exact Hss].
  intros x [Hx Hw]. split; [|exact Hw]. simpl.
  apply Forall_app. split; [exact Hx|]. constructor; [|constructor].
  exact Hr.
Qed.

Lemma server_data_inv_smgr_strand st st' :
  server_data_inv st -> smgr_strand_step st = Some st' -> server_data_inv st'.
Proof.
  intros [Hk Hm Hsm Hss]. unfold smgr_strand_step.
  destruct (smgr_strand st) as [|[s|msg seq] strand] eqn:Hst;
    [discriminate| |]; inversion Hsm as [|? ? Ht Hsm']; subst.
  - intros [= <-]. constructor; simpl; auto.
  - pose proof (broadcast_ok _ msg seq (m_list st) Ht _ Hss) as Hb.
    destruct (broadcast (m_list st) msg seq (sessions st)) as [l ss].
    intros [= <-]. constructor; simpl; auto.
Qed.

Lemma server_data_inv_step st e st' :
  server_inv st -> server_data_inv st -> step st e = Some st' ->
  server_data_inv st'.
Proof.
  intros Hinv Hd. destruct e; simpl.
  - intros [= <-]. now apply server_data_inv_accept.
  - now apply server_data_inv_receive.
  - now apply server_data_inv_read.
  - now apply server_data_inv_read_error.
  - now apply server_data_inv_state_strand.
  - now apply server_data_inv_hasher_strand.
  - now apply server_data_inv_pool.
  - now apply server_data_inv_smgr_strand.
  - now apply server_data_inv_session_step.
  - now apply server_data_inv_written.
  - now apply server_data_inv_expire.
Qed.

Lemma server_data_inv_run es : forall st st',
  server_inv st -> server_data_inv st -> run st es = Some st' ->
  server_data_inv st'.
Proof.
  induction es as [|e es IH]; simpl; intros st st' Hinv Hd.
  - now intros [= <-].
  - destruct (step st e) as [st1|] eqn:Hs; [|discriminate].
    apply IH; [eapply server_inv_step | eapply server_data_inv_step]; eauto.
Qed.

(** *** The two theorems *)

Lemma hasher_run_posted {CB} (es : list (hasher_event CB)) :
  forall h h', hasher_run h es = Some h' ->
  h_posted h' = h_posted h ++ submissions es.
Proof.
  induction es as [|e es IH]; simpl; intros h h'.
  - intros [= <-]. now rewrite app_nil_r.
  - destruct (hasher_step h e) as [h1|] eqn:Hs; [|discriminate].
    intros Hr. rewrite (IH _ _ Hr).
    destruct e as [str cb| |i]; simpl in Hs.
    + injection Hs as <-. simpl. now rewrite <- app_assoc.
    + destruct (hasher_strand_step h) as [[h2 calls]|] eqn:Hst;
        [|discriminate].
      injection Hs as <-.
      now rewrite (proj1 (hasher_strand_step_history _ _ _ Hst)).
    + now rewrite (proj1 (hasher_pool_step_history _ _ _ Hs)).
Qed.

Lemma firstn_prefix {A} (l rest : list A) :
  l = firstn (List.length l) (l ++ rest).
Proof.
  rewrite firstn_app, Nat.sub_diag, firstn_all. simpl.
  now rewrite app_nil_r.
Qed.

(** C3: whatever the order in which the strand and the pool run what was
    posted to them, the callbacks that the hasher has called are those of
    the first jobs submitted, in the order of submission, each called with
    the digest of the input of its own job; no handler or job that waits
    is ever stuck; and once nothing waits, every job submitted has had its
    callback. *)
Theorem hasher_calls_back_in_submission_order
    {CB : Type} (es : list (hasher_event CB)) (h : hasher CB) :
  hasher_run hasher_init es = Some h ->
  h_posted h = submissions es
  /\ h_called h
     = firstn (List.length (h_called h)) (map owed (submissions es))
  /\ (h_calling h <> [] \/ h_strand h <> [] ->
      hasher_step h he_strand <> None)
  /\ (forall i, i < List.length (h_pool h) ->
        hasher_step h (he_pool i) <> None)
  /\ (h_calling h = [] -> h_strand h = [] -> h_pool h = [] ->
      h_called h = map owed (submissions es)).
Proof.
  intros Hrun.
  pose proof (hasher_inv_run es _ _ hasher_inv_init Hrun) as Hinv.
  pose proof (hasher_run_posted es _ _ Hrun) as Hposted.
  simpl in Hposted. rewrite <- Hposted.
  split; [reflexivity|]. split; [|split; [|split]].
  - rewrite (inv_order _ Hinv). apply firstn_prefix.
  - simpl. unfold hasher_strand_step.
    destruct (h_calling h) as [|call calling]; [|discriminate].
    destruct (h_strand h) as [|[str cb|it hash] strand].
    + intros [H|H]; now destruct H.
    + discriminate.
    + destruct (on_hashed (m_queue h) it hash). discriminate.
  - intros i Hi. simpl. unfold hasher_pool_step.
    destruct (nth_error (h_pool h) i) as [it|] eqn:Hn.
    + pose proof (inv_pending _ Hinv) as Hp. rewrite Forall_forall in Hp.
      destruct (Hp it) as [item [Hf _]].
      { unfold pending. apply in_or_app. right.
        eapply nth_error_In; eauto. }
      unfold pool_job. rewrite Hf. discriminate.
    + apply nth_error_None in Hn. lia.
  - now apply hasher_idle.
Qed.

Lemma hasher_calls_back_in_submission_order_witness :
  match hasher_run hasher_init
          [he_hash "a" 1; he_hash "b" 2; he_strand; he_strand;
           he_pool 1; he_strand; he_pool 0; he_strand;
           he_strand; he_strand] with
  | Some h => h_called h = [(1, sha1_hex "a"); (2, sha1_hex "b")]
  | None => False
  end.
Proof.
  destruct (hasher_run hasher_init
              [he_hash "a" 1; he_hash "b" 2; he_strand; he_strand;
               he_pool 1; he_strand; he_pool 0; he_strand;
               he_strand; he_strand])
    as [h|] eqn:Hrun.
  - pose proof (hasher_calls_back_in_submission_order _ h Hrun)
      as (_ & _ & _ & _ & Hidle).
    vm_compute in Hrun. injection Hrun as <-.
    exact (Hidle eq_refl eq_refl eq_refl).
  - vm_compute in Hrun. discriminate Hrun.
Defined.




(** The keys of a map come from the updates that made it. *)
Lemma run_operations_keys_from (ops : list operation) :
  forall m k,
  In k (keys (run_operations m ops)) ->
  In k (keys m) \/ exists h, In (op_update k h) ops.
Proof.
  unfold run_operations.
  induction ops as [|o ops IH]; simpl; intros m k Hin; [auto|].
  destruct (IH _ _ Hin) as [Hk|[h Hh]]; [|right; exists h; auto].
  destruct o as [key hash| | |it]; simpl in Hk; auto.
  unfold hash_calculated in Hk.
  destruct (map_find key m) as [[k0 h0]|]; simpl in Hk.
  - destruct (negb (String.eqb h0 hash)); simpl in Hk; auto.
    rewrite keys_assign in Hk. auto.
  - apply keys_emplace_iff in Hk. destruct Hk as [->|Hk]; auto.
    right. exists hash. auto.
Qed.

(** C8, as the code has it: the key that [on_readed] cuts out of a line
    that the read delivered holds no space and no newline (it is empty
    when the line starts with a space); and so, however the server runs,
    does every key of a line accepted and every key in the map. *)
Theorem submitted_key_has_no_space_or_newline :
  (forall (incoming incoming' : list string) (buf0 buf buf' : string)
          (ec : error_code) (rd : nat) (key val : shared_buffer),
     async_read_until incoming buf0 = (ec, rd, buf, incoming') ->
     on_readed buf ec rd = rd_update key val buf' ->
     contains SP key = false /\ contains LF key = false)
  /\ (forall (es : list event) (st : server),
        run server_init es = Some st ->
        (forall cb key val, In (cb, key, val) (submitted st) ->
           contains SP key = false /\ contains LF key = false)
        /\ (forall key, In key (keys (m_map st)) ->
              contains SP key = false /\ contains LF key = false)).
Proof.
  split; [intros; eapply read_key_clean; eauto|].
  intros es st Hrun.
  pose proof (server_inv_run es _ _ server_inv_init Hrun) as Hinv.
  pose proof (server_data_inv_run es _ _ server_inv_init
                server_data_inv_init Hrun) as Hdata.
  pose proof (dinv_keys _ Hdata) as Hkeys. rewrite Forall_forall in Hkeys.
  split.
  - intros cb key val Hin. exact (Hkeys _ Hin).
  - intros key Hin. rewrite (dinv_map _ Hdata) in Hin.
    apply run_operations_keys_from in Hin.
    destruct Hin as [[]|[h Hh]].
    apply in_map_iff in Hh. destruct Hh as [[[cb k] h'] [Heq Ha]].
    injection Heq as -> ->.
    assert (Hsub : In (cb, key, h) (map sub_owed (submitted st))).
    { rewrite (applied_prefix st Hinv). apply in_or_app. now left. }
    apply in_map_iff in Hsub. destruct Hsub as [[[cb' k'] v] [Heq Hx]].
    injection Heq as -> -> _. exact (Hkeys _ Hx).
Qed.

Lemma submitted_key_has_no_space_or_newline_witness :
  async_read_until [("o b" ++ String LF "x")%string] "fo"
  = (ec_success, 6, ("foo b" ++ String LF "x")%string, [])
  /\ on_readed ("foo b" ++ String LF "x")%string ec_success 6
     = rd_update "foo" ("b" ++ String LF "")%string "x"
  /\ contains SP "foo" = false /\ contains LF "foo" = false.
Proof.
  split; [reflexivity|]. split; [reflexivity|].
  exact (proj1 submitted_key_has_no_space_or_newline
           [("o b" ++ String LF "x")%string] [] "fo" _ "x" _ _ "foo" _
           eq_refl eq_refl).
Defined.

(** *** The map holds the digest of the last value applied *)

Lemma hash_calculated_find (m : map_type) (key hash k : shared_buffer) :
  map_ok m ->
  map_find k (fst (hash_calculated m key hash))
  = if String.eqb key k then Some (key, hash) else map_find k m.
Proof.
  intros Hok. destruct (String.eqb key k) eqn:E.
  - apply String.eqb_eq in E. subst k.
    pose proof (hash_calculated_spec m key hash Hok) as Hs.
    destruct (hash_calculated m key hash) as [m' r]. simpl.
    destruct Hs as [(_ & Hf & _) | (_ & -> & Hf)]; exact Hf.
  - apply String.eqb_neq in E. apply hash_calculated_frame. congruence.
Qed.

Lemma map_find_last_update (apps : list application) :
  forall m, map_ok m ->
  forall key,
    map_find key (run_operations m (map operation_of apps))
    = match last_update key apps with
      | Some hash => Some (key, hash)
      | None => map_find key m
      end.
Proof.
  unfold run_operations.
  induction apps as [|[[cb k] h] apps IH]; intros m Hok key; simpl;
    [reflexivity|].
  rewrite IH by now apply hash_calculated_ok.
  destruct (last_update key apps); [reflexivity|].
  rewrite hash_calculated_find by exact Hok.
  destruct (String.eqb k key) eqn:E; [|reflexivity].
  apply String.eqb_eq in E. now subst k.
Qed.

(** X1, hash consistency: however the server runs, the entry of a key in the
    map is the hash of the last update applied for the key, and the
    updates applied are the first lines accepted, each with the digest of
    its value; a key has no entry when no update for it was applied. *)
Theorem stored_hash_is_last_applied_digest (es : list event) (st : server) :
  run server_init es = Some st ->
  applied st
  = firstn (List.length (applied st)) (map sub_owed (submitted st))
  /\ forall key,
       map_find key (m_map st)
       = match last_update key (applied st) with
         | Some hash => Some (key, hash)
         | None => None
         end.
Proof.
  intros Hrun.
  pose proof (server_inv_run es _ _ server_inv_init Hrun) as Hinv.
  pose proof (server_data_inv_run es _ _ server_inv_init
                server_data_inv_init Hrun) as Hdata.
  split.
  - rewrite (applied_prefix st Hinv). apply firstn_prefix.
  - intros key. rewrite (dinv_map _ Hdata).
    now rewrite (map_find_last_update _ [] map_ok_nil).
Qed.

Lemma stored_hash_is_last_applied_digest_witness :
  match run server_init
          [ev_accept;
           ev_receive 0 ("k v1" ++ String LF ("k v2" ++ String LF ""));
           ev_read 0; ev_read 0; ev_state_strand; ev_state_strand;
           ev_state_strand; ev_hasher_strand; ev_hasher_strand;
           ev_pool 1; ev_pool 0; ev_hasher_strand; ev_hasher_strand;
           ev_hasher_strand; ev_hasher_strand;
           ev_state_strand; ev_state_strand] with
  | Some st =>
      map_find "k" (m_map st)
      = Some ("k", sha1_hex ("v2" ++ String LF "")%string)
  | None => False
  end.
Proof.
  destruct (run server_init
          [ev_accept;
           ev_receive 0 ("k v1" ++ String LF ("k v2" ++ String LF ""));
           ev_read 0; ev_read 0; ev_state_strand; ev_state_strand;
           ev_state_strand; ev_hasher_strand; ev_hasher_strand;
           ev_pool 1; ev_pool 0; ev_hasher_strand; ev_hasher_strand;
           ev_hasher_strand; ev_hasher_strand;
           ev_state_strand; ev_state_strand])
    as [st|] eqn:Hrun.
  - pose proof (stored_hash_is_last_applied_digest _ st Hrun) as [_ Hfind].
    rewrite (Hfind "k").
    vm_compute in Hrun. injection Hrun as <-. vm_compute. reflexivity.
  - vm_compute in Hrun. discriminate Hrun.
Defined.

(** *** The registry reaches every session that is still there *)

Lemma broadcast_untouched (msg : shared_buffer) (seq : nat)
    (l : list session_id) (s : session_id) :
  ~ In s l ->
  forall ss, nth_error (snd (broadcast l msg seq ss)) s = nth_error ss s.
Proof.
  induction l as [|k l IH]; intros Hn ss; simpl; [reflexivity|].
  assert (Hk : s <> k) by (intros ->; apply Hn; now left).
  assert (Hl : ~ In s l) by (intros H; apply Hn; now right).
  destruct (nth_error ss k) as [sess|]; [|now apply IH].
  destruct (s_expired sess); [now apply IH|].
  specialize (IH Hl (post_session k (t_send_impl msg (cb_broadcast seq)) ss)).
  destruct (broadcast l msg seq
              (post_session k (t_send_impl msg (cb_broadcast seq)) ss))
    as [l' ss'].
  simpl in *. rewrite IH. unfold post_session.
  rewrite nth_error_update_nth.
  destruct (Nat.eqb s k) eqn:E; [|reflexivity].
  apply Nat.eqb_eq in E. contradiction.
Qed.

(** X2, fan-out: the loop of [session_manager::broadcast] posts the message,
    once, to the executor of every session of the list that still locks
    and keeps it in the list; it erases from the list the sessions that no
    longer lock and posts nothing to them. *)
Theorem broadcast_reaches_every_live_session
    (msg : shared_buffer) (seq : nat) (l : list session_id) :
  NoDup l ->
  forall (ss : list session) (s : session_id) (sess : session),
    In s l ->
    nth_error ss s = Some sess ->
    (s_expired sess = false ->
     In s (fst (broadcast l msg seq ss))
     /\ nth_error (snd (broadcast l msg seq ss)) s
        = Some (mk_session (s_buf sess) (s_reading sess) (s_expired sess)
                  (s_exec sess ++ [t_send_impl msg (cb_broadcast seq)])
                  (s_writing sess) (s_written sess)))
    /\ (s_expired sess = true ->
        ~ In s (fst (broadcast l msg seq ss))
        /\ nth_error (snd (broadcast l msg seq ss)) s = Some sess).
Proof.
  induction l as [|k l IH]; intros Hnd ss s sess Hin Hs; [easy|].
  inversion Hnd as [|? ? Hk Hnd']; subst. simpl.
  destruct (Nat.eq_dec s k) as [->|Hne].
  - rewrite Hs. destruct (s_expired sess) eqn:He.
    + split; [discriminate|]. intros _. split.
      * intros Hin'.
        apply Hk, (proj1 (proj2 (broadcast_spec msg seq l Hnd' ss))), Hin'.
      * now rewrite broadcast_untouched.
    + split; [|discriminate]. intros _.
      pose proof (broadcast_untouched msg seq l k Hk
                    (post_session k (t_send_impl msg (cb_broadcast seq)) ss))
        as Hu.
      destruct (broadcast l msg seq
                  (post_session k (t_send_impl msg (cb_broadcast seq)) ss))
        as [l' ss'].
      simpl in *. split; [now left|].
      rewrite Hu. unfold post_session.
      rewrite nth_error_update_nth, Nat.eqb_refl, Hs. simpl.
      now rewrite He.
  - destruct Hin as [->|Hin]; [contradiction|].
    destruct (nth_error ss k) as [sessk|] eqn:Hsk; [|now apply IH].
    destruct (s_expired sessk); [now apply IH|].
    assert (Hs1 : nth_error
                    (post_session k (t_send_impl msg (cb_broadcast seq)) ss) s
                  = Some sess).
    { unfold post_session. rewrite nth_error_update_nth.
      destruct (Nat.eqb s k) eqn:E; [|exact Hs].
      apply Nat.eqb_eq in E. contradiction. }
    specialize (IH Hnd' _ s sess Hin Hs1).
    destruct (broadcast l msg seq
                (post_session k (t_send_impl msg (cb_broadcast seq)) ss))
      as [l' ss'].
    simpl in *. destruct IH as [IH1 IH2]. split.
    + intros He. destruct (IH1 He). auto.
    + intros He. destruct (IH2 He) as [Hn Hx]. split; [|exact Hx].
      intros [->|Hin']; [contradiction|]. now apply Hn.
Qed.

Lemma broadcast_reaches_every_live_session_witness :
  NoDup [0; 1]
  /\ In 1 (fst (broadcast [0; 1] "m" 7
                  [mk_session "" false true [] [] []; new_session]))
  /\ ~ In 0 (fst (broadcast [0; 1] "m" 7
                    [mk_session "" false true [] [] []; new_session])).
Proof.
  assert (Hnd : NoDup [0; 1]).
  { constructor; [simpl; intros [H|[]]; discriminate H|].
    constructor; [simpl; tauto|constructor]. }
  split; [exact Hnd|]. split.
  - apply (broadcast_reaches_every_live_session "m" 7 [0; 1] Hnd
             [mk_session "" false true [] [] []; new_session] 1 new_session);
      simpl; auto.
  - apply (broadcast_reaches_every_live_session "m" 7 [0; 1] Hnd
             [mk_session "" false true [] [] []; new_session] 0
             (mk_session "" false true [] [] []));
      simpl; auto.
Defined.

(** ** Lines and the segmentation of the stream *)

Lemma find_none_contains (c : ascii) (s : string) :
  find c s = None <-> contains c s = false.
Proof.
  induction s as [|a s IH]; simpl; [tauto|].
  destruct (Ascii.eqb a c); simpl; [split; discriminate|].
  destruct (find c s); [|tauto].
  split; [discriminate|]. intros H. apply IH in H. discriminate.
Qed.

Lemma find_app_found (c : ascii) (s t : string) (i : nat) :
  find c s = Some i -> find c (s ++ t) = Some i.
Proof.
  revert i. induction s as [|a s IH]; simpl; intros i; [discriminate|].
  destruct (Ascii.eqb a c); [auto|].
  destruct (find c s) as [j|]; [|discriminate].
  intros [= <-]. now rewrite (IH j eq_refl).
Qed.

Lemma find_lt (c : ascii) (s : string) (i : nat) :
  find c s = Some i -> i < String.length s.
Proof.
  revert i. induction s as [|a s IH]; simpl; intros i; [discriminate|].
  destruct (Ascii.eqb a c); [intros [= <-]; lia|].
  destruct (find c s) as [j|]; [|discriminate].
  intros [= <-]. specialize (IH j eq_refl). lia.
Qed.

Lemma take_app_le (s t : string) (n : nat) :
  n <= String.length s -> take n (s ++ t) = take n s.
Proof.
  unfold take. revert n. induction s as [|a s IH]; simpl; intros n Hn.
  - assert (n = 0) by lia. subst n. now destruct t.
  - destruct n as [|n]; [reflexivity|]. rewrite IH by lia. reflexivity.
Qed.

Lemma erase_front_app_le (s t : string) (n : nat) :
  n <= String.length s ->
  erase_front n (s ++ t) = (erase_front n s ++ t)%string.
Proof.
  revert n. induction s as [|a s IH]; simpl; intros n Hn.
  - assert (n = 0) by lia. subst n. reflexivity.
  - destruct n as [|n]; [reflexivity|]. simpl. apply IH. lia.
Qed.

Lemma string_app_nil (s : string) : (s ++ "")%string = s.
Proof. induction s as [|a s IH]; simpl; [reflexivity|]. now rewrite IH. Qed.

Lemma stream_app (a b : list string) :
  stream (a ++ b) = (stream a ++ stream b)%string.
Proof.
  induction a as [|p a IH]; simpl; [reflexivity|].
  now rewrite IH, string_app_assoc.
Qed.

(** A read sees the stream, not its pieces: it completes with the first
    line of what the buffer holds and what the socket will deliver, or
    fails when they hold no newline; the bytes left stay in order. *)
Lemma async_read_until_stream (incoming : list string) :
  forall buf ec rd buf1 incoming1,
  async_read_until incoming buf = (ec, rd, buf1, incoming1) ->
  (buf1 ++ stream incoming1 = buf ++ stream incoming)%string
  /\ match find LF (buf ++ stream incoming) with
     | Some i => ec = ec_success /\ rd = S i /\ find LF buf1 = Some i
     | None => ec = ec_eof /\ rd = 0
     end.
Proof.
  induction incoming as [|piece rest IH]; intros buf ec rd buf1 incoming1;
    simpl.
  - rewrite string_app_nil.
    destruct (find LF buf) as [i|] eqn:Hf; intros [= <- <- <- <-]; simpl;
      rewrite string_app_nil; auto.
  - destruct (find LF buf) as [i|] eqn:Hf.
    + intros [= <- <- <- <-]. simpl.
      rewrite (find_app_found _ _ _ _ Hf). auto.
    + intros H. apply IH in H. now rewrite string_app_assoc in H.
Qed.

(** The same read when the whole stream is already in the buffer. *)
Lemma async_read_until_whole (s : string) :
  async_read_until [] s
  = match find LF s with
    | Some i => (ec_success, S i, s, [])
    | None => (ec_eof, 0, s, [])
    end.
Proof. reflexivity. Qed.

Lemma read_loop_stream (fuel : nat) :
  forall incoming buf,
  read_loop fuel incoming buf = read_loop fuel [] (buf ++ stream incoming).
Proof.
  induction fuel as [|fuel IH]; intros incoming buf; [reflexivity|].
  cbn [read_loop]. rewrite async_read_until_whole.
  destruct (async_read_until incoming buf) as [[[ec rd] buf1] incoming1]
    eqn:Hr.
  apply async_read_until_stream in Hr. destruct Hr as [Hs Hf].
  destruct (find LF (buf ++ stream incoming)) as [i|].
  - destruct Hf as (-> & -> & Hf). pose proof (find_lt _ _ _ Hf) as Hlt.
    rewrite <- Hs. unfold on_readed.
    rewrite (take_app_le buf1) by lia.
    destruct (find SP (take (S i) buf1)) as [pos|].
    + rewrite (erase_front_app_le buf1) by lia.
      now rewrite (IH incoming1).
    + apply IH.
  - destruct Hf as [-> ->]. reflexivity.
Qed.

(** What the read loop of [session] makes of well-formed lines. *)
Lemma read_loop_lines (kvs : list (shared_buffer * shared_buffer)) :
  forall partial fuel,
  Forall (fun kv => clean_key (fst kv) /\ contains LF (snd kv) = false) kvs ->
  contains LF partial = false ->
  List.length kvs < fuel ->
  read_loop fuel [] (stream (map update_line kvs) ++ partial)
  = map submission kvs.
Proof.
  induction kvs as [|[k v] kvs IH]; intros partial fuel Hok Hp Hfuel.
  - destruct fuel as [|fuel]; [simpl in Hfuel; lia|].
    cbn [read_loop map stream]. rewrite async_read_until_whole. simpl.
    apply find_none_contains in Hp. now rewrite Hp.
  - destruct fuel as [|fuel]; [simpl in Hfuel; lia|].
    inversion Hok as [|? ? [[Hsp Hlf] Hv] Hrest]; subst. simpl in Hsp, Hlf, Hv.
    cbn [read_loop map stream]. unfold update_line at 1. cbn [fst snd].
    rewrite !string_app_assoc. cbn [append]. rewrite string_app_assoc.
    cbn [append].
    destruct (on_readed_line k v (stream (map update_line kvs) ++ partial)
                Hsp Hlf Hv) as [Hf Hr].
    rewrite async_read_until_whole, Hf, Hr.
    unfold submission at 1. cbn [fst snd]. f_equal.
    apply IH; [exact Hrest | exact Hp | simpl in Hfuel; lia].
Qed.

(** X3: The updates that a session submits depend on the bytes of the
    stream only, not on the pieces in which the socket delivers them:
    two deliveries of the same bytes give the same updates, read for
    read. *)
Theorem updates_do_not_depend_on_segmentation
    (fuel : nat) (pieces1 pieces2 : list string) :
  stream pieces1 = stream pieces2 ->
  read_loop fuel pieces1 "" = read_loop fuel pieces2 "".
Proof.
  intros Hs. rewrite (read_loop_stream fuel pieces1).
  rewrite (read_loop_stream fuel pieces2). simpl. now rewrite Hs.
Qed.

Lemma updates_do_not_depend_on_segmentation_witness :
  read_loop 5 ["k v" ++ String LF "k"; "2 w" ++ String LF ""]%string ""
  = read_loop 5 ["k "; "v"; String LF ("k2 w" ++ String LF "")]%string "".
Proof.
  apply updates_do_not_depend_on_segmentation. reflexivity.
Defined.

(** X4: Every line [KEY SP VALUE LF] of the stream, in whatever pieces the
    stream arrives, is submitted as the update of [KEY] with the value
    [VALUE LF], in the order of the lines; bytes after the last newline
    are never submitted, also when the peer closes. *)
Theorem lines_are_submitted_in_order
    (kvs : list (shared_buffer * shared_buffer)) (partial : string)
    (pieces : list string) (fuel : nat) :
  Forall (fun kv => clean_key (fst kv) /\ contains LF (snd kv) = false) kvs ->
  contains LF partial = false ->
  stream pieces = (stream (map update_line kvs) ++ partial)%string ->
  List.length kvs < fuel ->
  read_loop fuel pieces "" = map submission kvs.
Proof.
  intros Hok Hp Hs Hfuel. rewrite read_loop_stream. simpl. rewrite Hs.
  now apply read_loop_lines.
Qed.

Lemma lines_are_submitted_in_order_witness :
  read_loop 3
    ["a 1" ++ String LF "b"; " two words" ++ String LF "c 3"]%string ""
  = [("a", "1" ++ String LF ""); ("b", "two words" ++ String LF "")]%string.
Proof.
  apply (lines_are_submitted_in_order
           [("a", "1"); ("b", "two words")] "c 3").
  - repeat constructor.
  - reflexivity.
  - reflexivity.
  - simpl. lia.
Defined.

(** ** The client *)

Lemma is_line_find (l rest : string) :
  is_line l ->
  exists n, String.length l = S n /\ find LF (l ++ rest) = Some n.
Proof.
  intros [body [-> Hb]]. exists (String.length body). split.
  - rewrite string_length_app. simpl. lia.
  - rewrite string_app_assoc, (find_app_absent _ _ _ Hb). simpl.
    now rewrite Nat.add_0_r.
Qed.

(** A read when the stream starts with a line: it completes with the
    line, and what follows the line is left. *)
Lemma async_read_until_line (incoming : list string) (buf l rest : string) :
  is_line l ->
  (buf ++ stream incoming = l ++ rest)%string ->
  exists buf1 incoming1,
    async_read_until incoming buf
    = (ec_success, String.length l, buf1, incoming1)
    /\ take (String.length l) buf1 = l
    /\ (erase_front (String.length l) buf1 ++ stream incoming1 = rest)%string.
Proof.
  intros Hl Hs.
  destruct (is_line_find l rest Hl) as [n [Hn Hf]].
  destruct (async_read_until incoming buf) as [[[ec rd] buf1] incoming1]
    eqn:Hr.
  apply async_read_until_stream in Hr. destruct Hr as [Hs1 Hf1].
  rewrite Hs, Hf in Hf1. destruct Hf1 as (-> & -> & Hf1).
  pose proof (find_lt _ _ _ Hf1) as Hlt.
  exists buf1, incoming1. rewrite Hn. split; [reflexivity|].
  rewrite Hs in Hs1. split.
  - rewrite <- (take_app_le buf1 (stream incoming1)) by lia.
    rewrite Hs1, <- Hn. apply take_app.
  - rewrite <- (erase_front_app_le buf1) by lia.
    rewrite Hs1, <- Hn. apply erase_front_app.
Qed.

(** A read when the stream holds no newline: it fails once the peer has
    closed. *)
Lemma async_read_until_partial (incoming : list string) (buf : string) :
  contains LF (buf ++ stream incoming) = false ->
  exists buf1 incoming1,
    async_read_until incoming buf = (ec_eof, 0, buf1, incoming1).
Proof.
  intros Hp. apply find_none_contains in Hp.
  destruct (async_read_until incoming buf) as [[[ec rd] buf1] incoming1]
    eqn:Hr.
  apply async_read_until_stream in Hr. destruct Hr as [_ Hf].
  rewrite Hp in Hf. destruct Hf as [-> ->]. eauto.
Qed.

Lemma client_read_loop_lines (ls : list string) :
  forall partial incoming buf fuel,
  Forall is_line ls ->
  contains LF partial = false ->
  (buf ++ stream incoming = stream ls ++ partial)%string ->
  List.length ls < fuel ->
  Client.read_loop fuel incoming buf = ls.
Proof.
  induction ls as [|l ls IH]; intros partial incoming buf fuel Hls Hp Hs Hfuel;
    (destruct fuel as [|fuel]; [simpl in Hfuel; lia|]); cbn [Client.read_loop].
  - simpl in Hs. rewrite <- Hs in Hp.
    destruct (async_read_until_partial _ _ Hp) as [buf1 [incoming1 ->]].
    reflexivity.
  - inversion Hls as [|? ? Hl Hrest]; subst.
    simpl in Hs. rewrite string_app_assoc in Hs.
    destruct (async_read_until_line _ _ _ _ Hl Hs)
      as [buf1 [incoming1 (-> & Ht & He)]].
    unfold Client.on_readed. rewrite Ht. f_equal.
    apply (IH partial); [exact Hrest | exact Hp | exact He |].
    simpl in Hfuel. lia.
Qed.

(** X5: The client prints the lines that the server sent, each once and in
    order, in whatever pieces they arrive; bytes after the last newline
    are never printed. *)
Theorem client_prints_the_lines_received
    (ls : list string) (partial : string) (pieces : list string)
    (fuel : nat) :
  Forall is_line ls ->
  contains LF partial = false ->
  stream pieces = (stream ls ++ partial)%string ->
  List.length ls < fuel ->
  Client.read_loop fuel pieces "" = ls.
Proof.
  intros Hls Hp Hs Hfuel. now apply (client_read_loop_lines ls partial).
Qed.

Lemma client_prints_the_lines_received_witness :
  Client.read_loop 3
    ["k 0x0" ++ String LF "j"; " 0x1" ++ String LF "par"]%string ""
  = ["k 0x0" ++ String LF ""; "j 0x1" ++ String LF ""]%string.
Proof.
  apply (client_prints_the_lines_received
           ["k 0x0" ++ String LF ""; "j 0x1" ++ String LF ""]%string "par").
  - constructor; [exists "k 0x0"; auto|].
    constructor; [exists "j 0x1"; auto|]. constructor.
  - reflexivity.
  - reflexivity.
  - simpl. lia.
Defined.

(** ** The terminal reader of the client *)



Lemma term_read_lines (ls : list string) :
  forall incoming buf fuel,
  Forall is_line ls ->
  ~ In exit_line ls ->
  List.length ls < fuel ->
  (forall rest,
     (buf ++ stream incoming = stream ls ++ exit_line ++ rest)%string ->
     TermReader.read fuel incoming buf = (ls, TermReader.stopped))
  /\ (forall partial,
        contains LF partial = false ->
        (buf ++ stream incoming = stream ls ++ partial)%string ->
        TermReader.read fuel incoming buf = (ls, TermReader.failed)).
Proof.
  induction ls as [|l ls IH]; intros incoming buf fuel Hls Hex Hfuel;
    (destruct fuel as [|fuel]; [simpl in Hfuel; lia|]);
    cbn [TermReader.read].
  - split.
    + intros rest Hs. simpl in Hs.
      assert (Hl : is_line exit_line) by (exists "exit"; auto).
      destruct (async_read_until_line _ _ _ _ Hl Hs)
        as [buf1 [incoming1 (-> & Ht & _)]].
      unfold TermReader.readed. rewrite Ht. reflexivity.
    + intros partial Hp Hs. simpl in Hs. rewrite <- Hs in Hp.
      destruct (async_read_until_partial _ _ Hp) as [buf1 [incoming1 ->]].
      reflexivity.
  - inversion Hls as [|? ? Hl Hrest]; subst.
    assert (Hne : String.eqb l exit_line = false).
    { apply String.eqb_neq. intros ->. apply Hex. now left. }
    assert (Hex' : ~ In exit_line ls) by (intros H; apply Hex; now right).
    assert (Hfuel' : List.length ls < fuel) by (simpl in Hfuel; lia).
    split.
    + intros rest Hs. simpl in Hs. rewrite string_app_assoc in Hs.
      destruct (async_read_until_line _ _ _ _ Hl Hs)
        as [buf1 [incoming1 (-> & Ht & He)]].
      unfold TermReader.readed. rewrite Ht. fold exit_line. rewrite Hne.
      destruct (IH incoming1 (erase_front (String.length l) buf1) fuel
                  Hrest Hex' Hfuel') as [IH1 _].
      now rewrite (IH1 rest He).
    + intros partial Hp Hs. simpl in Hs. rewrite string_app_assoc in Hs.
      destruct (async_read_until_line _ _ _ _ Hl Hs)
        as [buf1 [incoming1 (-> & Ht & He)]].
      unfold TermReader.readed. rewrite Ht. fold exit_line. rewrite Hne.
      destruct (IH incoming1 (erase_front (String.length l) buf1) fuel
                  Hrest Hex' Hfuel') as [_ IH2].
      now rewrite (IH2 partial Hp He).
Qed.

(** X6: The terminal reader passes on to [client::send] every line entered
    before the line [exit], each once, in order and as it was entered,
    whatever the pieces in which the input arrives; at the line [exit] it
    stops, and nothing entered after it is sent; when the input ends
    without that line, the lines entered are sent and the bytes after the
    last newline are not. *)
Theorem terminal_lines_are_sent_until_exit
    (ls : list string) (fuel : nat) :
  Forall is_line ls ->
  ~ In exit_line ls ->
  List.length ls < fuel ->
  (forall rest pieces,
     stream pieces = (stream ls ++ exit_line ++ rest)%string ->
     TermReader.read fuel pieces "" = (ls, TermReader.stopped))
  /\ (forall partial pieces,
        contains LF partial = false ->
        stream pieces = (stream ls ++ partial)%string ->
        TermReader.read fuel pieces "" = (ls, TermReader.failed)).
Proof.
  intros Hls Hex Hfuel. split.
  - intros rest pieces Hs.
    exact (proj1 (term_read_lines ls pieces "" fuel Hls Hex Hfuel) rest Hs).
  - intros partial pieces Hp Hs.
    exact (proj2 (term_read_lines ls pieces "" fuel Hls Hex Hfuel)
             partial Hp Hs).
Qed.

Lemma terminal_lines_are_sent_until_exit_witness :
  TermReader.read 2
    ["k v" ++ String LF "ex"; "it" ++ String LF "late 1" ++ String LF ""]%string
    ""
  = (["k v" ++ String LF ""]%string, TermReader.stopped).
Proof.
  assert (Hls : Forall is_line ["k v" ++ String LF ""]%string).
  { constructor; [exists "k v"; auto | constructor]. }
  assert (Hex : ~ In exit_line ["k v" ++ String LF ""]%string).
  { intros [H|[]]. discriminate H. }
  assert (Hfuel : List.length ["k v" ++ String LF ""]%string < 2)
    by (simpl; lia).
  apply (proj1 (terminal_lines_are_sent_until_exit _ 2 Hls Hex Hfuel)
           ("late 1" ++ String LF "")%string).
  reflexivity.
Defined.

Lemma contains_app (c : ascii) (s t : string) :
  contains c (s ++ t) = contains c s || contains c t.
Proof.
  induction s as [|a s IH]; simpl; [reflexivity|].
  now rewrite IH, orb_assoc.
Qed.

Lemma update_line_is_line (kv : shared_buffer * shared_buffer) :
  clean_key (fst kv) -> contains LF (snd kv) = false ->
  is_line (update_line kv) /\ update_line kv <> exit_line.
Proof.
  intros [Hsp Hlf] Hv. split.
  - exists (fst kv ++ String SP (snd kv))%string. split.
    + unfold update_line. rewrite string_app_assoc. reflexivity.
    + rewrite contains_app, Hlf. simpl. exact Hv.
  - intros He. apply (f_equal (contains SP)) in He.
    unfold update_line in He. rewrite contains_app in He. simpl in He.
    rewrite orb_true_r in He. discriminate He.
Qed.

(** X7: From the terminal of a client to the store: the lines
    [KEY SP VALUE LF] entered before [exit] are what the client sends,
    and the session that reads these bytes, in whatever pieces, submits
    the update of each [KEY] with [VALUE LF], in the order in which the
    lines were entered. *)
Theorem entered_updates_reach_the_server
    (kvs : list (shared_buffer * shared_buffer)) (rest : string)
    (entered : list string) (fuel : nat) :
  Forall (fun kv => clean_key (fst kv) /\ contains LF (snd kv) = false) kvs ->
  stream entered = (stream (map update_line kvs) ++ exit_line ++ rest)%string ->
  List.length kvs < fuel ->
  exists sent,
    TermReader.read fuel entered "" = (sent, TermReader.stopped)
    /\ forall pieces,
         stream pieces = stream sent ->
         read_loop fuel pieces "" = map submission kvs.
Proof.
  intros Hok Hs Hfuel. exists (map update_line kvs). split.
  - assert (Hls : Forall is_line (map update_line kvs)).
    { apply Forall_map. eapply Forall_impl; [|exact Hok].
      intros kv [Hk Hv]. now apply update_line_is_line. }
    assert (Hex : ~ In exit_line (map update_line kvs)).
    { rewrite in_map_iff. intros [kv [He Hin]].
      rewrite Forall_forall in Hok. destruct (Hok kv Hin) as [Hk Hv].
      now apply (proj2 (update_line_is_line kv Hk Hv)). }
    apply (proj1 (term_read_lines _ entered "" fuel Hls Hex
                    ltac:(now rewrite length_map)) rest).
    exact Hs.
  - intros pieces Hp. rewrite read_loop_stream. simpl. rewrite Hp.
    rewrite <- (string_app_nil (stream (map update_line kvs))).
    now apply read_loop_lines.
Qed.

Lemma entered_updates_reach_the_server_witness :
  exists sent,
    TermReader.read 3
      ["a 1" ++ String LF "b 2"; String LF ("exit" ++ String LF "")]%string ""
    = (sent, TermReader.stopped)
    /\ forall pieces,
         stream pieces = stream sent ->
         read_loop 3 pieces ""
         = map submission [("a", "1"); ("b", "2")].
Proof.
  apply (entered_updates_reach_the_server [("a", "1"); ("b", "2")] "").
  - repeat constructor.
  - reflexivity.
  - simpl. lia.
Defined.

(** ** The walk that brings a new session up to date *)

Lemma strand_walks_app (s : session_id) (a b : list state_task) :
  strand_walks s (a ++ b) = strand_walks s a ++ strand_walks s b.
Proof.
  induction a as [|[key val cb|key hash cb|s'|it s'] a IH]; simpl; auto;
    destruct (Nat.eqb s' s); simpl; now rewrite ?IH.
Qed.

Lemma exec_walks_app (a b : list session_task) :
  exec_walks (a ++ b) = exec_walks a ++ exec_walks b.
Proof.
  induction a as [|[it str|msg [n|it]] a IH]; simpl; auto; now rewrite IH.
Qed.

Lemma writing_walks_app (a b : list send_cb) :
  writing_walks (a ++ b) = writing_walks a ++ writing_walks b.
Proof.
  induction a as [|[n|it] a IH]; simpl; auto. now rewrite IH.
Qed.

Lemma sync_written_app (a b : list (shared_buffer * send_cb)) :
  sync_written (a ++ b) = sync_written a ++ sync_written b.
Proof.
  induction a as [|[msg [n|it]] a IH]; simpl; auto. now rewrite IH.
Qed.

Lemma strand_walks_callbacks (s : session_id)
    (calls : list (hash_cb * shared_buffer)) :
  strand_walks s (map hash_callback calls) = [].
Proof. induction calls as [|c calls IH]; simpl; auto. Qed.

Lemma was_stored_more apps a key hash :
  was_stored apps key hash -> was_stored (apps ++ a) key hash.
Proof.
  intros (n & cb & Hn). exists n, cb.
  rewrite nth_error_app1; [exact Hn|]. apply nth_error_Some. congruence.
Qed.

Lemma sync_line_ok_more apps a x :
  sync_line_ok apps x -> sync_line_ok (apps ++ a) x.
Proof.
  intros (hash & Hl & Hs). exists hash. split; [exact Hl|].
  now apply was_stored_more.
Qed.

Lemma walk_ok_more apps a ks x :
  walk_ok apps ks x -> walk_ok (apps ++ a) ks x.
Proof.
  destruct x; simpl; auto; intros [H1 H2]; split; auto;
    now apply sync_line_ok_more.
Qed.

(** The invariant of a session looks at what waits for it and at what
    was written to it only. *)
Lemma session_sync_ok_same apps a s strand strand' sess sess' :
  walks_of s strand' sess' = walks_of s strand sess ->
  sync_written (s_written sess') = sync_written (s_written sess) ->
  session_sync_ok apps s strand sess ->
  session_sync_ok (apps ++ a) s strand' sess'.
Proof.
  intros Hw Hk (H1 & H2 & H3 & H4). unfold session_sync_ok, sync_keys.
  rewrite Hw, Hk. repeat split; auto.
  - eapply Forall_impl; [|exact H2]. intros x. apply walk_ok_more.
  - eapply Forall_impl; [|exact H4]. intros x. apply sync_line_ok_more.
Qed.

Lemma session_sync_ok_same' apps s strand strand' sess sess' :
  walks_of s strand' sess' = walks_of s strand sess ->
  sync_written (s_written sess') = sync_written (s_written sess) ->
  session_sync_ok apps s strand sess ->
  session_sync_ok apps s strand' sess'.
Proof.
  intros Hw Hk H. rewrite <- (app_nil_r apps).
  eapply session_sync_ok_same; eauto.
Qed.

Lemma sync_inv_init : sync_inv server_init.
Proof.
  constructor; [|reflexivity].
  intros s. cbn [sessions server_init applied state_strand].
  assert (Hn : nth s [] new_session = new_session) by now destruct s.
  rewrite Hn. repeat split; simpl; auto; constructor.
Qed.

(** A change of one session that keeps what waits on its executor, what
    is being written and what was written. *)
Lemma sync_inv_session st k f :
  sync_inv st ->
  (forall x, s_exec (f x) = s_exec x /\ s_writing (f x) = s_writing x
             /\ s_written (f x) = s_written x) ->
  sync_inv (set_sessions st (update_nth k f (sessions st))).
Proof.
  intros [Hs Hf] Hsame. constructor; simpl.
  - intros s. specialize (Hs s).
    destruct (nth_update_nth_cases (sessions st) k f new_session s)
      as [-> | ->]; [exact Hs|].
    destruct (Hsame (nth s (sessions st) new_session)) as (He & Hw & Hx).
    eapply session_sync_ok_same'; [| |exact Hs].
    + unfold walks_of. now rewrite He, Hw.
    + now rewrite Hx.
  - intros s. rewrite update_nth_length. apply Hf.
Qed.

Lemma sync_inv_accept st : sync_inv st -> sync_inv (accept st).
Proof.
  intros [Hs Hf]. constructor; simpl.
  - intros s. rewrite nth_app_default. specialize (Hs s).
    destruct (Nat.eqb (List.length (sessions st)) s) eqn:E.
    + apply Nat.eqb_eq in E. subst s.
      rewrite (nth_overflow _ _ (le_n _)) in *.
      unfold session_sync_ok, walks_of, sync_keys.
      rewrite strand_walks_app, (Hf _ (le_n _)). simpl.
      rewrite Nat.eqb_refl. simpl. repeat split; auto; constructor; auto.
      simpl. reflexivity.
    + eapply session_sync_ok_same'; [| |exact Hs]; [|reflexivity].
      unfold walks_of. rewrite strand_walks_app. simpl. rewrite E.
      simpl. now rewrite app_nil_r.
  - intros s. rewrite length_app. simpl. intros Hlen.
    rewrite strand_walks_app, Hf by lia. simpl.
    destruct (Nat.eqb (List.length (sessions st)) s) eqn:E; [|reflexivity].
    apply Nat.eqb_eq in E. lia.
Qed.

Lemma sync_inv_receive st s bytes st' :
  sync_inv st -> receive st s bytes = Some st' -> sync_inv st'.
Proof.
  intros Hinv. unfold receive.
  destruct (nth_error (sessions st) s) as [sess|] eqn:Hs; [|discriminate].
  destruct (s_reading sess); [|discriminate]. intros [= <-].
  apply sync_inv_session; auto.
Qed.

Lemma sync_inv_readed st s sess ec rd :
  sync_inv st -> sync_inv (readed_step st s sess ec rd).
Proof.
  intros Hinv. unfold readed_step.
  destruct (on_readed (s_buf sess) ec rd) as [|buf|key val buf].
  - apply sync_inv_session; auto.
  - apply sync_inv_session; auto.
  - pose proof (sync_inv_session st s
                  (fun x => mk_session buf true (s_expired x) (s_exec x)
                              (s_writing x) (s_written x)) Hinv
                  ltac:(auto)) as [Hs Hf].
    constructor; simpl in *.
    + intros s'. eapply session_sync_ok_same'; [| |exact (Hs s')];
        [|reflexivity].
      unfold walks_of. rewrite strand_walks_app. simpl.
      now rewrite app_nil_r.
    + intros s' Hlen. rewrite strand_walks_app. simpl.
      rewrite app_nil_r. now apply Hf.
Qed.

Lemma sync_inv_read st s st' :
  sync_inv st -> read st s = Some st' -> sync_inv st'.
Proof.
  intros Hinv. unfold read.
  destruct (nth_error (sessions st) s) as [sess|]; [|discriminate].
  destruct (s_reading sess); [|discriminate].
  destruct (find LF (s_buf sess)); [|discriminate]. intros [= <-].
  now apply sync_inv_readed.
Qed.

Lemma sync_inv_read_error st s ec st' :
  sync_inv st -> read_error st s ec = Some st' -> sync_inv st'.
Proof.
  intros Hinv. unfold read_error.
  destruct (nth_error (sessions st) s) as [sess|]; [|discriminate].
  destruct ec; try discriminate;
    (destruct (s_reading sess); [|discriminate];
     destruct (find LF (s_buf sess)); [discriminate|]; intros [= <-];
     now apply sync_inv_readed).
Qed.

Lemma sync_inv_expire st s st' :
  sync_inv st -> expire st s = Some st' -> sync_inv st'.
Proof.
  intros Hinv. unfold expire.
  destruct (nth_error (sessions st) s) as [sess|]; [|discriminate].
  destruct (s_reading sess); [discriminate|]. intros [= <-].
  apply sync_inv_session; auto.
Qed.

Lemma sync_inv_hasher_strand st st' :
  sync_inv st -> hasher_strand st = Some st' -> sync_inv st'.
Proof.
  intros [Hs Hf]. unfold hasher_strand.
  destruct (hasher_strand_step (m_hasher st)) as [[h calls]|];
    [|discriminate].
  intros [= <-]. constructor; simpl.
  - intros s. eapply session_sync_ok_same'; [| |exact (Hs s)];
      [|reflexivity].
    unfold walks_of.
    now rewrite strand_walks_app, strand_walks_callbacks, app_nil_r.
  - intros s Hlen.
    now rewrite strand_walks_app, strand_walks_callbacks, app_nil_r, Hf.
Qed.

Lemma sync_inv_pool st i st' :
  sync_inv st -> pool st i = Some st' -> sync_inv st'.
Proof.
  intros [Hs Hf]. unfold pool.
  destruct (hasher_pool_step (m_hasher st) i); [|discriminate].
  intros [= <-]. constructor; simpl; auto.
Qed.

Lemma sync_inv_smgr_strand st st' :
  NoDup (m_list st) ->
  sync_inv st -> smgr_strand_step st = Some st' -> sync_inv st'.
Proof.
  intros Hnd [Hs Hf]. unfold smgr_strand_step.
  destruct (smgr_strand st) as [|[s|msg seq] strand]; [discriminate| |].
  - intros [= <-]. constructor; simpl; auto.
  - pose proof (broadcast_spec msg seq (m_list st) Hnd (sessions st))
      as (H1 & _ & _ & H4).
    destruct (broadcast (m_list st) msg seq (sessions st)) as [l ss].
    simpl in *. intros [= <-]. constructor; simpl.
    + intros s. destruct (proj1 (H4 s)) as [-> | ->]; [apply Hs|].
      eapply session_sync_ok_same'; [| |exact (Hs s)]; [|reflexivity].
      unfold walks_of. simpl. rewrite exec_walks_app. simpl.
      now rewrite app_nil_r.
    + intros s. rewrite H1. apply Hf.
Qed.

Lemma length_one_middle {A} (a b : list A) (x : A) :
  List.length (a ++ x :: b) <= 1 -> a = [] /\ b = [].
Proof.
  rewrite length_app. simpl. intros H.
  destruct a; [|simpl in H; lia]. destruct b; [auto|simpl in H; lia].
Qed.

Lemma app_nil_both {A} (a b : list A) : a ++ b = [] -> a = [] /\ b = [].
Proof. destruct a; [auto|discriminate]. Qed.

Lemma nth_update_nth_other {A} (l : list A) (k s : nat) (f : A -> A) (d : A) :
  s <> k -> nth s (update_nth k f l) d = nth s l d.
Proof.
  revert k s. induction l as [|y l IH]; intros k s Hne.
  - now destruct k.
  - destruct k as [|k], s as [|s]; simpl; auto; try lia.
Qed.

Lemma nth_update_nth_same {A} (l : list A) (k : nat) (f : A -> A) (d : A) :
  nth k (update_nth k f l) d = nth k l d
  \/ nth k (update_nth k f l) d = f (nth k l d).
Proof. apply nth_update_nth_cases. Qed.

(** An entry of the map was stored by a run of [hash_calculated]. *)
Lemma last_update_stored (apps : list application) (key hash : shared_buffer) :
  last_update key apps = Some hash -> was_stored apps key hash.
Proof.
  induction apps as [|[[cb k] h] apps IH]; simpl; [discriminate|].
  destruct (last_update key apps) as [later|].
  - intros [= ->]. destruct (IH eq_refl) as (n & cb' & Hn).
    now exists (S n), cb'.
  - destruct (String.eqb k key) eqn:E; [|discriminate].
    intros [= ->]. apply String.eqb_eq in E. subst k. now exists 0, cb.
Qed.

Lemma stored_entry (apps : list application) (key hash : shared_buffer) :
  In (key, hash) (run_operations [] (map operation_of apps)) ->
  was_stored apps key hash.
Proof.
  intros Hin. apply last_update_stored.
  assert (Hok : map_ok (run_operations [] (map operation_of apps)))
    by (apply run_operations_ok, map_ok_nil).
  pose proof (In_map_find _ _ _ Hok Hin) as Hf.
  rewrite (map_find_last_update apps [] map_ok_nil) in Hf.
  destruct (last_update key apps); [congruence|discriminate].
Qed.

Lemma map_next_after (it : node_iterator) (m : map_type) k h :
  map_next it m = Some (k, h) -> my_cmp it k = true /\ In (k, h) m.
Proof.
  induction m as [|[k' h'] m IH]; simpl; [discriminate|].
  destruct (my_cmp it k') eqn:E.
  - intros [= <- <-]. auto.
  - intros H. destruct (IH H). auto.
Qed.

(** What [on_got_message] posts: nothing at the end, and else the line of
    the entry that the state reported. *)
Lemma on_got_message_first (m : map_type) :
  on_got_message (get_first_impl m) = None
  \/ exists k h, In (k, h) m
       /\ on_got_message (get_first_impl m) = Some (k, line k h).
Proof.
  destruct m as [|[k h] m]; simpl; [now left|].
  right. exists k, h. auto.
Qed.

Lemma on_got_message_next (m : map_type) (it : node_iterator) :
  on_got_message (get_next_impl m it) = None
  \/ exists k h, In (k, h) m /\ my_cmp it k = true
       /\ on_got_message (get_next_impl m it) = Some (k, line k h).
Proof.
  unfold get_next_impl.
  destruct (map_next it m) as [[k h]|] eqn:Hn; simpl; [|now left].
  right. exists k, h. destruct (map_next_after _ _ _ _ Hn). auto.
Qed.

(** The walk of a session moves on from the strand of the state: the
    handler [t] at its head, which was all that waited for the session,
    is gone, and at most the line of an entry waits on the executor. *)
Lemma sync_got_message apps s0 t w strand ss
    (post : option (node_iterator * shared_buffer)) :
  (forall s, strand_walks s (t :: strand)
             = if Nat.eqb s0 s then w :: strand_walks s strand
               else strand_walks s strand) ->
  (forall s, session_sync_ok apps s (t :: strand) (nth s ss new_session)) ->
  (forall it str ks, post = Some (it, str) ->
     walk_ok apps ks w -> walk_ok apps ks (w_sync_send it str)) ->
  forall s,
    session_sync_ok apps s strand
      (nth s match post with
             | Some (it, str) => post_session s0 (t_sync_send it str) ss
             | None => ss
             end new_session).
Proof.
  intros Ht Hs Hpost s. specialize (Hs s).
  destruct (Nat.eqb s0 s) eqn:E.
  - apply Nat.eqb_eq in E. subst s0.
    destruct Hs as (H1 & H2 & H3 & H4). unfold walks_of in H1, H2.
    rewrite Ht, Nat.eqb_refl in H1, H2. simpl in H1, H2.
    assert (Hnil : strand_walks s strand ++ exec_walks (s_exec (nth s ss new_session))
                   ++ writing_walks (s_writing (nth s ss new_session)) = []).
    { destruct (strand_walks s strand ++ _); [reflexivity|simpl in H1; lia]. }
    apply app_nil_both in Hnil. destruct Hnil as [Hn1 Hn2].
    apply app_nil_both in Hn2. destruct Hn2 as [Hn2 Hn3].
    inversion H2 as [|? ? Hw _]; subst.
    assert (Hsame : session_sync_ok apps s strand (nth s ss new_session)).
    { unfold session_sync_ok, walks_of. rewrite Hn1, Hn2, Hn3. simpl.
      repeat split; auto. }
    destruct post as [[it str]|]; [|exact Hsame].
    unfold post_session.
    destruct (nth_update_nth_same ss s
                (fun x => mk_session (s_buf x) (s_reading x) (s_expired x)
                            (s_exec x ++ [t_sync_send it str]) (s_writing x)
                            (s_written x)) new_session) as [-> | ->];
      [exact Hsame|].
    unfold session_sync_ok, walks_of, sync_keys. simpl.
    rewrite exec_walks_app, Hn1, Hn2, Hn3. simpl.
    split; [lia|]. split; [|split; [exact H3 | exact H4]].
    constructor; [|constructor].
    exact (Hpost it str _ eq_refl Hw).
  - assert (Hne : s <> s0) by (apply Nat.eqb_neq in E; congruence).
    assert (Hsame : session_sync_ok apps s strand (nth s ss new_session)).
    { eapply session_sync_ok_same'; [| |exact Hs]; [|reflexivity].
      unfold walks_of. now rewrite Ht, E. }
    destruct post as [[it str]|]; [|exact Hsame].
    unfold post_session. now rewrite nth_update_nth_other.
Qed.

Lemma got_message_length s r ss :
  List.length (got_message s r ss) = List.length ss.
Proof.
  unfold got_message. destruct (on_got_message r) as [[it str]|]; auto.
  unfold post_session. apply update_nth_length.
Qed.

Lemma sync_inv_state_strand st st' :
  m_map st = run_operations [] (map operation_of (applied st)) ->
  sync_inv st -> state_strand_step st = Some st' -> sync_inv st'.
Proof.
  intros Hm [Hs Hf]. unfold state_strand_step.
  destruct (state_strand st) as [|[key val cb|key hash cb|s0|it0 s0] strand]
    eqn:Hst; [discriminate| | | |].
  - intros [= <-]. constructor; simpl; auto.
  - destruct (hash_calculated (m_map st) key hash) as [m r]. intros [= <-].
    constructor; simpl; auto.
    intros s. eapply session_sync_ok_same; [| |exact (Hs s)]; reflexivity.
  - intros [= <-]. constructor; simpl.
    + unfold got_message.
      apply (sync_got_message _ s0 (t_get_first s0) w_get_first); auto.
      intros it str ks Hp Hw. simpl in Hw. subst ks.
      destruct (on_got_message_first (m_map st))
        as [Hn | (k & h & Hin & Hk)]; [congruence|].
      rewrite Hk in Hp. injection Hp as <- <-. split; [constructor|].
      exists h. split; [reflexivity|]. apply stored_entry.
      now rewrite <- Hm.
    + intros s. rewrite got_message_length. intros Hlen.
      specialize (Hf s Hlen). simpl in Hf.
      destruct (Nat.eqb s0 s); [discriminate|exact Hf].
  - intros [= <-]. constructor; simpl.
    + unfold got_message.
      apply (sync_got_message _ s0 (t_get_next it0 s0) (w_get_next it0));
        auto.
      intros it str ks Hp Hw. simpl in Hw.
      destruct (on_got_message_next (m_map st) it0)
        as [Hn | (k & h & Hin & Hlt & Hk)]; [congruence|].
      rewrite Hk in Hp. injection Hp as <- <-. split.
      * eapply Forall_impl; [|exact Hw]. simpl.
        intros k' [->|Hk']; [exact Hlt|].
        eapply my_cmp_trans; eauto.
      * exists h. split; [reflexivity|]. apply stored_entry.
        now rewrite <- Hm.
    + intros s. rewrite got_message_length. intros Hlen.
      specialize (Hf s Hlen). simpl in Hf.
      destruct (Nat.eqb s0 s); [discriminate|exact Hf].
Qed.

(** A change of one session that keeps it in order. *)
Lemma sync_inv_session_at st k f sess :
  sync_inv st ->
  nth_error (sessions st) k = Some sess ->
  session_sync_ok (applied st) k (state_strand st) (f sess) ->
  sync_inv (set_sessions st (update_nth k f (sessions st))).
Proof.
  intros [Hs Hf] Hk Hok. constructor; simpl.
  - intros s. rewrite (nth_update_nth _ _ _ _ _ Hk).
    destruct (Nat.eqb s k) eqn:E; [|apply Hs].
    apply Nat.eqb_eq in E. now subst s.
  - intros s. rewrite update_nth_length. apply Hf.
Qed.

Lemma sorted_keys_snoc (ks : list node_iterator) (it : node_iterator) :
  StronglySorted (fun a b => my_cmp a b = true) ks ->
  Forall (fun k => my_cmp k it = true) ks ->
  StronglySorted (fun a b => my_cmp a b = true) (ks ++ [it]).
Proof.
  induction ks as [|k ks IH]; simpl; intros Hs Hb.
  - repeat constructor.
  - inversion Hs; subst. inversion Hb; subst.
    constructor; [now apply IH|].
    apply Forall_app. split; [assumption|]. now repeat constructor.
Qed.

Lemma sync_inv_session_step st s st' :
  sync_inv st -> session_step st s = Some st' -> sync_inv st'.
Proof.
  intros Hinv. unfold session_step.
  destruct (nth_error (sessions st) s) as [sess|] eqn:Hsess; [|discriminate].
  pose proof (sync_sessions _ Hinv s) as Hs.
  rewrite (nth_error_nth _ _ _ Hsess) in Hs.
  destruct (s_exec sess) as [|[it str|msg [n|it]] exec] eqn:He;
    [discriminate| | |]; intros [= <-];
    eapply sync_inv_session_at; eauto.
  - (* the lambda of [on_got_message] calls [send] *)
    destruct Hs as (H1 & H2 & H3 & H4). unfold walks_of in H1, H2.
    rewrite He in H1, H2. simpl in H1, H2.
    destruct (length_one_middle _ _ _ H1) as [Hn1 Hn2].
    apply app_nil_both in Hn2. destruct Hn2 as [Hn2 Hn3].
    rewrite Hn1, Hn2, Hn3 in H2. simpl in H2.
    inversion H2 as [|? ? Hw _]; subst.
    unfold session_sync_ok, walks_of, sync_keys. simpl.
    rewrite exec_walks_app, Hn1, Hn2, Hn3. simpl.
    split; [lia|]. split; [|split; [exact H3 | exact H4]].
    constructor; [exact Hw | constructor].
  - (* [send_impl] of a broadcast *)
    eapply session_sync_ok_same'; [| |exact Hs].
    + unfold walks_of. simpl. rewrite He, writing_walks_app. simpl.
      now rewrite app_nil_r.
    + simpl. rewrite sync_written_app. simpl. now rewrite app_nil_r.
  - (* [send_impl] of a line of the walk *)
    destruct Hs as (H1 & H2 & H3 & H4). unfold walks_of in H1, H2.
    rewrite He in H1, H2. simpl in H1, H2.
    destruct (length_one_middle _ _ _ H1) as [Hn1 Hn2].
    apply app_nil_both in Hn2. destruct Hn2 as [Hn2 Hn3].
    rewrite Hn1, Hn2, Hn3 in H2. simpl in H2.
    inversion H2 as [|? ? Hw _]; subst. simpl in Hw. destruct Hw as [Hb Hl].
    unfold session_sync_ok, walks_of, sync_keys. simpl.
    rewrite writing_walks_app, sync_written_app, map_app, Hn1, Hn2, Hn3.
    simpl. split; [lia|]. split; [|split].
    + constructor; [|constructor]. simpl. apply Forall_app. split.
      * eapply Forall_impl; [|exact Hb]. simpl. auto.
      * repeat constructor.
    + now apply sorted_keys_snoc.
    + apply Forall_app. split; [exact H4|]. now repeat constructor.
Qed.

Lemma writing_walks_remove (w : list send_cb) (i : nat) (cb : send_cb) :
  nth_error w i = Some cb ->
  writing_walks w
  = writing_walks (firstn i w) ++ writing_walks [cb]
    ++ writing_walks (skipn (S i) w).
Proof.
  intros Hn. rewrite (nth_error_split_at _ _ _ Hn) at 1.
  rewrite writing_walks_app.
  change (cb :: skipn (S i) w) with ([cb] ++ skipn (S i) w).
  now rewrite writing_walks_app.
Qed.

Lemma sync_inv_written st s i ok st' :
  sync_inv st -> written st s i ok = Some st' -> sync_inv st'.
Proof.
  intros Hinv. unfold written.
  destruct (nth_error (sessions st) s) as [sess|] eqn:Hsess; [|discriminate].
  destruct (nth_error (s_writing sess) i) as [cb|] eqn:Hi; [|discriminate].
  pose proof (sync_sessions _ Hinv s) as Hs.
  rewrite (nth_error_nth _ _ _ Hsess) in Hs.
  set (f := fun x => mk_session (s_buf x) (s_reading x) (s_expired x)
                       (s_exec x)
                       (firstn i (s_writing x) ++ skipn (S i) (s_writing x))
                       (s_written x)).
  pose proof (writing_walks_remove _ _ _ Hi) as Hsplit.
  destruct cb as [n|it].
  - (* the write of a broadcast *)
    assert (H : sync_inv (set_sessions st (update_nth s f (sessions st)))).
    { eapply sync_inv_session_at; eauto.
      eapply session_sync_ok_same'; [| |exact Hs]; [|reflexivity].
      unfold walks_of. simpl. rewrite writing_walks_app, Hsplit. reflexivity. }
    destruct ok; intros [= <-]; exact H.
  - (* the write of a line of the walk *)
    destruct Hs as (H1 & H2 & H3 & H4). unfold walks_of in H1, H2.
    rewrite Hsplit in H1, H2. simpl in H1, H2.
    rewrite !app_assoc in H1, H2.
    destruct (length_one_middle _ _ _ H1) as [Hn1 Hn4].
    apply app_nil_both in Hn1. destruct Hn1 as [Hn1 Hn3].
    apply app_nil_both in Hn1. destruct Hn1 as [Hn1 Hn2].
    rewrite Hn1, Hn2, Hn3, Hn4 in H2. simpl in H2.
    inversion H2 as [|? ? Hw _]; subst.
    assert (Hf : session_sync_ok (applied st) s (state_strand st) (f sess)).
    { unfold session_sync_ok, walks_of, sync_keys. simpl.
      rewrite writing_walks_app, Hn1, Hn2, Hn3, Hn4. simpl.
      split; [lia|]. split; [constructor|]. split; [exact H3 | exact H4]. }
    pose proof (sync_inv_session_at st s f sess Hinv Hsess Hf) as [Hs' Hf'].
    destruct ok; intros [= <-]; [|constructor; assumption].
    assert (Hlen : s < List.length (sessions st))
      by (apply nth_error_Some; congruence).
    constructor; simpl in *.
    + intros s'. specialize (Hs' s').
      destruct (Nat.eqb s s') eqn:E.
      * apply Nat.eqb_eq in E. subst s'.
        rewrite (nth_update_nth _ _ _ _ _ Hsess), Nat.eqb_refl in Hs' |- *.
        unfold session_sync_ok, walks_of, sync_keys. simpl.
        rewrite strand_walks_app, writing_walks_app, Hn1, Hn2, Hn3, Hn4.
        simpl. rewrite Nat.eqb_refl. simpl.
        split; [lia|]. split; [|split; [exact H3 | exact H4]].
        constructor; [exact Hw | constructor].
      * eapply session_sync_ok_same'; [| |exact Hs']; [|reflexivity].
        unfold walks_of. rewrite strand_walks_app. simpl. rewrite E.
        simpl. now rewrite app_nil_r.
    + intros s' Hlen'. rewrite update_nth_length in Hlen'.
      rewrite strand_walks_app, (sync_fresh _ Hinv s' Hlen'). simpl.
      destruct (Nat.eqb s s') eqn:E; [|reflexivity].
      apply Nat.eqb_eq in E. lia.
Qed.

Lemma sync_inv_step st e st' :
  server_inv st -> server_data_inv st ->
  sync_inv st -> step st e = Some st' -> sync_inv st'.
Proof.
  intros Hinv Hdata Hsync.
  destruct e; simpl.
  - intros [= <-]. now apply sync_inv_accept.
  - apply sync_inv_receive; auto.
  - apply sync_inv_read; auto.
  - apply sync_inv_read_error; auto.
  - apply sync_inv_state_strand; auto. apply (dinv_map _ Hdata).
  - apply sync_inv_hasher_strand; auto.
  - apply sync_inv_pool; auto.
  - apply sync_inv_smgr_strand; auto.
    exact (NoDup_app_remove_r _ _ (proj1 (sinv_list _ Hinv))).
  - apply sync_inv_session_step; auto.
  - apply sync_inv_written; auto.
  - apply sync_inv_expire; auto.
Qed.

(** The three invariants together, along a run. *)
Lemma server_invs_run es : forall st st',
  server_inv st -> server_data_inv st -> sync_inv st ->
  run st es = Some st' ->
  server_inv st' /\ server_data_inv st' /\ sync_inv st'.
Proof.
  induction es as [|e es IH]; intros st st' Hinv Hdata Hsync; simpl.
  - intros [= <-]. auto.
  - destruct (step st e) as [st1|] eqn:Hstep; [|discriminate].
    apply IH.
    + eapply server_inv_step; eauto.
    + eapply server_data_inv_step; eauto.
    + eapply sync_inv_step; eauto.
Qed.

Lemma sync_written_In (w : list (shared_buffer * send_cb)) it msg :
  In (msg, cb_sync it) w <-> In (it, msg) (sync_written w).
Proof.
  induction w as [|[m [n|it']] w IH]; simpl; [tauto| |].
  - rewrite <- IH. split; [intros [H|H]; [discriminate|exact H] | auto].
  - rewrite <- IH. split; intros [H|H]; auto; left; congruence.
Qed.

(** X8: The lines of the walk that brings a session up to date are handed to
    [async_write] in strictly ascending order of their keys, so that none
    is sent twice; each is the line [KEY SP HASH LF] of a hash that the
    map did hold for the key, stored there by a run of [hash_calculated];
    and at no time does more than one step of the walk wait or run for a
    session. *)
Theorem snapshot_lines_ascend_and_were_stored
    (es : list event) (st : server) :
  run server_init es = Some st ->
  forall s sess,
    nth_error (sessions st) s = Some sess ->
    StronglySorted (fun a b => my_cmp a b = true)
      (map fst (sync_written (s_written sess)))
    /\ NoDup (map fst (sync_written (s_written sess)))
    /\ (forall it msg,
          In (msg, cb_sync it) (s_written sess) ->
          exists hash n cb,
            msg = line it hash
            /\ nth_error (applied st) n = Some (cb, it, hash))
    /\ List.length (walks st s) <= 1.
Proof.
  intros Hrun s sess Hs.
  destruct (server_invs_run es _ _ server_inv_init server_data_inv_init
              sync_inv_init Hrun) as (_ & _ & Hsync).
  pose proof (sync_sessions _ Hsync s) as (H1 & _ & H3 & H4).
  rewrite (nth_error_nth _ _ _ Hs) in H1, H3, H4.
  split; [exact H3|]. split; [|split].
  - clear - H3. unfold sync_keys in H3.
    induction H3 as [|k ks Hs IH Hk]; constructor; [|exact IH].
    intros Hin. rewrite Forall_forall in Hk.
    specialize (Hk _ Hin). now rewrite my_cmp_irrefl in Hk.
  - intros it msg Hin. apply sync_written_In in Hin.
    rewrite Forall_forall in H4.
    destruct (H4 _ Hin) as (hash & Hl & n & cb & Hn).
    exists hash, n, cb. auto.
  - unfold walks. now rewrite (nth_error_nth _ _ _ Hs).
Qed.

Lemma snapshot_lines_ascend_and_were_stored_witness :
  match run server_init
          [ev_accept; ev_receive 0 ("b 1" ++ String LF ("a 2" ++ String LF ""));
           ev_read 0; ev_read 0; ev_state_strand; ev_state_strand;
           ev_state_strand; ev_hasher_strand; ev_hasher_strand;
           ev_pool 0; ev_pool 0; ev_hasher_strand; ev_hasher_strand;
           ev_hasher_strand; ev_hasher_strand;
           ev_state_strand; ev_state_strand;
           ev_accept; ev_state_strand; ev_session 1; ev_session 1;
           ev_written 1 0 true; ev_state_strand; ev_session 1; ev_session 1]
  with
  | Some st =>
      map fst (sync_written (s_written (nth 1 (sessions st) new_session)))
      = ["a"; "b"]
      /\ NoDup (map fst (sync_written
                           (s_written (nth 1 (sessions st) new_session))))
  | None => False
  end.
Proof.
  destruct (run server_init _) as [st|] eqn:Hrun;
    [|vm_compute in Hrun; discriminate Hrun].
  destruct (nth_error (sessions st) 1) as [sess|] eqn:Hs.
  - pose proof (snapshot_lines_ascend_and_were_stored _ _ Hrun 1 sess Hs)
      as (_ & Hnd & _).
    rewrite (nth_error_nth _ _ _ Hs). split; [|exact Hnd].
    vm_compute in Hrun. injection Hrun as <-.
    vm_compute in Hs. injection Hs as <-. reflexivity.
  - vm_compute in Hrun. injection Hrun as <-. vm_compute in Hs.
    discriminate Hs.
Defined.

(** A run of [hash_calculated] is for the key of an accepted line, with
    the digest of its value. *)
Lemma applied_wire st n cb key hash :
  server_inv st -> server_data_inv st ->
  nth_error (applied st) n = Some (cb, key, hash) ->
  clean_key key /\ wire_hash hash.
Proof.
  intros Hinv Hdata Hn.
  assert (Hsub : nth_error (map sub_owed (submitted st)) n
                 = Some (cb, key, hash)).
  { rewrite (applied_prefix st Hinv), nth_error_app1; [exact Hn|].
    apply nth_error_Some. congruence. }
  rewrite nth_error_map in Hsub.
  destruct (nth_error (submitted st) n) as [[[cb' k] v]|] eqn:Hx;
    [|discriminate].
  injection Hsub as <- <- <-. split.
  - pose proof (dinv_keys _ Hdata) as Hk. rewrite Forall_forall in Hk.
    exact (Hk _ (nth_error_In _ _ Hx)).
  - apply sha1_hex_wire.
Qed.

(** X9: Whatever the server hands to [async_write], on any connection and
    in any run, is one line [KEY SP HASH LF]: the key holds neither
    space nor newline, and the hash is [0x] and forty lowercase
    hexadecimal digits; so a receiver finds the key before the first
    space and the hash between that space and the newline. *)
Theorem every_line_sent_is_well_formed (es : list event) (st : server) :
  run server_init es = Some st ->
  forall s sess msg cb,
    nth_error (sessions st) s = Some sess ->
    In (msg, cb) (s_written sess) ->
    wire_line msg
    /\ exists key hash,
         on_readed msg ec_success (String.length msg)
         = rd_update key (hash ++ String LF "")%string ""
         /\ msg = line key hash /\ wire_hash hash.
Proof.
  intros Hrun s sess msg cb Hs Hin.
  destruct (server_invs_run es _ _ server_inv_init server_data_inv_init
              sync_inv_init Hrun) as (Hinv & Hdata & Hsync).
  assert (H : exists key hash n cb',
             msg = line key hash
             /\ nth_error (applied st) n = Some (cb', key, hash)).
  { destruct cb as [n|it].
    - pose proof (dinv_sessions _ Hdata) as Hss. rewrite Forall_forall in Hss.
      destruct (Hss _ (nth_error_In _ _ Hs)) as [_ Hw].
      rewrite Forall_forall in Hw.
      destruct (Hw _ Hin) as (cb' & key & hash & Hn & Hm).
      exists key, hash, n, cb'. auto.
    - pose proof (sync_sessions _ Hsync s) as (_ & _ & _ & H4).
      rewrite (nth_error_nth _ _ _ Hs) in H4. rewrite Forall_forall in H4.
      apply sync_written_In in Hin.
      destruct (H4 _ Hin) as (hash & Hl & n & cb' & Hn).
      exists it, hash, n, cb'. auto. }
  destruct H as (key & hash & n & cb' & -> & Hn).
  destruct (applied_wire _ _ _ _ _ Hinv Hdata Hn) as [Hk Hh].
  split; [now exists key, hash|].
  exists key, hash. split; [|auto].
  assert (Hlf : contains LF hash = false).
  { destruct Hh as (digits & -> & Hlen & Hd). simpl.
    clear - Hd. induction digits as [|a d IH]; [reflexivity|].
    simpl in Hd. apply andb_true_iff in Hd. destruct Hd as [Ha Hd].
    simpl. rewrite (IH Hd), orb_false_r.
    destruct (Ascii.eqb a LF) eqn:E; [|reflexivity].
    apply Ascii.eqb_eq in E. subst a. discriminate Ha. }
  destruct Hk as [Hsp Hlf'].
  destruct (on_readed_line key hash "" Hsp Hlf' Hlf) as [_ Hr].
  unfold line. simpl.
  replace (String.length (key ++ String SP (hash ++ String LF "")))
    with (S (String.length key + S (String.length hash))); [exact Hr|].
  rewrite string_length_app. simpl. rewrite string_length_app. simpl. lia.
Qed.

Lemma every_line_sent_is_well_formed_witness :
  match run server_init
          [ev_accept; ev_smgr_strand; ev_state_strand;
           ev_receive 0 ("k v" ++ String LF ""); ev_read 0;
           ev_state_strand; ev_hasher_strand; ev_pool 0;
           ev_hasher_strand; ev_hasher_strand; ev_state_strand;
           ev_smgr_strand; ev_session 0]
  with
  | Some st =>
      exists sess msg,
        nth_error (sessions st) 0 = Some sess
        /\ s_written sess = [(msg, cb_broadcast 0)]
        /\ wire_line msg
  | None => False
  end.
Proof.
  destruct (run server_init _) as [st|] eqn:Hrun;
    [|vm_compute in Hrun; discriminate Hrun].
  destruct (nth_error (sessions st) 0) as [sess|] eqn:Hs.
  - destruct (s_written sess) as [|[msg cb] w] eqn:Hw.
    + vm_compute in Hrun. injection Hrun as <-.
      vm_compute in Hs. injection Hs as <-. discriminate Hw.
    + destruct (every_line_sent_is_well_formed _ _ Hrun 0 sess msg cb Hs)
        as [Hwire _]; [rewrite Hw; now left|].
      exists sess, msg. split; [reflexivity|]. split; [|exact Hwire].
      vm_compute in Hrun. injection Hrun as <-.
      vm_compute in Hs. injection Hs as <-.
      vm_compute in Hw. injection Hw as <- <- <-. reflexivity.
  - vm_compute in Hrun. injection Hrun as <-. discriminate Hs.
Defined.

(** ** What ends does not start again *)

(** The loop of [broadcast] changes a session by posting to its
    executor only. *)
Lemma broadcast_posts (msg : shared_buffer) (seq : nat) (l : list session_id) :
  forall ss,
    List.length (snd (broadcast l msg seq ss)) = List.length ss
    /\ forall s, exists extra,
         nth s (snd (broadcast l msg seq ss)) new_session
         = (fun x => mk_session (s_buf x) (s_reading x) (s_expired x)
                       (s_exec x ++ extra) (s_writing x) (s_written x))
             (nth s ss new_session)
         /\ Forall (fun t => t = t_send_impl msg (cb_broadcast seq)) extra.
Proof.
  assert (Hnil : forall ss s, exists extra,
            nth s ss new_session
            = (fun x => mk_session (s_buf x) (s_reading x) (s_expired x)
                          (s_exec x ++ extra) (s_writing x) (s_written x))
                (nth s ss new_session)
            /\ Forall (fun t => t = t_send_impl msg (cb_broadcast seq)) extra).
  { intros ss s. exists []. split; [|constructor].
    destruct (nth s ss new_session). simpl. now rewrite app_nil_r. }
  induction l as [|k l IH]; intros ss; simpl.
  - split; [reflexivity|]. apply Hnil.
  - destruct (nth_error ss k) as [sess|] eqn:Hk; [|apply IH].
    destruct (s_expired sess); [apply IH|].
    set (t := t_send_impl msg (cb_broadcast seq)).
    destruct (IH (post_session k t ss)) as [Hlen Hs].
    destruct (broadcast l msg seq (post_session k t ss)) as [l' ss'].
    simpl in *. split.
    + rewrite Hlen. unfold post_session. apply update_nth_length.
    + intros s. destruct (Hs s) as (extra & He & Hx). unfold post_session in He.
      rewrite (nth_update_nth _ _ _ _ _ Hk) in He.
      destruct (Nat.eqb s k) eqn:E.
      * apply Nat.eqb_eq in E. subst s. exists (t :: extra).
        rewrite He, (nth_error_nth _ _ _ Hk). simpl.
        rewrite <- app_assoc. split; [reflexivity|]. now constructor.
      * exists extra. auto.
Qed.

Lemma exec_walks_broadcast msg seq (extra : list session_task) :
  Forall (fun t => t = t_send_impl msg (cb_broadcast seq)) extra ->
  exec_walks extra = [].
Proof.
  induction 1 as [|t extra Ht _ IH]; [reflexivity|]. now subst t.
Qed.

Lemma strand_walks_nil_cons s t strand :
  strand_walks s (t :: strand) = [] ->
  strand_walks s strand = []
  /\ (forall s', t = t_get_first s' -> s' <> s)
  /\ (forall it s', t = t_get_next it s' -> s' <> s).
Proof.
  destruct t as [key val cb|key hash cb|s0|it0 s0]; simpl;
    try (intros ->; repeat split; congruence);
    (destruct (Nat.eqb s0 s) eqn:E; [discriminate|]);
    apply Nat.eqb_neq in E; intros ->; repeat split; congruence.
Qed.

Lemma got_message_other s0 s r ss :
  s0 <> s ->
  nth s (got_message s0 r ss) new_session = nth s ss new_session.
Proof.
  intros Hne. unfold got_message.
  destruct (on_got_message r) as [[it str]|]; [|reflexivity].
  unfold post_session. apply nth_update_nth_other. congruence.
Qed.

(** Once nothing of the walk of a session waits or runs, nothing of it
    ever does again, and no line of the walk is written any more. *)
Lemma walk_over_step st e st' s :
  s < List.length (sessions st) ->
  walks st s = [] ->
  step st e = Some st' ->
  s < List.length (sessions st')
  /\ walks st' s = []
  /\ sync_written (s_written (nth s (sessions st') new_session))
     = sync_written (s_written (nth s (sessions st) new_session)).
Proof.
  intros Hlen Hw.
  assert (Hsess : forall k f,
            (forall x, s_exec (f x) = s_exec x /\ s_writing (f x) = s_writing x
                       /\ s_written (f x) = s_written x) ->
            forall strand,
            strand_walks s strand = strand_walks s (state_strand st) ->
            s < List.length (update_nth k f (sessions st))
            /\ walks_of s strand
                 (nth s (update_nth k f (sessions st)) new_session) = []
            /\ sync_written
                 (s_written (nth s (update_nth k f (sessions st)) new_session))
               = sync_written (s_written (nth s (sessions st) new_session))).
  { intros k f Hf strand Hst. rewrite update_nth_length.
    split; [exact Hlen|].
    destruct (nth_update_nth_cases (sessions st) k f new_session s)
      as [-> | ->].
    - split; [|reflexivity]. unfold walks, walks_of in *. now rewrite Hst.
    - destruct (Hf (nth s (sessions st) new_session)) as (He & Hwr & Hx).
      unfold walks, walks_of in *. now rewrite He, Hwr, Hx, Hst. }
  unfold walks in Hw. unfold walks_of in Hw.
  apply app_nil_both in Hw. destruct Hw as [Hw1 Hw2].
  apply app_nil_both in Hw2. destruct Hw2 as [Hw2 Hw3].
  destruct e as [|s0 bytes|s0|s0 ec| | |i| |s0|s0 i ok|s0]; simpl.
  - (* accept *)
    intros [= <-]. unfold walks, walks_of. simpl.
    rewrite length_app, nth_app_default, strand_walks_app, Hw1, Hw2, Hw3.
    simpl. split; [lia|]. split; [|reflexivity].
    destruct (Nat.eqb (List.length (sessions st)) s) eqn:E; [|reflexivity].
    apply Nat.eqb_eq in E. lia.
  - (* receive *)
    unfold receive.
    destruct (nth_error (sessions st) s0) as [sess|]; [|discriminate].
    destruct (s_reading sess); [|discriminate]. intros [= <-].
    unfold walks. simpl. apply Hsess; auto.
  - (* read *)
    unfold read.
    destruct (nth_error (sessions st) s0) as [sess|]; [|discriminate].
    destruct (s_reading sess); [|discriminate].
    destruct (find LF (s_buf sess)); [|discriminate]. intros [= <-].
    unfold readed_step, walks.
    destruct (on_readed _ _ _); simpl; apply Hsess; auto.
    rewrite strand_walks_app. simpl. now rewrite app_nil_r.
  - (* read_error *)
    unfold read_error.
    destruct (nth_error (sessions st) s0) as [sess|]; [|discriminate].
    destruct ec; try discriminate;
      (destruct (s_reading sess); [|discriminate];
       destruct (find LF (s_buf sess)); [discriminate|]; intros [= <-];
       unfold readed_step, walks; simpl; apply Hsess; auto).
  - (* the strand of the state *)
    unfold state_strand_step.
    destruct (state_strand st) as [|t strand] eqn:Hst; [discriminate|].
    destruct (strand_walks_nil_cons _ _ _ Hw1) as (Hw1' & Hfirst & Hnext).
    destruct t as [key val cb|key hash cb|s0|it0 s0].
    + intros [= <-]. unfold walks, walks_of. simpl.
      now rewrite Hw1', Hw2, Hw3.
    + destruct (hash_calculated (m_map st) key hash) as [m r].
      intros [= <-]. unfold walks, walks_of. simpl.
      now rewrite Hw1', Hw2, Hw3.
    + intros [= <-]. unfold walks, walks_of. simpl.
      rewrite got_message_length, got_message_other by (now apply Hfirst).
      now rewrite Hw1', Hw2, Hw3.
    + intros [= <-]. unfold walks, walks_of. simpl.
      rewrite got_message_length, got_message_other
        by (now apply (Hnext it0)).
      now rewrite Hw1', Hw2, Hw3.
  - (* the strand of the hasher *)
    unfold hasher_strand.
    destruct (hasher_strand_step (m_hasher st)) as [[h calls]|];
      [|discriminate].
    intros [= <-]. unfold walks, walks_of. simpl.
    now rewrite strand_walks_app, strand_walks_callbacks, Hw1, Hw2, Hw3.
  - (* the pool *)
    unfold pool. destruct (hasher_pool_step (m_hasher st) i); [|discriminate].
    intros [= <-]. unfold walks, walks_of. simpl.
    now rewrite Hw1, Hw2, Hw3.
  - (* the strand of the registry *)
    unfold smgr_strand_step.
    destruct (smgr_strand st) as [|[s0|msg seq] strand]; [discriminate| |].
    + intros [= <-]. unfold walks, walks_of. simpl.
      now rewrite Hw1, Hw2, Hw3.
    + destruct (broadcast_posts msg seq (m_list st) (sessions st))
        as [Hl Hs].
      destruct (broadcast (m_list st) msg seq (sessions st)) as [l ss].
      simpl in *. intros [= <-]. unfold walks, walks_of. simpl.
      destruct (Hs s) as (extra & -> & Hx). simpl.
      rewrite Hl, exec_walks_app, (exec_walks_broadcast _ _ _ Hx).
      now rewrite Hw1, Hw2, Hw3.
  - (* the executor of a session *)
    unfold session_step.
    destruct (nth_error (sessions st) s0) as [sess|] eqn:Hs0; [|discriminate].
    destruct (Nat.eqb s s0) eqn:E.
    + apply Nat.eqb_eq in E. subst s0.
      rewrite (nth_error_nth _ _ _ Hs0) in Hw2, Hw3 |- *.
      destruct (s_exec sess) as [|[it str|msg [n|it]] exec] eqn:He;
        try discriminate.
      intros [= <-]. unfold walks, walks_of. simpl.
      rewrite update_nth_length, (nth_update_nth _ _ _ _ _ Hs0), Nat.eqb_refl.
      simpl. simpl in Hw2.
      rewrite writing_walks_app, sync_written_app, Hw1, Hw2, Hw3. simpl.
      now rewrite app_nil_r.
    + assert (Hne : s <> s0) by (now apply Nat.eqb_neq).
      destruct (s_exec sess) as [|[it str|msg cb] exec]; [discriminate| |];
        intros [= <-]; unfold walks, walks_of; simpl;
        rewrite update_nth_length, nth_update_nth_other by exact Hne;
        now rewrite Hw1, Hw2, Hw3.
  - (* a write completes *)
    unfold written.
    destruct (nth_error (sessions st) s0) as [sess|] eqn:Hs0; [|discriminate].
    destruct (nth_error (s_writing sess) i) as [cb|] eqn:Hi; [|discriminate].
    destruct (Nat.eqb s s0) eqn:E.
    + apply Nat.eqb_eq in E. subst s0.
      rewrite (nth_error_nth _ _ _ Hs0) in Hw3 |- *.
      rewrite (writing_walks_remove _ _ _ Hi) in Hw3.
      apply app_nil_both in Hw3. destruct Hw3 as [Hw3 Hw4].
      apply app_nil_both in Hw4. destruct Hw4 as [Hw4 Hw5].
      destruct cb as [n|it]; [|discriminate Hw4].
      rewrite (nth_error_nth _ _ _ Hs0) in Hw2. simpl in Hw5.
      destruct ok; intros [= <-]; unfold walks, walks_of;
        cbn [sessions set_sessions state_strand];
        rewrite update_nth_length, (nth_update_nth _ _ _ _ _ Hs0),
          Nat.eqb_refl;
        cbn [s_exec s_writing s_written];
        now rewrite writing_walks_app, Hw1, Hw2, Hw3, Hw5.
    + assert (Hne : s <> s0) by (now apply Nat.eqb_neq).
      assert (Hne' : Nat.eqb s0 s = false)
        by (apply Nat.eqb_neq; congruence).
      destruct ok, cb; intros [= <-]; unfold walks, walks_of; simpl;
        rewrite update_nth_length, nth_update_nth_other by exact Hne;
        rewrite ?strand_walks_app; simpl; rewrite ?Hne';
        now rewrite Hw1, Hw2, Hw3.
  - (* the session object goes away *)
    unfold expire.
    destruct (nth_error (sessions st) s0) as [sess|]; [|discriminate].
    destruct (s_reading sess); [discriminate|]. intros [= <-].
    unfold walks. simpl. apply Hsess; auto.
Qed.

Lemma walk_over_run es : forall st st' s,
  s < List.length (sessions st) ->
  walks st s = [] ->
  run st es = Some st' ->
  walks st' s = []
  /\ sync_written (s_written (nth s (sessions st') new_session))
     = sync_written (s_written (nth s (sessions st) new_session)).
Proof.
  induction es as [|e es IH]; intros st st' s Hlen Hw; simpl.
  - intros [= <-]. auto.
  - destruct (step st e) as [st1|] eqn:Hstep; [|discriminate].
    destruct (walk_over_step _ _ _ _ Hlen Hw Hstep) as (Hlen1 & Hw1 & Hk1).
    intros Hrun. destruct (IH _ _ _ Hlen1 Hw1 Hrun) as [Hw2 Hk2].
    split; [exact Hw2|]. now rewrite Hk2.
Qed.

(** X10: When the write of a line of the walk fails, [session::sent] returns
    without calling [on_get_first_sent]: the walk of that session is over
    for good.  Whatever the server does afterwards, no step of the walk
    waits or runs for the session again and no further line of the walk
    is handed to [async_write] for it, whatever entries the map holds
    beyond the line that failed. *)
Theorem failed_write_ends_the_walk
    (es es' : list event) (st st1 st2 : server) (s : session_id) (i : nat)
    (it : node_iterator) :
  run server_init es = Some st ->
  nth_error (s_writing (nth s (sessions st) new_session)) i
  = Some (cb_sync it) ->
  written st s i false = Some st1 ->
  run st1 es' = Some st2 ->
  walks st2 s = []
  /\ sync_written (s_written (nth s (sessions st2) new_session))
     = sync_written (s_written (nth s (sessions st) new_session)).
Proof.
  intros Hrun Hi Hwr Hrun'.
  destruct (server_invs_run es _ _ server_inv_init server_data_inv_init
              sync_inv_init Hrun) as (_ & _ & Hsync).
  pose proof (sync_sessions _ Hsync s) as (H1 & _).
  unfold written in Hwr.
  destruct (nth_error (sessions st) s) as [sess|] eqn:Hs; [|discriminate].
  rewrite (nth_error_nth _ _ _ Hs) in Hi, H1 |- *. rewrite Hi in Hwr.
  injection Hwr as <-.
  unfold walks_of in H1. rewrite (writing_walks_remove _ _ _ Hi) in H1.
  simpl in H1. rewrite !app_assoc in H1.
  destruct (length_one_middle _ _ _ H1) as [Hn1 Hn4].
  apply app_nil_both in Hn1. destruct Hn1 as [Hn1 Hn3].
  apply app_nil_both in Hn1. destruct Hn1 as [Hn1 Hn2].
  assert (Hlen : s < List.length (sessions st))
    by (apply nth_error_Some; congruence).
  eapply walk_over_run in Hrun'.
  - destruct Hrun' as [Hw Hk]. split; [exact Hw|]. rewrite Hk. simpl.
    now rewrite (nth_update_nth _ _ _ _ _ Hs), Nat.eqb_refl.
  - simpl. now rewrite update_nth_length.
  - unfold walks, walks_of. simpl.
    rewrite (nth_update_nth _ _ _ _ _ Hs), Nat.eqb_refl. simpl.
    simpl in Hn4. now rewrite writing_walks_app, Hn1, Hn2, Hn3, Hn4.
Qed.

Lemma failed_write_ends_the_walk_witness :
  match run server_init
          [ev_accept; ev_receive 0 ("b 1" ++ String LF ("a 2" ++ String LF ""));
           ev_read 0; ev_read 0; ev_state_strand; ev_state_strand;
           ev_state_strand; ev_hasher_strand; ev_hasher_strand;
           ev_pool 0; ev_pool 0; ev_hasher_strand; ev_hasher_strand;
           ev_hasher_strand; ev_hasher_strand;
           ev_state_strand; ev_state_strand;
           ev_accept; ev_state_strand; ev_session 1; ev_session 1]
  with
  | Some st =>
      match written st 1 0 false with
      | Some st1 =>
          match run st1 [ev_accept; ev_state_strand] with
          | Some st2 =>
              List.length (m_map st2) = 2
              /\ map fst (sync_written
                            (s_written (nth 1 (sessions st2) new_session)))
                 = ["a"]
          | None => False
          end
      | None => False
      end
  | None => False
  end.
Proof.
  destruct (run server_init _) as [st|] eqn:Hrun;
    [|vm_compute in Hrun; discriminate Hrun].
  destruct (written st 1 0 false) as [st1|] eqn:Hwr.
  - destruct (run st1 _) as [st2|] eqn:Hrun'.
    + assert (Hi : nth_error (s_writing (nth 1 (sessions st) new_session)) 0
                   = Some (cb_sync "a")).
      { vm_compute in Hrun. injection Hrun as <-. reflexivity. }
      destruct (failed_write_ends_the_walk _ _ _ _ _ 1 0 "a" Hrun Hi Hwr Hrun')
        as [_ Hk].
      rewrite Hk. vm_compute in Hrun. injection Hrun as <-.
      vm_compute in Hwr. injection Hwr as <-.
      vm_compute in Hrun'. injection Hrun' as <-. split; reflexivity.
    + vm_compute in Hrun. injection Hrun as <-.
      vm_compute in Hwr. injection Hwr as <-.
      vm_compute in Hrun'. discriminate Hrun'.
  - vm_compute in Hrun. injection Hrun as <-.
    vm_compute in Hwr. discriminate Hwr.
Defined.

Lemma submitted_by_app s a b :
  submitted_by s (a ++ b) = submitted_by s a ++ submitted_by s b.
Proof. apply filter_app. Qed.

(** Once the read of a session has ended, no step starts it again: its
    buffer stays as it is and no line of it is accepted. *)
Lemma closed_step st e st' s :
  s < List.length (sessions st) ->
  s_reading (nth s (sessions st) new_session) = false ->
  step st e = Some st' ->
  s < List.length (sessions st')
  /\ s_reading (nth s (sessions st') new_session) = false
  /\ s_buf (nth s (sessions st') new_session)
     = s_buf (nth s (sessions st) new_session)
  /\ submitted_by s (submitted st') = submitted_by s (submitted st).
Proof.
  intros Hlen Hr.
  assert (Hsess : forall k f,
            (forall x, s_reading (f x) = s_reading x /\ s_buf (f x) = s_buf x) ->
            s < List.length (update_nth k f (sessions st))
            /\ s_reading (nth s (update_nth k f (sessions st)) new_session)
               = false
            /\ s_buf (nth s (update_nth k f (sessions st)) new_session)
               = s_buf (nth s (sessions st) new_session)).
  { intros k f Hf. rewrite update_nth_length. split; [exact Hlen|].
    destruct (nth_update_nth_cases (sessions st) k f new_session s)
      as [-> | ->]; [auto|].
    destruct (Hf (nth s (sessions st) new_session)) as [-> ->]. auto. }
  assert (Hother : forall k f, s <> k ->
            s < List.length (update_nth k f (sessions st))
            /\ s_reading (nth s (update_nth k f (sessions st)) new_session)
               = false
            /\ s_buf (nth s (update_nth k f (sessions st)) new_session)
               = s_buf (nth s (sessions st) new_session)).
  { intros k f Hne. rewrite update_nth_length, nth_update_nth_other; auto. }
  assert (Hreading : forall s0 sess,
            nth_error (sessions st) s0 = Some sess -> s_reading sess = true ->
            s <> s0).
  { intros s0 sess Hs0 Ht ->. rewrite (nth_error_nth _ _ _ Hs0) in Hr.
    congruence. }
  destruct e as [|s0 bytes|s0|s0 ec| | |i| |s0|s0 i ok|s0]; simpl.
  - intros [= <-]. simpl. rewrite length_app, nth_app_default. simpl.
    repeat split; auto. lia.
  - unfold receive.
    destruct (nth_error (sessions st) s0) as [sess|] eqn:Hs0; [|discriminate].
    destruct (s_reading sess) eqn:Ht; [|discriminate]. intros [= <-]. simpl.
    destruct (Hother s0 (fun x => mk_session (s_buf x ++ bytes) (s_reading x)
                                    (s_expired x) (s_exec x) (s_writing x)
                                    (s_written x))
                (Hreading _ _ Hs0 Ht)) as (H1 & H2 & H3).
    auto.
  - unfold read.
    destruct (nth_error (sessions st) s0) as [sess|] eqn:Hs0; [|discriminate].
    destruct (s_reading sess) eqn:Ht; [|discriminate].
    destruct (find LF (s_buf sess)); [|discriminate]. intros [= <-].
    pose proof (Hreading _ _ Hs0 Ht) as Hne.
    unfold readed_step.
    destruct (on_readed _ _ _); simpl;
      (edestruct (Hother s0) as (H1 & H2 & H3); [exact Hne|]);
      repeat split; eauto.
    rewrite submitted_by_app. simpl.
    destruct (Nat.eqb s0 s) eqn:E; [|now rewrite app_nil_r].
    apply Nat.eqb_eq in E. congruence.
  - unfold read_error.
    destruct (nth_error (sessions st) s0) as [sess|] eqn:Hs0; [|discriminate].
    destruct ec; try discriminate;
      (destruct (s_reading sess) eqn:Ht; [|discriminate];
       destruct (find LF (s_buf sess)); [discriminate|]; intros [= <-];
       pose proof (Hreading _ _ Hs0 Ht) as Hne;
       unfold readed_step; simpl;
       (edestruct (Hother s0) as (H1 & H2 & H3); [exact Hne|]);
       repeat split; eauto).
  - unfold state_strand_step.
    destruct (state_strand st) as [|[key val cb|key hash cb|s0|it0 s0] strand];
      [discriminate| | | |].
    + intros [= <-]. simpl. auto.
    + destruct (hash_calculated (m_map st) key hash) as [m r].
      intros [= <-]. simpl. auto.
    + intros [= <-]. simpl. unfold got_message.
      destruct (on_got_message _) as [[it str]|]; [|auto].
      unfold post_session.
      edestruct Hsess as (H1 & H2 & H3); [|repeat split; eauto]. auto.
    + intros [= <-]. simpl. unfold got_message.
      destruct (on_got_message _) as [[it str]|]; [|auto].
      unfold post_session.
      edestruct Hsess as (H1 & H2 & H3); [|repeat split; eauto]. auto.
  - unfold hasher_strand.
    destruct (hasher_strand_step (m_hasher st)) as [[h calls]|];
      [|discriminate].
    intros [= <-]. simpl. auto.
  - unfold pool. destruct (hasher_pool_step (m_hasher st) i); [|discriminate].
    intros [= <-]. simpl. auto.
  - unfold smgr_strand_step.
    destruct (smgr_strand st) as [|[s0|msg seq] strand]; [discriminate| |].
    + intros [= <-]. simpl. auto.
    + destruct (broadcast_posts msg seq (m_list st) (sessions st))
        as [Hl Hs].
      destruct (broadcast (m_list st) msg seq (sessions st)) as [l ss].
      simpl in *. intros [= <-]. simpl.
      destruct (Hs s) as (extra & -> & Hx). simpl. rewrite Hl. auto.
  - unfold session_step.
    destruct (nth_error (sessions st) s0) as [sess|]; [|discriminate].
    destruct (s_exec sess) as [|[it str|msg cb] exec]; [discriminate| |];
      intros [= <-]; simpl;
      (edestruct Hsess as (H1 & H2 & H3); [|repeat split; eauto]); auto.
  - unfold written.
    destruct (nth_error (sessions st) s0) as [sess|]; [|discriminate].
    destruct (nth_error (s_writing sess) i) as [cb|]; [|discriminate].
    destruct ok, cb; intros [= <-]; simpl;
      (edestruct Hsess as (H1 & H2 & H3); [|repeat split; eauto]); auto.
  - unfold expire.
    destruct (nth_error (sessions st) s0) as [sess|]; [|discriminate].
    destruct (s_reading sess); [discriminate|]. intros [= <-]. simpl.
    edestruct Hsess as (H1 & H2 & H3); [|repeat split; eauto]. auto.
Qed.

Lemma closed_run es : forall st st' s,
  s < List.length (sessions st) ->
  s_reading (nth s (sessions st) new_session) = false ->
  run st es = Some st' ->
  s < List.length (sessions st')
  /\ s_reading (nth s (sessions st') new_session) = false
  /\ s_buf (nth s (sessions st') new_session)
     = s_buf (nth s (sessions st) new_session)
  /\ submitted_by s (submitted st') = submitted_by s (submitted st).
Proof.
  induction es as [|e es IH]; intros st st' s Hlen Hr; simpl.
  - intros [= <-]. auto.
  - destruct (step st e) as [st1|] eqn:Hstep; [|discriminate].
    destruct (closed_step _ _ _ _ Hlen Hr Hstep) as (H1 & H2 & H3 & H4).
    intros Hrun. destruct (IH _ _ _ H1 H2 Hrun) as (H5 & H6 & H7 & H8).
    repeat split; auto; congruence.
Qed.

(** X11: When a read of a session fails, be it that the peer closed,
    [on_readed] returns without starting another read, and nothing else
    in the server starts one: whatever the server does afterwards, no
    byte is taken from that connection and no line of it is accepted any
    more, while the session may still be sent lines. *)
Theorem read_error_ends_the_read_loop
    (st st1 st2 : server) (s : session_id) (ec : error_code)
    (es : list event) :
  read_error st s ec = Some st1 ->
  run st1 es = Some st2 ->
  submitted_by s (submitted st2) = submitted_by s (submitted st)
  /\ s_buf (nth s (sessions st2) new_session)
     = s_buf (nth s (sessions st) new_session)
  /\ read st2 s = None
  /\ (forall bytes, receive st2 s bytes = None)
  /\ (forall ec', read_error st2 s ec' = None).
Proof.
  intros Herr Hrun. unfold read_error in Herr.
  destruct (nth_error (sessions st) s) as [sess|] eqn:Hs; [|discriminate].
  assert (Hlen : s < List.length (sessions st))
    by (apply nth_error_Some; congruence).
  assert (H1 : st1 = readed_step st s sess ec 0 /\ ec <> ec_success).
  { destruct ec; try discriminate;
      (destruct (s_reading sess); [|discriminate];
       destruct (find LF (s_buf sess)); [discriminate|];
       injection Herr as <-; split; [reflexivity|discriminate]). }
  destruct H1 as [-> Hec].
  assert (Hst1 : readed_step st s sess ec 0
                 = set_sessions st
                     (update_nth s
                        (fun x => mk_session (s_buf sess) false (s_expired x)
                                    (s_exec x) (s_writing x) (s_written x))
                        (sessions st))).
  { unfold readed_step, on_readed. destruct ec; congruence. }
  rewrite Hst1 in Hrun.
  apply (closed_run es _ _ s) in Hrun.
  - destruct Hrun as (Hl2 & Hr2 & Hb2 & Hsub2). simpl in Hb2, Hsub2.
    rewrite (nth_update_nth _ _ _ _ _ Hs), Nat.eqb_refl in Hb2. simpl in Hb2.
    rewrite (nth_error_nth _ _ _ Hs).
    split; [exact Hsub2|]. split; [exact Hb2|].
    destruct (nth_error (sessions st2) s) as [sess2|] eqn:Hs2.
    + rewrite (nth_error_nth _ _ _ Hs2) in Hr2.
      unfold read, receive, read_error. rewrite Hs2, Hr2.
      repeat split; auto. intros []; reflexivity.
    + unfold read, receive, read_error. rewrite Hs2. auto.
  - simpl. now rewrite update_nth_length.
  - simpl. now rewrite (nth_update_nth _ _ _ _ _ Hs), Nat.eqb_refl.
Qed.

Lemma read_error_ends_the_read_loop_witness :
  match read_error (accept server_init) 0 ec_eof with
  | Some st1 =>
      match run st1 [ev_accept; ev_receive 1 ("k v" ++ String LF "");
                     ev_read 1] with
      | Some st2 =>
          List.length (submitted st2) = 1
          /\ submitted_by 0 (submitted st2) = []
          /\ forall bytes, receive st2 0 bytes = None
      | None => False
      end
  | None => False
  end.
Proof.
  destruct (read_error (accept server_init) 0 ec_eof) as [st1|] eqn:Herr;
    [|discriminate Herr].
  destruct (run st1 _) as [st2|] eqn:Hrun.
  - destruct (read_error_ends_the_read_loop _ _ _ _ _ _ Herr Hrun)
      as (Hsub & _ & _ & Hrecv & _).
    split; [|split; [exact Hsub | exact Hrecv]].
    vm_compute in Herr. injection Herr as <-.
    vm_compute in Hrun. injection Hrun as <-. reflexivity.
  - vm_compute in Herr. injection Herr as <-.
    vm_compute in Hrun. discriminate Hrun.
Defined.

(** ** The registry and the fan-out *)

Lemma changes_app (a b : list application) :
  forall m,
  changes m (a ++ b)
  = changes m a ++ changes (run_operations m (map operation_of a)) b.
Proof.
  induction a as [|[[cb key] hash] a IH]; intros m; simpl; [reflexivity|].
  unfold run_operations in *. simpl.
  destruct (hash_calculated m key hash) as [m' r] eqn:Hh. simpl.
  rewrite IH. now destruct (on_updated r).
Qed.

Lemma is_suffix_snoc {A} (l full x : list A) :
  is_suffix l full -> is_suffix (l ++ x) (full ++ x).
Proof. intros [pre ->]. exists pre. now rewrite app_assoc. Qed.

Lemma is_suffix_tail {A} (a : list A) (l full : list A) :
  is_suffix (a ++ l) full -> is_suffix l full.
Proof. intros [pre ->]. exists (pre ++ a). now rewrite <- app_assoc. Qed.

Lemma fanout_inv_init : fanout_inv server_init.
Proof.
  constructor; simpl.
  - now exists [].
  - intros s [].
  - intros s _ _. now destruct s.
  - intros s Hs. lia.
Qed.

(** A change of one session that keeps what reached it and whether it is
    alive. *)
Lemma fanout_inv_session st k f sess :
  fanout_inv st ->
  nth_error (sessions st) k = Some sess ->
  received (f sess) = received sess ->
  s_expired (f sess) = s_expired sess ->
  fanout_inv (set_sessions st (update_nth k f (sessions st))).
Proof.
  intros [H1 H2 H3 H4] Hk Hr He.
  assert (Hn : forall s,
            received (nth s (update_nth k f (sessions st)) new_session)
            = received (nth s (sessions st) new_session)
            /\ s_expired (nth s (update_nth k f (sessions st)) new_session)
               = s_expired (nth s (sessions st) new_session)).
  { intros s. rewrite (nth_update_nth _ _ _ _ _ Hk).
    destruct (Nat.eqb s k) eqn:E; [|auto].
    apply Nat.eqb_eq in E. subst s.
    now rewrite (nth_error_nth _ _ _ Hk), Hr, He. }
  constructor; simpl; auto.
  - intros s Hin Hx. destruct (Hn s) as [-> Hx']. rewrite Hx' in Hx. auto.
  - intros s Hin Hx. destruct (Hn s) as [-> Hx']. rewrite Hx' in Hx. auto.
  - intros s Hs. rewrite update_nth_length in Hs.
    destruct (Hn s) as [_ ->]. auto.
Qed.

Lemma fanout_inv_accept st :
  server_inv st -> fanout_inv st -> fanout_inv (accept st).
Proof.
  intros Hinv [H1 H2 H3 H4].
  destruct (sinv_list _ Hinv) as [Hnd Hlt].
  constructor; simpl.
  - rewrite smgr_seqs_app. simpl. now rewrite app_nil_r.
  - intros s Hin. rewrite nth_app_default, smgr_seqs_app. simpl.
    rewrite app_nil_r. now apply H2.
  - intros s Hin. rewrite nth_app_default. now apply H3.
  - intros s. rewrite length_app, nth_app_default, smgr_adds_app. simpl.
    intros Hs. destruct (Nat.eq_dec s (List.length (sessions st))) as [->|Hne].
    + left. rewrite app_assoc. apply in_or_app. right. now left.
    + destruct (H4 s) as [Hin|Hx]; [lia| |now right].
      left. rewrite app_assoc. apply in_or_app. now left.
Qed.

Lemma fanout_inv_readed st s sess ec rd :
  fanout_inv st -> nth_error (sessions st) s = Some sess ->
  fanout_inv (readed_step st s sess ec rd).
Proof.
  intros Hfan Hs. unfold readed_step.
  destruct (on_readed (s_buf sess) ec rd) as [|buf|key val buf].
  - eapply fanout_inv_session; eauto.
  - eapply fanout_inv_session; eauto.
  - pose proof (fanout_inv_session st s
                  (fun x => mk_session buf true (s_expired x) (s_exec x)
                              (s_writing x) (s_written x)) sess Hfan Hs
                  eq_refl eq_refl) as [H1 H2 H3 H4].
    constructor; simpl in *; auto.
Qed.

(** What the loop of [broadcast] does to each session: one that is in
    the list, accepted and alive is kept and gets the message once; any
    other is left as it is, and out of the list. *)
Lemma broadcast_exact (msg : shared_buffer) (seq : nat) (l : list session_id) :
  NoDup l ->
  forall ss s,
    let live := In s l /\ s < List.length ss
                /\ s_expired (nth s ss new_session) = false in
    (live ->
     In s (fst (broadcast l msg seq ss))
     /\ nth s (snd (broadcast l msg seq ss)) new_session
        = (fun x => mk_session (s_buf x) (s_reading x) (s_expired x)
                      (s_exec x ++ [t_send_impl msg (cb_broadcast seq)])
                      (s_writing x) (s_written x))
            (nth s ss new_session))
    /\ (~ live ->
        ~ In s (fst (broadcast l msg seq ss))
        /\ nth s (snd (broadcast l msg seq ss)) new_session
           = nth s ss new_session).
Proof.
  induction l as [|k l IH]; intros Hnd ss s; simpl.
  - split; [intros [[] _]|]. auto.
  - inversion Hnd as [|? ? Hk Hnd']; subst.
    destruct (nth_error ss k) as [sess|] eqn:Hsess.
    + assert (Hklen : k < List.length ss)
        by (apply nth_error_Some; congruence).
      destruct (s_expired sess) eqn:Hx.
      * destruct (IH Hnd' ss s) as [IH1 IH2]. split.
        -- intros ([->|Hin] & Hlen & Hlive).
           ++ rewrite (nth_error_nth _ _ _ Hsess) in Hlive. congruence.
           ++ now apply IH1.
        -- intros Hn. apply IH2. tauto.
      * set (t := t_send_impl msg (cb_broadcast seq)).
        assert (Hss1 : forall s', nth s' (post_session k t ss) new_session
                  = if Nat.eqb s' k
                    then mk_session (s_buf sess) (s_reading sess)
                           (s_expired sess) (s_exec sess ++ [t])
                           (s_writing sess) (s_written sess)
                    else nth s' ss new_session).
        { intros s'. unfold post_session.
          now rewrite (nth_update_nth _ _ _ _ _ Hsess). }
        assert (Hlen1 : List.length (post_session k t ss) = List.length ss)
          by (unfold post_session; apply update_nth_length).
        destruct (IH Hnd' (post_session k t ss) s) as [IH1 IH2].
        destruct (broadcast l msg seq (post_session k t ss)) as [l' ss']
          eqn:Hb.
        simpl in *. rewrite Hlen1, Hss1 in IH1, IH2.
        destruct (Nat.eqb s k) eqn:E.
        -- apply Nat.eqb_eq in E. subst s.
           rewrite (nth_error_nth _ _ _ Hsess).
           destruct IH2 as [_ IH2]; [tauto|]. split.
           ++ intros _. split; [now left|]. exact IH2.
           ++ intros Hn. exfalso. apply Hn. auto.
        -- assert (Hne : k <> s) by (apply Nat.eqb_neq in E; congruence).
           split.
           ++ intros ([->|Hin] & Hlen & Hlive); [congruence|].
              destruct IH1 as [IH1 IH1']; [auto|]. split; [now right|].
              exact IH1'.
           ++ intros Hn. destruct IH2 as [IH2 IH2']; [tauto|].
              split; [|exact IH2']. intros [->|Hin]; [congruence|tauto].
    + assert (Hklen : List.length ss <= k) by (now apply nth_error_None).
      destruct (IH Hnd' ss s) as [IH1 IH2]. split.
      * intros ([->|Hin] & Hlen & Hlive); [lia|]. now apply IH1.
      * intros Hn. apply IH2. tauto.
Qed.

Lemma received_post_sync k it str ss s :
  received (nth s (post_session k (t_sync_send it str) ss) new_session)
  = received (nth s ss new_session)
  /\ s_expired (nth s (post_session k (t_sync_send it str) ss) new_session)
     = s_expired (nth s ss new_session).
Proof.
  unfold post_session.
  destruct (nth_update_nth_cases ss k
              (fun x => mk_session (s_buf x) (s_reading x) (s_expired x)
                          (s_exec x ++ [t_sync_send it str]) (s_writing x)
                          (s_written x)) new_session s) as [-> | ->];
    [auto|].
  unfold received. simpl. rewrite exec_seqs_app. simpl.
  now rewrite app_nil_r.
Qed.

Lemma fanout_inv_got_message st strand s r :
  fanout_inv st ->
  fanout_inv
    (mk_server (m_map st) strand (m_hasher st) (m_list st) (smgr_strand st)
       (got_message s r (sessions st)) (submitted st) (applied st)).
Proof.
  intros [H1 H2 H3 H4]. unfold got_message.
  destruct (on_got_message r) as [[it str]|];
    [|constructor; simpl; auto].
  constructor; simpl; auto.
  - intros s' Hin Hx.
    destruct (received_post_sync s it str (sessions st) s') as [-> Hx'].
    rewrite Hx' in Hx. auto.
  - intros s' Hin Hx.
    destruct (received_post_sync s it str (sessions st) s') as [-> Hx'].
    rewrite Hx' in Hx. auto.
  - intros s' Hs. unfold post_session in Hs.
    rewrite update_nth_length in Hs.
    destruct (received_post_sync s it str (sessions st) s') as [_ ->]. auto.
Qed.

Lemma fanout_inv_state_strand st st' :
  server_inv st ->
  m_map st = run_operations [] (map operation_of (applied st)) ->
  fanout_inv st -> state_strand_step st = Some st' -> fanout_inv st'.
Proof.
  intros Hinv Hm Hfan. unfold state_strand_step.
  destruct (state_strand st) as [|[key val cb|key hash cb|s0|it0 s0] strand]
    eqn:Hst; [discriminate| | | |].
  - intros [= <-]. destruct Hfan as [H1 H2 H3 H4].
    constructor; simpl; auto.
  - destruct (hash_calculated (m_map st) key hash) as [m r] eqn:Hh.
    intros [= <-]. destruct Hfan as [H1 H2 H3 H4].
    assert (Hch : changes [] (applied st ++ [(cb, key, hash)])
                  = changes [] (applied st)
                    ++ smgr_seqs match on_updated r with
                                 | Some msg => [t_broadcast msg (cb_seq cb)]
                                 | None => []
                                 end).
    { rewrite changes_app, <- Hm. simpl. rewrite Hh.
      now destruct (on_updated r). }
    constructor; simpl; auto.
    + rewrite Hch, smgr_seqs_app. now apply is_suffix_snoc.
    + intros s Hin Hx. rewrite Hch, smgr_seqs_app, app_assoc.
      apply is_suffix_snoc. now apply H2.
    + intros s Hs. rewrite smgr_adds_app.
      destruct (H4 s Hs) as [Hin|Hx]; [left|now right].
      rewrite app_assoc. apply in_or_app. now left.
  - intros [= <-]. now apply fanout_inv_got_message.
  - intros [= <-]. now apply fanout_inv_got_message.
Qed.

Lemma fanout_inv_smgr_strand st st' :
  server_inv st ->
  fanout_inv st -> smgr_strand_step st = Some st' -> fanout_inv st'.
Proof.
  intros Hinv [H1 H2 H3 H4].
  destruct (sinv_list _ Hinv) as [Hnd Hlt].
  unfold smgr_strand_step.
  destruct (smgr_strand st) as [|[s0|msg seq] strand] eqn:Hst;
    [discriminate| |].
  - (* [add] *)
    intros [= <-]. simpl in *. constructor; simpl; auto.
    + intros s Hin Hx. apply in_app_or in Hin.
      destruct Hin as [Hin|[<-|[]]]; [now apply H2|].
      rewrite H3; [exact H1| |exact Hx].
      intros Hin. apply (NoDup_app_In _ _ _ Hnd Hin). now left.
    + intros s Hn Hx. apply H3; [|exact Hx].
      intros Hin. apply Hn, in_or_app. now left.
    + intros s Hs. destruct (H4 s Hs) as [Hin|Hx]; [left|now right].
      rewrite <- app_assoc. exact Hin.
  - (* [broadcast] *)
    simpl in *.
    assert (Hnd' : NoDup (m_list st)) by (eapply NoDup_app_remove_r; eauto).
    pose proof (broadcast_exact msg seq (m_list st) Hnd' (sessions st))
      as Hb.
    pose proof (broadcast_posts msg seq (m_list st) (sessions st))
      as [Hlen _].
    destruct (broadcast (m_list st) msg seq (sessions st)) as [l ss].
    simpl in *. intros [= <-].
    assert (Hlisted : forall s, In s (m_list st) ->
                        s < List.length (sessions st)).
    { intros s Hin. rewrite Forall_forall in Hlt. apply Hlt.
      apply in_or_app. now left. }
    constructor; simpl.
    + apply (is_suffix_tail [seq]). exact H1.
    + intros s Hin Hx.
      destruct (Hb s) as [Hlive Hdead].
      destruct (s_expired (nth s (sessions st) new_session)) eqn:Hx0.
      * destruct Hdead as [Hn _]; [intros (_ & _ & ?); congruence|].
        now destruct (Hn Hin).
      * destruct (in_dec Nat.eq_dec s (m_list st)) as [Hin0|Hn0].
        -- destruct Hlive as [_ Hs]; [auto|].
           rewrite Hs. unfold received. simpl.
           rewrite exec_seqs_app. simpl. rewrite <- !app_assoc. simpl.
           specialize (H2 s Hin0 Hx0). unfold received in H2.
           now rewrite <- app_assoc in H2.
        -- destruct Hdead as [Hn _]; [tauto|]. now destruct (Hn Hin).
    + intros s Hn Hx.
      destruct (Hb s) as [Hlive Hdead].
      destruct (in_dec Nat.eq_dec s (m_list st)) as [Hin0|Hn0].
      * destruct (s_expired (nth s (sessions st) new_session)) eqn:Hx0.
        -- destruct Hdead as [_ Hs]; [intros (_ & _ & ?); congruence|].
           rewrite Hs in Hx. congruence.
        -- destruct Hlive as [Hin _]; [auto|]. now destruct (Hn Hin).
      * destruct Hdead as [_ Hs]; [tauto|]. rewrite Hs in Hx |- *. auto.
    + intros s. rewrite Hlen. intros Hs.
      destruct (Hb s) as [Hlive Hdead].
      destruct (s_expired (nth s (sessions st) new_session)) eqn:Hx0.
      * right. destruct Hdead as [_ ->]; [intros (_ & _ & ?); congruence|].
        exact Hx0.
      * left. destruct (H4 s Hs) as [Hin|Hx]; [|congruence].
        apply in_app_or in Hin. apply in_or_app.
        destruct Hin as [Hin|Hin]; [left|now right].
        now apply Hlive.
Qed.

Lemma fanout_inv_session_step st s st' :
  fanout_inv st -> session_step st s = Some st' -> fanout_inv st'.
Proof.
  intros Hfan. unfold session_step.
  destruct (nth_error (sessions st) s) as [sess|] eqn:Hs; [|discriminate].
  destruct (s_exec sess) as [|[it str|msg cb] exec] eqn:He; [discriminate| |];
    intros [= <-]; eapply fanout_inv_session; eauto;
    unfold received; simpl; rewrite He.
  - rewrite exec_seqs_app. simpl. now rewrite app_nil_r.
  - rewrite written_seqs_app. destruct cb as [seq|it]; simpl.
    + now rewrite <- app_assoc.
    + now rewrite app_nil_r.
Qed.

Lemma fanout_inv_post_state st t :
  fanout_inv st -> fanout_inv (post_state st t).
Proof. intros [H1 H2 H3 H4]. constructor; simpl; auto. Qed.

Lemma fanout_inv_written st s i ok st' :
  fanout_inv st -> written st s i ok = Some st' -> fanout_inv st'.
Proof.
  intros Hfan. unfold written.
  destruct (nth_error (sessions st) s) as [sess|] eqn:Hs; [|discriminate].
  destruct (nth_error (s_writing sess) i) as [cb|]; [|discriminate].
  assert (H : fanout_inv
    (set_sessions st
       (update_nth s
          (fun x => mk_session (s_buf x) (s_reading x) (s_expired x)
                      (s_exec x)
                      (firstn i (s_writing x) ++ skipn (S i) (s_writing x))
                      (s_written x))
          (sessions st))))
    by (eapply fanout_inv_session; eauto).
  destruct ok, cb; intros [= <-]; auto.
  now apply fanout_inv_post_state.
Qed.

Lemma fanout_inv_expire st s st' :
  fanout_inv st -> expire st s = Some st' -> fanout_inv st'.
Proof.
  intros [H1 H2 H3 H4]. unfold expire.
  destruct (nth_error (sessions st) s) as [sess|] eqn:Hs; [|discriminate].
  destruct (s_reading sess); [discriminate|]. intros [= <-].
  assert (Hn : forall s',
            nth s' (update_nth s
                      (fun x => mk_session (s_buf x) (s_reading x) true
                                  (s_exec x) (s_writing x) (s_written x))
                      (sessions st)) new_session
            = if Nat.eqb s' s
              then mk_session (s_buf sess) (s_reading sess) true
                     (s_exec sess) (s_writing sess) (s_written sess)
              else nth s' (sessions st) new_session).
  { intros s'. now rewrite (nth_update_nth _ _ _ _ _ Hs). }
  constructor; simpl; auto.
  - intros s' Hin. rewrite Hn.
    destruct (Nat.eqb s' s); [discriminate|]. now apply H2.
  - intros s' Hin. rewrite Hn.
    destruct (Nat.eqb s' s); [discriminate|]. now apply H3.
  - intros s'. rewrite update_nth_length, Hn. intros Hlen.
    destruct (Nat.eqb s' s); [now right|]. now apply H4.
Qed.

Lemma fanout_inv_step st e st' :
  server_inv st -> server_data_inv st ->
  fanout_inv st -> step st e = Some st' -> fanout_inv st'.
Proof.
  intros Hinv Hdata Hfan.
  destruct e as [|s bytes|s|s ec| | |i| |s|s i ok|s]; simpl.
  - intros [= <-]. now apply fanout_inv_accept.
  - unfold receive.
    destruct (nth_error (sessions st) s) as [sess|] eqn:Hs; [|discriminate].
    destruct (s_reading sess); [|discriminate]. intros [= <-].
    eapply fanout_inv_session; eauto.
  - unfold read.
    destruct (nth_error (sessions st) s) as [sess|] eqn:Hs; [|discriminate].
    destruct (s_reading sess); [|discriminate].
    destruct (find LF (s_buf sess)); [|discriminate]. intros [= <-].
    now apply fanout_inv_readed.
  - unfold read_error.
    destruct (nth_error (sessions st) s) as [sess|] eqn:Hs; [|discriminate].
    destruct ec; try discriminate;
      (destruct (s_reading sess); [|discriminate];
       destruct (find LF (s_buf sess)); [discriminate|]; intros [= <-];
       now apply fanout_inv_readed).
  - apply fanout_inv_state_strand; auto. apply (dinv_map _ Hdata).
  - unfold hasher_strand.
    destruct (hasher_strand_step (m_hasher st)) as [[h calls]|];
      [|discriminate].
    intros [= <-]. destruct Hfan as [H1 H2 H3 H4]. constructor; simpl; auto.
  - unfold pool. destruct (hasher_pool_step (m_hasher st) i); [|discriminate].
    intros [= <-]. destruct Hfan as [H1 H2 H3 H4]. constructor; simpl; auto.
  - now apply fanout_inv_smgr_strand.
  - now apply fanout_inv_session_step.
  - now apply fanout_inv_written.
  - now apply fanout_inv_expire.
Qed.

Lemma fanout_inv_run es : forall st st',
  server_inv st -> server_data_inv st -> fanout_inv st ->
  run st es = Some st' ->
  server_inv st' /\ server_data_inv st' /\ fanout_inv st'.
Proof.
  induction es as [|e es IH]; intros st st' Hinv Hdata Hfan; simpl.
  - intros [= <-]. auto.
  - destruct (step st e) as [st1|] eqn:Hstep; [|discriminate].
    apply IH.
    + eapply server_inv_step; eauto.
    + eapply server_data_inv_step; eauto.
    + eapply fanout_inv_step; eauto.
Qed.

Lemma app_length_inj {A} (a a' b b' : list A) :
  List.length a = List.length a' -> a ++ b = a' ++ b' -> a = a'.
Proof.
  revert a'. induction a as [|x a IH]; intros [|x' a']; simpl;
    try discriminate; [reflexivity|].
  intros [= Hl] [= -> Happ]. f_equal. now apply IH.
Qed.

(** The runs of [hash_calculated] carry the numbers [0], [1], ... of the
    lines they belong to. *)
Lemma applied_numbers st :
  server_inv st ->
  map (fun a : application => cb_seq (fst (fst a))) (applied st)
  = seq 0 (List.length (applied st)).
Proof.
  intros Hinv. pose proof (applied_prefix st Hinv) as Hp.
  pose proof (sinv_seq _ Hinv) as Hseq.
  set (g := fun a : application => cb_seq (fst (fst a))).
  assert (Hg : map g (map sub_owed (submitted st))
               = seq 0 (List.length (submitted st)))
    by (rewrite map_map; exact Hseq).
  assert (Hlen : List.length (submitted st)
                 = List.length (map sub_owed (submitted st)))
    by (now rewrite length_map).
  rewrite Hlen, Hp in Hg. rewrite map_app, length_app, seq_app in Hg.
  apply app_length_inj in Hg; [exact Hg|].
  now rewrite length_map, length_seq.
Qed.



(** X13: The fan-out has no gaps.  Number the accepted lines in the order of
    acceptance, and call changes the numbers of the updates that changed
    the map, in the order in which [hash_calculated] applied them.  In
    every run, for every session that is in the list of the registry and
    alive, the broadcasts written to its socket, then those waiting on
    its executor, then those waiting on the strand of the registry, are
    together exactly the last changes, in order: from the first change
    that reached the session on, none is left out, repeated or out of
    order.  A session that is not in the list yet was sent no broadcast. *)
Theorem live_sessions_get_every_change (es : list event) (st : server) :
  run server_init es = Some st ->
  map (fun a : application => cb_seq (fst (fst a))) (applied st)
  = seq 0 (List.length (applied st))
  /\ forall s sess,
       nth_error (sessions st) s = Some sess ->
       s_expired sess = false ->
       (In s (m_list st) ->
        exists earlier,
          changes [] (applied st)
          = earlier ++ written_seqs (s_written sess)
            ++ exec_seqs (s_exec sess) ++ smgr_seqs (smgr_strand st))
       /\ (~ In s (m_list st) ->
           written_seqs (s_written sess) = []
           /\ exec_seqs (s_exec sess) = []).
Proof.
  intros Hrun.
  destruct (fanout_inv_run es _ _ server_inv_init server_data_inv_init
              fanout_inv_init Hrun) as (Hinv & _ & Hfan).
  split; [now apply applied_numbers|].
  intros s sess Hs Hx. split.
  - intros Hin. pose proof (fan_listed _ Hfan s Hin) as H.
    rewrite (nth_error_nth _ _ _ Hs) in H.
    destruct (H Hx) as [earlier He]. exists earlier.
    unfold received in He. now rewrite <- app_assoc in He.
  - intros Hn. pose proof (fan_unlisted _ Hfan s Hn) as H.
    rewrite (nth_error_nth _ _ _ Hs) in H.
    now apply app_nil_both in H.
Qed.

Lemma live_sessions_get_every_change_witness :
  match run server_init
          [ev_accept; ev_smgr_strand; ev_state_strand;
           ev_receive 0
             ("k v" ++ String LF ("k v" ++ String LF ("k w" ++ String LF "")));
           ev_read 0; ev_read 0; ev_read 0;
           ev_state_strand; ev_state_strand; ev_state_strand;
           ev_hasher_strand; ev_hasher_strand; ev_hasher_strand;
           ev_pool 2; ev_pool 1; ev_pool 0;
           ev_hasher_strand; ev_hasher_strand; ev_hasher_strand;
           ev_hasher_strand; ev_hasher_strand; ev_hasher_strand;
           ev_state_strand; ev_state_strand; ev_state_strand;
           ev_smgr_strand; ev_session 0]
  with
  | Some st =>
      changes [] (applied st) = [0; 2]
      /\ exists sess,
           nth_error (sessions st) 0 = Some sess
           /\ written_seqs (s_written sess) = [0]
           /\ exec_seqs (s_exec sess) = []
           /\ smgr_seqs (smgr_strand st) = [2]
  | None => False
  end.
Proof.
  destruct (run server_init _) as [st|] eqn:Hrun;
    [|vm_compute in Hrun; discriminate Hrun].
  destruct (nth_error (sessions st) 0) as [sess|] eqn:Hs.
  - assert (Hx : s_expired sess = false).
    { vm_compute in Hrun. injection Hrun as <-.
      vm_compute in Hs. injection Hs as <-. reflexivity. }
    assert (Hin : In 0 (m_list st)).
    { vm_compute in Hrun. injection Hrun as <-. now left. }
    destruct (live_sessions_get_every_change _ _ Hrun) as [_ H].
    destruct (proj1 (H 0 sess Hs Hx) Hin) as [earlier He].
    assert (Hw : written_seqs (s_written sess) = [0]
                 /\ exec_seqs (s_exec sess) = []
                 /\ smgr_seqs (smgr_strand st) = [2]).
    { vm_compute in Hrun. injection Hrun as <-.
      vm_compute in Hs. injection Hs as <-. auto. }
    destruct Hw as (Hw1 & Hw2 & Hw3). rewrite Hw1, Hw2, Hw3 in He.
    split; [|exists sess; auto].
    rewrite He. simpl.
    assert (Hl : List.length (changes [] (applied st)) = 2).
    { vm_compute in Hrun. injection Hrun as <-. reflexivity. }
    rewrite He, length_app in Hl. simpl in Hl.
    destruct earlier; [reflexivity|simpl in Hl; lia].
  - vm_compute in Hrun. injection Hrun as <-. discriminate Hs.
Defined.

(** ** The walk when nothing else runs *)

Lemma nth_error_update_nth_same {A} (l : list A) (k : nat) (f : A -> A) x :
  nth_error l k = Some x -> nth_error (update_nth k f l) k = Some (f x).
Proof.
  intros H. now rewrite nth_error_update_nth, Nat.eqb_refl, H.
Qed.

(** One entry of the walk: from the handler on the strand of the state
    to the next one, through the executor of the session and the
    write. *)
Lemma walk_round st s sess t k h :
  state_strand st = [t] ->
  walk_result (m_map st) t = Some (s, (false, Some k, Some k, Some h)) ->
  nth_error (sessions st) s = Some sess ->
  s_exec sess = [] -> s_writing sess = [] ->
  exists st',
    run st [ev_state_strand; ev_session s; ev_session s; ev_written s 0 true]
    = Some st'
    /\ m_map st' = m_map st
    /\ state_strand st' = [t_get_next k s]
    /\ nth_error (sessions st') s
       = Some (mk_session (s_buf sess) (s_reading sess) (s_expired sess)
                 [] [] (s_written sess ++ [walk_line (k, h)])).
Proof.
  intros Hst Ht Hs He Hw.
  assert (Hstep1 : state_strand_step st
            = Some (mk_server (m_map st) [] (m_hasher st) (m_list st)
                      (smgr_strand st)
                      (post_session s (t_sync_send k (line k h)) (sessions st))
                      (submitted st) (applied st))).
  { unfold state_strand_step. rewrite Hst.
    destruct t as [? ? ?|? ? ?|s0|it0 s0]; simpl in Ht; try discriminate;
      injection Ht as -> Hr; unfold got_message; now rewrite Hr. }
  cbn [run step]. rewrite Hstep1.
  set (st1 := mk_server _ _ _ _ _ _ _ _).
  assert (Hs1 : nth_error (sessions st1) s
                = Some (mk_session (s_buf sess) (s_reading sess)
                          (s_expired sess) [t_sync_send k (line k h)] []
                          (s_written sess))).
  { unfold st1, post_session. cbn [sessions].
    rewrite (nth_error_update_nth_same _ _ _ _ Hs). now rewrite He, Hw. }
  unfold session_step at 1. rewrite Hs1. cbn [s_exec app].
  set (st2 := set_sessions st1 _).
  assert (Hs2 : nth_error (sessions st2) s
                = Some (mk_session (s_buf sess) (s_reading sess)
                          (s_expired sess)
                          [t_send_impl (line k h) (cb_sync k)] []
                          (s_written sess))).
  { unfold st2. cbn [sessions set_sessions].
    now rewrite (nth_error_update_nth_same _ _ _ _ Hs1). }
  unfold session_step at 1. rewrite Hs2. cbn [s_exec].
  set (st3 := set_sessions st2 _).
  assert (Hs3 : nth_error (sessions st3) s
                = Some (mk_session (s_buf sess) (s_reading sess)
                          (s_expired sess) [] [cb_sync k]
                          (s_written sess ++ [(line k h, cb_sync k)]))).
  { unfold st3. cbn [sessions set_sessions].
    now rewrite (nth_error_update_nth_same _ _ _ _ Hs2). }
  unfold written. rewrite Hs3. cbn [s_writing nth_error].
  eexists. split; [reflexivity|].
  split; [reflexivity|]. split; [reflexivity|].
  cbn [sessions post_state set_sessions].
  now rewrite (nth_error_update_nth_same _ _ _ _ Hs3).
Qed.

(** The end of the walk: the handler reports the end, and nothing is
    posted. *)
Lemma walk_end st s t :
  state_strand st = [t] ->
  walk_result (m_map st) t = Some (s, (true, None, None, None)) ->
  exists st',
    run st [ev_state_strand] = Some st'
    /\ m_map st' = m_map st /\ state_strand st' = []
    /\ sessions st' = sessions st.
Proof.
  intros Hst Ht. cbn [run step]. unfold state_strand_step. rewrite Hst.
  destruct t as [? ? ?|? ? ?|s0|it0 s0]; simpl in Ht; try discriminate;
    injection Ht as -> Hr; unfold got_message; rewrite Hr; simpl;
    eexists; repeat split; reflexivity.
Qed.

Lemma run_app (a b : list event) : forall st,
  run st (a ++ b)
  = match run st a with
    | Some st1 => run st1 b
    | None => None
    end.
Proof.
  induction a as [|e a IH]; intros st; simpl; [reflexivity|].
  destruct (step st e); [apply IH|reflexivity].
Qed.

Lemma walk_events_run (s : session_id) (n : nat) :
  forall st sess t i,
  map_ok (m_map st) ->
  List.length (m_map st) = i + n ->
  state_strand st = [t] ->
  walk_result (m_map st) t = Some (s, result_at (m_map st) i) ->
  nth_error (sessions st) s = Some sess ->
  s_exec sess = [] -> s_writing sess = [] ->
  exists st',
    run st (walk_events s n) = Some st'
    /\ m_map st' = m_map st
    /\ state_strand st' = []
    /\ nth_error (sessions st') s
       = Some (mk_session (s_buf sess) (s_reading sess) (s_expired sess)
                 [] []
                 (s_written sess ++ map walk_line (skipn i (m_map st)))).
Proof.
  induction n as [|n IH]; intros st sess t i Hok Hlen Hst Ht Hs He Hw.
  - assert (Hend : result_at (m_map st) i = (true, None, None, None)).
    { unfold result_at.
      assert (Hn : nth_error (m_map st) i = None)
        by (apply nth_error_None; lia).
      now rewrite Hn. }
    rewrite Hend in Ht.
    destruct (walk_end st s t Hst Ht) as (st' & Hrun & Hm & Hst' & Hss).
    exists st'. split; [exact Hrun|]. split; [exact Hm|].
    split; [exact Hst'|]. rewrite Hss, Hs, skipn_all2 by lia. simpl.
    rewrite app_nil_r. destruct sess. simpl in *. now subst.
  - destruct (nth_error (m_map st) i) as [[k h]|] eqn:Hi;
      [|apply nth_error_None in Hi; lia].
    assert (Hr : result_at (m_map st) i = (false, Some k, Some k, Some h))
      by (unfold result_at; now rewrite Hi).
    rewrite Hr in Ht.
    destruct (walk_round st s sess t k h Hst Ht Hs He Hw)
      as (st1 & Hrun1 & Hm1 & Hst1 & Hs1).
    cbn [walk_events]. rewrite run_app, Hrun1.
    assert (Ht1 : walk_result (m_map st1) (t_get_next k s)
                  = Some (s, result_at (m_map st1) (S i))).
    { simpl. now rewrite Hm1, (get_next_impl_nth _ Hok i k h Hi). }
    assert (Hok1 : map_ok (m_map st1)) by (now rewrite Hm1).
    assert (Hlen1 : List.length (m_map st1) = S i + n)
      by (rewrite Hm1; lia).
    destruct (IH st1 _ (t_get_next k s) (S i) Hok1 Hlen1 Hst1 Ht1 Hs1
                eq_refl eq_refl)
      as (st' & Hrun & Hm & Hst' & Hs').
    exists st'. split; [exact Hrun|]. split; [congruence|].
    split; [exact Hst'|]. rewrite Hs'. cbn [s_buf s_reading s_expired s_written].
    rewrite Hm1, <- app_assoc, (skipn_nth_error _ _ _ Hi). reflexivity.
Qed.

(** X14: A session that is accepted while the strand of the state is idle,
    and whose walk is served with nothing else running in between, is
    sent the line of every entry of the map, each once and in ascending
    order of the keys, and then the walk is over. *)
Theorem new_session_is_sent_the_whole_map (es : list event) (st : server) :
  run server_init es = Some st ->
  state_strand st = [] ->
  exists st',
    run st (ev_accept
            :: walk_events (List.length (sessions st))
                 (List.length (m_map st)))
    = Some st'
    /\ m_map st' = m_map st
    /\ s_written (nth (List.length (sessions st)) (sessions st') new_session)
       = map walk_line (m_map st)
    /\ walks st' (List.length (sessions st)) = [].
Proof.
  intros Hrun Hidle.
  pose proof (server_data_inv_run es _ _ server_inv_init
                server_data_inv_init Hrun) as Hdata.
  assert (Hok : map_ok (m_map st)).
  { rewrite (dinv_map _ Hdata). apply run_operations_ok, map_ok_nil. }
  set (s := List.length (sessions st)).
  destruct (walk_events_run s (List.length (m_map st)) (accept st)
              new_session (t_get_first s) 0)
    as (st' & Hrun' & Hm & Hst' & Hs'); auto.
  - simpl. now rewrite Hidle.
  - simpl. unfold result_at. now destruct (m_map st) as [|[k h] m].
  - simpl. rewrite nth_error_app2 by lia. unfold s.
    now rewrite Nat.sub_diag.
  - exists st'. cbn [run step]. split; [exact Hrun'|].
    split; [exact Hm|]. rewrite (nth_error_nth _ _ _ Hs'). simpl.
    split; [reflexivity|].
    unfold walks, walks_of. rewrite Hst', (nth_error_nth _ _ _ Hs').
    reflexivity.
Qed.

Lemma new_session_is_sent_the_whole_map_witness :
  exists st st',
    run server_init
      [ev_accept; ev_receive 0 ("b 1" ++ String LF ("a 2" ++ String LF ""));
       ev_read 0; ev_read 0; ev_state_strand; ev_state_strand;
       ev_state_strand; ev_hasher_strand; ev_hasher_strand;
       ev_pool 0; ev_pool 0; ev_hasher_strand; ev_hasher_strand;
       ev_hasher_strand; ev_hasher_strand;
       ev_state_strand; ev_state_strand] = Some st
    /\ run st (ev_accept :: walk_events 1 2) = Some st'
    /\ map fst (s_written (nth 1 (sessions st') new_session))
       = [line "a" (sha1_hex ("2" ++ String LF "")%string);
          line "b" (sha1_hex ("1" ++ String LF "")%string)].
Proof.
  destruct (run server_init
              [ev_accept;
               ev_receive 0 ("b 1" ++ String LF ("a 2" ++ String LF ""));
               ev_read 0; ev_read 0; ev_state_strand; ev_state_strand;
               ev_state_strand; ev_hasher_strand; ev_hasher_strand;
               ev_pool 0; ev_pool 0; ev_hasher_strand; ev_hasher_strand;
               ev_hasher_strand; ev_hasher_strand;
               ev_state_strand; ev_state_strand]) as [st|] eqn:Hrun;
    [|vm_compute in Hrun; discriminate Hrun].
  assert (Hidle : state_strand st = []).
  { vm_compute in Hrun. injection Hrun as <-. reflexivity. }
  destruct (new_session_is_sent_the_whole_map _ _ Hrun Hidle)
    as (st' & Hrun' & _ & Hw & _).
  assert (Hst : List.length (sessions st) = 1 /\ List.length (m_map st) = 2
                /\ map fst (map walk_line (m_map st))
                   = [line "a" (sha1_hex ("2" ++ String LF "")%string);
                      line "b" (sha1_hex ("1" ++ String LF "")%string)]).
  { vm_compute in Hrun. injection Hrun as <-. vm_compute. auto. }
  destruct Hst as (Hl1 & Hl2 & Hl3). rewrite Hl1, Hl2 in Hrun'.
  rewrite Hl1 in Hw.
  exists st, st'. split; [reflexivity|]. split; [exact Hrun'|].
  now rewrite Hw.
Defined.

(** ** One line when nothing else runs *)

Lemma update_nth_twice {A} (l : list A) (k : nat) (f g : A -> A) :
  update_nth k g (update_nth k f l) = update_nth k (fun x => g (f x)) l.
Proof.
  revert k. induction l as [|y l IH]; intros [|k]; simpl; auto.
  now rewrite IH.
Qed.

Lemma update_nth_id {A} (l : list A) (k : nat) (f : A -> A) (x : A) :
  nth_error l k = Some x -> f x = x -> update_nth k f l = l.
Proof.
  revert k. induction l as [|y l IH]; intros [|k]; simpl; try discriminate.
  - intros [= ->] ->. reflexivity.
  - intros Hk Hf. now rewrite (IH _ Hk Hf).
Qed.

Lemma find_update_line (K V : shared_buffer) :
  clean_key K -> contains LF V = false ->
  find LF (update_line (K, V))
  = Some (String.length K + S (String.length V))
  /\ on_readed (update_line (K, V)) ec_success
       (S (String.length K + S (String.length V)))
     = rd_update K (V ++ String LF "")%string "".
Proof.
  intros [Hsp Hlf] Hv. exact (on_readed_line K V "" Hsp Hlf Hv).
Qed.

Opaque sha1_hex.

(** The hasher alone, from idle to idle: one job, its digest, its
    callback. *)
Lemma hasher_round {CB} (h : hasher CB) (str : shared_buffer) (cb : CB) :
  idle_hasher h ->
  exists h1 h2 h3 h4,
    hasher_strand_step (hash h str cb) = Some (h1, [])
    /\ hasher_pool_step h1 0 = Some h2
    /\ hasher_strand_step h2 = Some (h3, [])
    /\ hasher_strand_step h3 = Some (h4, [(cb, sha1_hex str)])
    /\ idle_hasher h4.
Proof.
  destruct h as [q calling n strand pool posted called].
  intros (Hq & Hc & Hs & Hp). simpl in Hq, Hc, Hs, Hp. subst.
  do 4 eexists.
  split; [unfold hash, hasher_strand_step; cbn; reflexivity|].
  split.
  { unfold hasher_pool_step, pool_job. cbn. rewrite Nat.eqb_refl.
    reflexivity. }
  split.
  { unfold hasher_strand_step, on_hashed. cbn. rewrite Nat.eqb_refl. cbn.
    rewrite Nat.eqb_refl. cbn. rewrite sha1_hex_not_empty. cbn.
    reflexivity. }
  split; [unfold hasher_strand_step; cbn; reflexivity|].
  repeat split.
Qed.

Lemma update_round st s sess (K V : shared_buffer) :
  state_strand st = [] ->
  idle_hasher (m_hasher st) ->
  nth_error (sessions st) s = Some sess ->
  s_reading sess = true -> s_buf sess = "" ->
  clean_key K -> contains LF V = false ->
  let val := (V ++ String LF "")%string in
  let cb := mk_update_cb s (List.length (submitted st)) in
  exists st',
    run st (update_events s (update_line (K, V))) = Some st'
    /\ m_map st' = fst (update (m_map st) K val)
    /\ state_strand st' = []
    /\ idle_hasher (m_hasher st')
    /\ m_list st' = m_list st
    /\ sessions st' = sessions st
    /\ smgr_strand st'
       = smgr_strand st
         ++ match on_updated (snd (update (m_map st) K val)) with
            | Some msg => [t_broadcast msg (List.length (submitted st))]
            | None => []
            end
    /\ submitted st' = submitted st ++ [(cb, K, val)]
    /\ applied st' = applied st ++ [(cb, K, sha1_hex val)].
Proof.
  intros Hst Hidle Hs Hr Hb HK HV val cb.
  destruct (find_update_line K V HK HV) as [Hfind Hread].
  destruct (hasher_round (m_hasher st) val (K, cb) Hidle)
    as (h1 & h2 & h3 & h4 & Hh1 & Hh2 & Hh3 & Hh4 & Hidle4).
  unfold update_events. cbn [run step].
  (* the bytes arrive *)
  unfold receive. rewrite Hs, Hr.
  set (st1 := set_sessions st _).
  assert (Hs1 : nth_error (sessions st1) s
                = Some (mk_session (update_line (K, V)) true (s_expired sess)
                          (s_exec sess) (s_writing sess) (s_written sess))).
  { unfold st1. cbn [sessions set_sessions].
    rewrite (nth_error_update_nth_same _ _ _ _ Hs). now rewrite Hb, Hr. }
  (* the read completes *)
  unfold read. rewrite Hs1. cbn [s_reading s_buf]. rewrite Hfind.
  unfold readed_step. cbn [s_buf]. rewrite Hread.
  assert (Hss : update_nth s
                  (fun x => mk_session "" true (s_expired x) (s_exec x)
                              (s_writing x) (s_written x))
                  (sessions st1) = sessions st).
  { unfold st1. cbn [sessions set_sessions]. rewrite update_nth_twice.
    apply (update_nth_id _ _ _ _ Hs). cbn.
    destruct sess. simpl in *. now subst. }
  rewrite Hss. unfold st1. cbn [m_map state_strand m_hasher m_list smgr_strand
                                 submitted applied set_sessions].
  rewrite Hst. cbn [app].
  (* [calculate_hash], the hasher, [hash_calculated] *)
  unfold state_strand_step at 1. cbn [state_strand m_map m_hasher m_list
    smgr_strand sessions submitted applied].
  unfold hasher_strand at 1. cbn [m_hasher]. fold val. fold cb.
  rewrite Hh1.
  cbn [m_map state_strand m_list smgr_strand sessions submitted applied
       map app].
  unfold pool. cbn [m_hasher]. rewrite Hh2.
  unfold hasher_strand at 1. cbn [m_hasher]. rewrite Hh3.
  cbn [m_map state_strand m_list smgr_strand sessions submitted applied
       map app].
  unfold hasher_strand at 1. cbn [m_hasher]. rewrite Hh4.
  cbn [m_map state_strand m_list smgr_strand sessions submitted applied
       map app hash_callback fst snd].
  unfold state_strand_step, update. cbn.
  destruct (hash_calculated (m_map st) K (sha1_hex val)) as [m' r].
  eexists. split; [reflexivity|]. cbn. repeat split; auto; apply Hidle4.
Qed.

Transparent sha1_hex.

(** X15: When nothing waits on the strand of the state and in the hasher, a
    line [KEY SP VALUE LF] that a reading session with an empty buffer
    receives is accepted, hashed and applied by eight steps, none of
    which is stuck: afterwards the map is what [update] makes of it, it
    holds the digest of [VALUE LF] for [KEY], the broadcast of the line
    waits on the strand of the registry exactly when [update] reports a
    change, and again nothing waits on the strand of the state and in
    the hasher. *)
Theorem line_is_applied_when_served
    (es : list event) (st : server) (s : session_id) (sess : session)
    (K V : shared_buffer) :
  run server_init es = Some st ->
  state_strand st = [] ->
  idle_hasher (m_hasher st) ->
  nth_error (sessions st) s = Some sess ->
  s_reading sess = true -> s_buf sess = "" ->
  clean_key K -> contains LF V = false ->
  exists st',
    run st (update_events s (update_line (K, V))) = Some st'
    /\ m_map st' = fst (update (m_map st) K (V ++ String LF "")%string)
    /\ map_find K (m_map st') = Some (K, sha1_hex (V ++ String LF "")%string)
    /\ smgr_strand st'
       = smgr_strand st
         ++ match on_updated (snd (update (m_map st) K (V ++ String LF "")%string))
            with
            | Some msg => [t_broadcast msg (List.length (submitted st))]
            | None => []
            end
    /\ state_strand st' = []
    /\ idle_hasher (m_hasher st')
    /\ sessions st' = sessions st.
Proof.
  intros Hrun Hst Hidle Hs Hr Hb HK HV.
  pose proof (server_data_inv_run es _ _ server_inv_init
                server_data_inv_init Hrun) as Hdata.
  assert (Hok : map_ok (m_map st)).
  { rewrite (dinv_map _ Hdata). apply run_operations_ok, map_ok_nil. }
  destruct (update_round st s sess K V Hst Hidle Hs Hr Hb HK HV)
    as (st' & Hrun' & Hm & Hst' & Hidle' & _ & Hss & Hsm & _).
  exists st'. split; [exact Hrun'|]. split; [exact Hm|].
  split; [rewrite Hm; now apply update_stores|].
  auto.
Qed.

Lemma line_is_applied_when_served_witness :
  match run server_init [ev_accept; ev_state_strand] with
  | Some st =>
      exists st',
        run st (update_events 0 (update_line ("k", "v"))) = Some st'
        /\ map_find "k" (m_map st')
           = Some ("k", sha1_hex ("v" ++ String LF "")%string)
  | None => False
  end.
Proof.
  destruct (run server_init [ev_accept; ev_state_strand]) as [st|] eqn:Hrun;
    [|discriminate Hrun].
  destruct (line_is_applied_when_served _ st 0 new_session "k" "v" Hrun)
    as (st' & Hrun' & _ & Hf & _);
    try (injection Hrun as <-; reflexivity).
  - injection Hrun as <-. repeat split.
  - split; reflexivity.
  - exists st'. auto.
Defined.

(** ** A session that joins while a key changes *)

Opaque sha1_hex.

Lemma update_first (K val : shared_buffer) :
  update [] K val
  = ([(K, sha1_hex val)], (true, Some K, Some (sha1_hex val))).
Proof. reflexivity. Qed.

Lemma update_second (K val1 val2 : shared_buffer) :
  sha1_hex val1 <> sha1_hex val2 ->
  update [(K, sha1_hex val1)] K val2
  = ([(K, sha1_hex val2)], (true, Some K, Some (sha1_hex val2))).
Proof.
  intros Hne. unfold update, hash_calculated. cbn.
  rewrite my_cmp_irrefl.
  apply String.eqb_neq in Hne. rewrite Hne. reflexivity.
Qed.

Lemma late_events_run (K V1 V2 : shared_buffer) :
  clean_key K -> contains LF V1 = false -> contains LF V2 = false ->
  sha1_hex (V1 ++ String LF "")%string <> sha1_hex (V2 ++ String LF "")%string ->
  exists st,
    run server_init (late_events K V1 V2) = Some st
    /\ quiet st
    /\ m_map st = [(K, sha1_hex (V2 ++ String LF "")%string)]
    /\ m_list st = [0; 1]
    /\ map s_expired (sessions st) = [false; false]
    /\ map s_written (sessions st)
       = [[(line K (sha1_hex (V1 ++ String LF "")%string), cb_broadcast 0);
           (line K (sha1_hex (V2 ++ String LF "")%string), cb_broadcast 1)];
          [(line K (sha1_hex (V2 ++ String LF "")%string), cb_broadcast 1);
           (line K (sha1_hex (V1 ++ String LF "")%string), cb_sync K)]].
Proof.
  intros HK HV1 HV2 Hne.
  set (h1 := sha1_hex (V1 ++ String LF "")%string) in *.
  set (h2 := sha1_hex (V2 ++ String LF "")%string) in *.
  unfold late_events. rewrite run_app.
  change (run server_init [ev_accept; ev_smgr_strand; ev_state_strand])
    with (Some (mk_server [] [] (@hasher_init hash_cb) [0] []
                  [new_session] [] [])).
  cbv beta iota.
  (* the first update *)
  rewrite run_app.
  destruct (update_round
              (mk_server [] [] (@hasher_init hash_cb) [0] [] [new_session]
                 [] [])
              0 new_session K V1)
    as (stB & -> & Hm & Hst & Hidle & Hl & Hss & Hsm & Hsub & Happ);
    try reflexivity; auto; [repeat split|].
  destruct stB as [m strand h l smgr ss sub app].
  cbn [m_map state_strand m_hasher m_list smgr_strand sessions submitted
       applied] in *.
  rewrite update_first in Hm, Hsm. cbn in Hm, Hsm, Hsub, Happ. subst.
  cbv beta iota.
  (* its broadcast; the second session is accepted *)
  rewrite run_app.
  match goal with
  | |- context [run ?st [ev_smgr_strand; ev_session 0; ev_written 0 0 true;
                         ev_accept; ev_smgr_strand; ev_state_strand]] =>
      let r := eval cbn in
        (run st [ev_smgr_strand; ev_session 0; ev_written 0 0 true;
                 ev_accept; ev_smgr_strand; ev_state_strand]) in
      change (run st [ev_smgr_strand; ev_session 0; ev_written 0 0 true;
                      ev_accept; ev_smgr_strand; ev_state_strand]) with r
  end.
  cbv beta iota.
  (* the second update *)
  rewrite run_app.
  match goal with
  | |- context [run ?st (update_events 0 (update_line (K, V2)))] =>
      destruct (update_round st 0
                  (mk_session "" true false [] []
                     [(line K h1, cb_broadcast 0)]) K V2)
        as (stE & -> & Hm & Hst & Hidle' & Hl & Hss & Hsm & Hsub & Happ);
        try reflexivity; auto
  end.
  destruct stE as [m strand h' l smgr ss sub app].
  cbn [m_map state_strand m_hasher m_list smgr_strand sessions submitted
       applied] in *.
  rewrite (update_second K _ _ Hne) in Hm, Hsm.
  cbn in Hm, Hsm, Hsub, Happ. subst.
  cbv beta iota.
  (* its broadcast, and what waits on the executors *)
  cbn. unfold get_next_impl. cbn. rewrite my_cmp_irrefl. cbn.
  eexists. split; [reflexivity|].
  split; [|cbn; auto].
  split; [reflexivity|]. split; [reflexivity|]. split; [exact Hidle'|].
  cbn. repeat constructor.
Qed.

Transparent sha1_hex.

(** X16: A session that joins while a key changes can be left with a hash
    that the map no longer holds.  For a key and two values with
    different digests there is a run of the server after which nothing
    waits or runs anywhere, the map holds the digest of the second value
    for the key, and the second session, alive and in the list of the
    registry, was sent the line of the second value by the broadcast
    first and the line of the first value by its walk last: the lambda
    that [on_got_message] posts calls [send], which posts [send_impl]
    behind the [send_impl] that the broadcast posted meanwhile. *)
Theorem late_session_can_be_left_with_a_stale_hash (K V1 V2 : shared_buffer) :
  clean_key K -> contains LF V1 = false -> contains LF V2 = false ->
  sha1_hex (V1 ++ String LF "")%string <> sha1_hex (V2 ++ String LF "")%string ->
  exists es st sess,
    run server_init es = Some st
    /\ quiet st
    /\ nth_error (sessions st) 1 = Some sess
    /\ In 1 (m_list st) /\ s_expired sess = false
    /\ map_find K (m_map st)
       = Some (K, sha1_hex (V2 ++ String LF "")%string)
    /\ map fst (s_written sess)
       = [line K (sha1_hex (V2 ++ String LF "")%string);
          line K (sha1_hex (V1 ++ String LF "")%string)].
Proof.
  intros HK HV1 HV2 Hne.
  destruct (late_events_run K V1 V2 HK HV1 HV2 Hne)
    as (st & Hrun & Hq & Hm & Hl & Hx & Hw).
  destruct (sessions st) as [|s0 [|s1 [|s2 ss]]] eqn:Hss;
    try discriminate Hx.
  simpl in Hx, Hw. injection Hx as _ Hx1. injection Hw as _ Hw1.
  exists (late_events K V1 V2), st, s1.
  split; [exact Hrun|]. split; [exact Hq|].
  rewrite Hss. split; [reflexivity|].
  split; [rewrite Hl; simpl; auto|]. split; [exact Hx1|].
  split.
  - rewrite Hm. simpl. now rewrite my_cmp_irrefl.
  - now rewrite Hw1.
Qed.

Lemma late_session_can_be_left_with_a_stale_hash_witness :
  exists es st sess,
    run server_init es = Some st
    /\ quiet st
    /\ nth_error (sessions st) 1 = Some sess
    /\ map_find "k" (m_map st)
       = Some ("k", sha1_hex ("2" ++ String LF "")%string)
    /\ map fst (s_written sess)
       = [line "k" (sha1_hex ("2" ++ String LF "")%string);
          line "k" (sha1_hex ("1" ++ String LF "")%string)].
Proof.
  destruct (late_session_can_be_left_with_a_stale_hash "k" "1" "2")
    as (es & st & sess & H1 & H2 & H3 & _ & _ & H6 & H7).
  - split; reflexivity.
  - reflexivity.
  - reflexivity.
  - vm_compute. discriminate.
  - exists es, st, sess. auto.
Defined.

(** ** The contents of the map *)

Lemma updated_keys_In (ops : list operation) (k : shared_buffer) :
  In k (updated_keys ops) <-> exists h, In (op_update k h) ops.
Proof.
  induction ops as [|o ops IH]; simpl.
  - split; [easy|]. now intros [h []].
  - destruct o as [key hash| | |it]; simpl; rewrite ?IH.
    + split.
      * intros [->|[h Hh]]; [exists hash|exists h]; auto.
      * intros [h [[= -> ->]|Hh]]; [now left|right; now exists h].
    + split; [intros [h Hh]; exists h; auto|].
      intros [h [Hh|Hh]]; [discriminate|now exists h].
    + split; [intros [h Hh]; exists h; auto|].
      intros [h [Hh|Hh]]; [discriminate|now exists h].
    + split; [intros [h Hh]; exists h; auto|].
      intros [h [Hh|Hh]]; [discriminate|now exists h].
Qed.

Lemma hash_calculated_key_in (m : map_type) (key hash : shared_buffer) :
  map_ok m -> In (key, hash) (fst (hash_calculated m key hash)).
Proof.
  intros Hok. apply (map_find_In key _ key hash).
  now rewrite hash_calculated_find, String.eqb_refl.
Qed.

Lemma In_keys (m : map_type) (k h : shared_buffer) :
  In (k, h) m -> In k (keys m).
Proof. intros Hin. unfold keys. apply in_map_iff. now exists (k, h). Qed.

Lemma run_operations_updated (ops : list operation) :
  forall m k, map_ok m ->
  In k (updated_keys ops) -> In k (keys (run_operations m ops)).
Proof.
  unfold run_operations.
  induction ops as [|o ops IH]; simpl; intros m k Hok; [easy|].
  assert (Hok' : map_ok (run_operation m o)) by (now apply run_operation_ok).
  destruct o as [key hash| | |it]; simpl; try (now apply IH).
  intros [<-|Hin]; [|now apply IH].
  apply (run_operations_keys ops). simpl.
  eapply In_keys. now apply hash_calculated_key_in.
Qed.

Lemma map_find_last_hash (ops : list operation) :
  forall m, map_ok m ->
  forall key,
    map_find key (run_operations m ops)
    = match last_hash key ops with
      | Some hash => Some (key, hash)
      | None => map_find key m
      end.
Proof.
  unfold run_operations.
  induction ops as [|o ops IH]; intros m Hok key; simpl; [reflexivity|].
  rewrite IH by now apply run_operation_ok.
  destruct (last_hash key ops); [reflexivity|].
  destruct o as [k hash| | |it]; simpl; try reflexivity.
  rewrite hash_calculated_find by exact Hok.
  destruct (String.eqb k key) eqn:E; [|reflexivity].
  apply String.eqb_eq in E. now subst k.
Qed.

(** X17: The map holds exactly the keys that were updated, each once and with
    the hash of its last update, whatever reads ([get_size], [get_first],
    [get_next]) ran in between; [get_size] reports the number of
    different keys updated. *)
Theorem map_holds_the_last_hash_of_each_updated_key (ops : list operation) :
  (forall k, In k (keys (run_operations [] ops)) <-> In k (updated_keys ops))
  /\ (forall k,
        map_find k (run_operations [] ops)
        = match last_hash k ops with
          | Some hash => Some (k, hash)
          | None => None
          end)
  /\ get_size_impl (run_operations [] ops)
     = List.length (nodup string_dec (updated_keys ops)).
Proof.
  assert (Hok : map_ok (run_operations [] ops))
    by (apply run_operations_ok, map_ok_nil).
  assert (Hkeys : forall k, In k (keys (run_operations [] ops))
                            <-> In k (updated_keys ops)).
  { intros k. split.
    - intros Hin. apply run_operations_keys_from in Hin.
      destruct Hin as [[]|Hex]. now apply updated_keys_In.
    - apply run_operations_updated, map_ok_nil. }
  split; [exact Hkeys|]. split.
  - intros k. now rewrite (map_find_last_hash ops [] map_ok_nil).
  - unfold get_size_impl. rewrite <- (length_map fst).
    fold (keys (run_operations [] ops)).
    apply Permutation_length, NoDup_Permutation.
    + now apply map_ok_NoDup.
    + apply NoDup_nodup.
    + intros k. rewrite Hkeys. symmetry. apply nodup_In.
Qed.

(** ** The server and the function [apply_updates] *)

Lemma apply_updates_map (kvs : list (shared_buffer * shared_buffer)) :
  forall m,
  fst (apply_updates m kvs)
  = run_operations m
      (map (fun kv => op_update (fst kv) (sha1_hex (snd kv))) kvs).
Proof.
  unfold run_operations.
  induction kvs as [|[k v] kvs IH]; intros m; simpl; [reflexivity|].
  unfold update. destruct (hash_calculated m k (sha1_hex v)) as [m1 r].
  specialize (IH m1). destruct (apply_updates m1 kvs) as [m2 out].
  simpl in *. exact IH.
Qed.

Lemma line_at_app apps a n :
  n < List.length apps -> line_at (apps ++ a) n = line_at apps n.
Proof. intros Hn. unfold line_at. now rewrite nth_error_app1. Qed.

(** The lines of the changes are the lines that [apply_updates]
    collects. *)
Lemma changes_lines (subs : list (update_cb * shared_buffer * shared_buffer)) :
  forall m (pre : list application),
  map (fun x => cb_seq (fst (fst x))) subs
  = seq (List.length pre) (List.length subs) ->
  map (line_at (pre ++ map sub_owed subs)) (changes m (map sub_owed subs))
  = snd (apply_updates m (map (fun x => (snd (fst x), snd x)) subs)).
Proof.
  induction subs as [|[[cb k] v] subs IH]; intros m pre Hseq; simpl;
    [reflexivity|].
  simpl in Hseq. injection Hseq as Hcb Hseq.
  unfold update.
  pose proof (on_updated_line m k (sha1_hex v)) as Hline.
  destruct (hash_calculated m k (sha1_hex v)) as [m1 r]. simpl in Hline.
  specialize (IH m1 (pre ++ [sub_owed (cb, k, v)])).
  rewrite length_app, Nat.add_1_r, <- app_assoc in IH. simpl in IH.
  specialize (IH Hseq).
  destruct (apply_updates m1 _) as [m2 out]. simpl in *.
  destruct (on_updated r) as [msg|]; simpl; [|exact IH].
  rewrite IH. f_equal. rewrite (Hline msg eq_refl).
  unfold line_at. rewrite Hcb, nth_error_app2, Nat.sub_diag by lia.
  reflexivity.
Qed.

Lemma written_lines_at apps (w : list (shared_buffer * send_cb)) :
  Forall (written_ok apps) w ->
  written_lines w = map (line_at apps) (written_seqs w).
Proof.
  induction 1 as [|[msg [n|it]] w Hx _ IH]; simpl; [reflexivity| |exact IH].
  destruct Hx as (cb & key & hash & Hn & ->).
  unfold line_at at 1. now rewrite Hn, IH.
Qed.

Lemma exec_lines_at apps (exec : list session_task) :
  Forall (session_task_ok apps) exec ->
  exec_lines exec = map (line_at apps) (exec_seqs exec).
Proof.
  induction 1 as [|[it str|msg [n|it]] exec Hx _ IH]; simpl;
    [reflexivity|exact IH| |exact IH].
  destruct Hx as (cb & key & hash & Hn & ->).
  unfold line_at at 1. now rewrite Hn, IH.
Qed.

Lemma smgr_lines_at apps (strand : list smgr_task) :
  Forall (smgr_task_ok apps) strand ->
  smgr_lines strand = map (line_at apps) (smgr_seqs strand).
Proof.
  induction 1 as [|[s|msg n] strand Hx _ IH]; simpl;
    [reflexivity|exact IH|].
  destruct Hx as (cb & key & hash & Hn & ->).
  unfold line_at at 1. now rewrite Hn, IH.
Qed.

Lemma applied_firstn st :
  server_inv st ->
  applied st
  = map sub_owed (firstn (List.length (applied st)) (submitted st)).
Proof.
  intros Hinv. rewrite <- firstn_map, (applied_prefix st Hinv).
  now rewrite firstn_app, Nat.sub_diag, firstn_all, firstn_O, app_nil_r.
Qed.

(** X18: The server, however its handlers interleave, does what the function
    [apply_updates] does with the lines accepted, taken in the order of
    acceptance: when [n] updates have been applied, the map is what
    [apply_updates] makes of the first [n] lines accepted, and for every
    session that is in the list of the registry and alive, the broadcast
    lines handed to [async_write] for it, then those waiting on its
    executor, then those waiting on the strand of the registry, are
    together the last of the lines that [apply_updates] collects for
    these [n] lines, in the same order. *)
Theorem server_refines_apply_updates (es : list event) (st : server) :
  run server_init es = Some st ->
  m_map st
  = fst (apply_updates []
           (firstn (List.length (applied st)) (accepted st)))
  /\ forall s sess,
       nth_error (sessions st) s = Some sess ->
       In s (m_list st) -> s_expired sess = false ->
       exists earlier,
         snd (apply_updates []
                (firstn (List.length (applied st)) (accepted st)))
         = earlier ++ written_lines (s_written sess)
           ++ exec_lines (s_exec sess) ++ smgr_lines (smgr_strand st).
Proof.
  intros Hrun.
  destruct (fanout_inv_run es _ _ server_inv_init server_data_inv_init
              fanout_inv_init Hrun) as (Hinv & Hdata & Hfan).
  pose proof (applied_firstn st Hinv) as Happ.
  set (done := firstn (List.length (applied st)) (submitted st)) in *.
  assert (Hacc : firstn (List.length (applied st)) (accepted st)
                 = map (fun x => (snd (fst x), snd x)) done).
  { unfold accepted, done. now rewrite firstn_map. }
  rewrite Hacc. split.
  - rewrite apply_updates_map, (dinv_map _ Hdata), Happ, !map_map.
    reflexivity.
  - intros s sess Hs Hin Hx.
    pose proof (fan_listed _ Hfan s Hin) as Hl.
    rewrite (nth_error_nth _ _ _ Hs) in Hl.
    destruct (Hl Hx) as [earlier He].
    assert (Hseq : map (fun x => cb_seq (fst (fst x))) done
                   = seq 0 (List.length done)).
    { pose proof (applied_numbers st Hinv) as Hn.
      rewrite Happ, map_map, length_map in Hn. exact Hn. }
    pose proof (changes_lines done [] [] Hseq) as Hc.
    simpl in Hc. rewrite <- Happ in Hc. rewrite <- Hc, He.
    exists (map (line_at (applied st)) earlier).
    unfold received. rewrite !map_app, <- !app_assoc.
    pose proof (dinv_sessions _ Hdata) as Hss. rewrite Forall_forall in Hss.
    destruct (Hss _ (nth_error_In _ _ Hs)) as [Hexec Hwr].
    rewrite (written_lines_at _ _ Hwr), (exec_lines_at _ _ Hexec).
    now rewrite (smgr_lines_at _ _ (dinv_smgr _ Hdata)).
Qed.

Lemma server_refines_apply_updates_witness :
  match run server_init
          [ev_accept; ev_smgr_strand; ev_state_strand;
           ev_receive 0
             ("k v" ++ String LF ("k v" ++ String LF ("k w" ++ String LF "")));
           ev_read 0; ev_read 0; ev_read 0;
           ev_state_strand; ev_state_strand; ev_state_strand;
           ev_hasher_strand; ev_hasher_strand; ev_hasher_strand;
           ev_pool 2; ev_pool 1; ev_pool 0;
           ev_hasher_strand; ev_hasher_strand; ev_hasher_strand;
           ev_hasher_strand; ev_hasher_strand; ev_hasher_strand;
           ev_state_strand; ev_state_strand; ev_state_strand;
           ev_smgr_strand; ev_session 0]
  with
  | Some st =>
      m_map st
      = fst (apply_updates []
               [("k", "v" ++ String LF ""); ("k", "v" ++ String LF "");
                ("k", "w" ++ String LF "")]%string)
  | None => False
  end.
Proof.
  destruct (run server_init _) as [st|] eqn:Hrun;
    [|vm_compute in Hrun; discriminate Hrun].
  destruct (server_refines_apply_updates _ _ Hrun) as [Hm _].
  rewrite Hm. vm_compute in Hrun. injection Hrun as <-. reflexivity.
Defined.

(** ** [common.hpp] *)

(** The offset basis and the values that the reference implementation of
    32-bit FNV-1a gives. *)
Example fnv1a_vectors :
  forall signed_char,
    Common.fnv1a signed_char "" = 0x811c9dc5%Z
    /\ Common.fnv1a signed_char "a" = 0xe40c292c%Z
    /\ Common.fnv1a signed_char "foobar" = 0xbf9cf968%Z.
Proof. intros []; repeat split; vm_compute; reflexivity. Qed.

Lemma take_four (a b c d : ascii) (rest : string) :
  take 4 (String a (String b (String c (String d rest))))
  = String a (String b (String c (String d ""))).
Proof. unfold take. simpl. now destruct rest. Qed.

Lemma handle_incomming_prefixed signed_char (a b c d : ascii) (rest : string) :
  Common.handle_incomming signed_char
    (String a (String b (String c (String d (String SP rest)))))
  = let hash :=
      Common.fnv1a signed_char (String a (String b (String c (String d ""))))
    in
    if (hash =? Common.fnv1a signed_char "PING")%Z then Some Common.ping_cb
    else if (hash =? Common.fnv1a signed_char "SYNC")%Z
         then Some Common.sync_cb
    else if (hash =? Common.fnv1a signed_char "DATA")%Z
         then Some Common.data_cb
    else None.
Proof.
  unfold Common.handle_incomming. rewrite take_four.
  cbn [String.length String.get Nat.ltb Nat.leb andb].
  reflexivity.
Qed.

(** X19: [handle_incomming] calls the callback of the keyword for every
    message that starts with [PING], [SYNC] or [DATA] and a space,
    whatever follows, and returns [false] without calling back for a
    message of at most four bytes and for one whose fifth byte is not a
    space. *)
Theorem keywords_reach_their_callbacks (signed_char : bool) :
  (forall rest,
     Common.handle_incomming signed_char ("PING " ++ rest)%string
     = Some Common.ping_cb
     /\ Common.handle_incomming signed_char ("SYNC " ++ rest)%string
        = Some Common.sync_cb
     /\ Common.handle_incomming signed_char ("DATA " ++ rest)%string
        = Some Common.data_cb)
  /\ (forall str, String.length str <= 4 ->
        Common.handle_incomming signed_char str = None)
  /\ (forall str c, String.get 4 str = Some c -> c <> SP ->
        Common.handle_incomming signed_char str = None).
Proof.
  split; [|split].
  - intros rest. cbn [append].
    rewrite !handle_incomming_prefixed.
    destruct signed_char; repeat split; vm_compute; reflexivity.
  - intros str Hlen. unfold Common.handle_incomming.
    apply Nat.ltb_ge in Hlen. now rewrite Hlen.
  - intros str c Hget Hne. unfold Common.handle_incomming. rewrite Hget.
    apply Ascii.eqb_neq in Hne. rewrite Hne. now rewrite andb_false_r.
Qed.

Lemma keywords_reach_their_callbacks_witness :
  Common.handle_incomming true "PING" = None
  /\ Common.handle_incomming true "PINGS 1" = None
  /\ Common.handle_incomming true "PING 1" = Some Common.ping_cb.
Proof.
  destruct (keywords_reach_their_callbacks true) as (H1 & H2 & H3).
  split; [apply H2; simpl; lia|].
  split; [apply (H3 _ "S"%char); [reflexivity|discriminate]|].
  apply (H1 "1").
Defined.

(** X20: The dispatch of [handle_incomming] compares hashes, not keywords: a
    message whose first four bytes are not [PING] is passed to the
    callback of [PING] when these bytes have the same FNV-1a hash, and
    such bytes exist, whether [char] is signed or not. *)
Theorem other_bytes_reach_the_ping_callback (signed_char : bool) :
  exists prefix,
    String.length prefix = 4
    /\ prefix <> "PING"
    /\ forall rest,
         Common.handle_incomming signed_char
           (prefix ++ String SP rest)%string
         = Some Common.ping_cb.
Proof.
  destruct signed_char.
  - exists (String "P" (String "I" (String (ascii_of_nat 182)
             (String (ascii_of_nat 191) "")))).
    split; [reflexivity|]. split; [discriminate|].
    intros rest. cbn [append]. rewrite handle_incomming_prefixed.
    vm_compute. reflexivity.
  - exists (String (ascii_of_nat 14) (String (ascii_of_nat 141)
             (String (ascii_of_nat 183) (String "j" "")))).
    split; [reflexivity|]. split; [discriminate|].
    intros rest. cbn [append]. rewrite handle_incomming_prefixed.
    vm_compute. reflexivity.
Qed.

(** *** Messages of seven-bit bytes *)

Lemma to_uint32_seven_bit signed_char (c : ascii) :
  seven_bit c = true ->
  Common.to_uint32 signed_char c = Z.of_N (N_of_ascii c)
  /\ (0 <= Z.of_N (N_of_ascii c) < 128)%Z.
Proof.
  unfold seven_bit, Common.to_uint32. intros H. apply N.ltb_lt in H.
  assert (Hb : (0 <= Z.of_N (N_of_ascii c) < 128)%Z) by lia.
  split; [|exact Hb].
  destruct (128 <=? Z.of_N (N_of_ascii c))%Z eqn:E.
  - apply Z.leb_le in E. lia.
  - now rewrite andb_false_r.
Qed.

Lemma lxor_range (h b : Z) :
  (0 <= h < 2 ^ 32)%Z -> (0 <= b < 128)%Z ->
  (0 <= Z.lxor h b < 2 ^ 32)%Z.
Proof.
  intros Hh Hb.
  assert (H0 : (0 <= Z.lxor h b)%Z) by (apply Z.lxor_nonneg; lia).
  split; [exact H0|].
  destruct (Z.eq_dec (Z.lxor h b) 0) as [->|Hne]; [reflexivity|].
  apply Z.log2_lt_pow2; [lia|].
  eapply Z.le_lt_trans; [apply Z.log2_lxor; lia|].
  apply Z.max_lub_lt.
  - destruct (Z.eq_dec h 0) as [->|Hh0]; [reflexivity|].
    apply Z.log2_lt_pow2; lia.
  - destruct (Z.eq_dec b 0) as [->|Hb0]; [reflexivity|].
    apply Z.log2_lt_pow2; lia.
Qed.

(** A step of [fnv1a] for a seven-bit byte, without the detour through
    64 bits. *)
Lemma fnv1a_step_seven_bit signed_char (h : Z) (c : ascii) :
  (0 <= h < 2 ^ 32)%Z -> seven_bit c = true ->
  Common.fnv1a_step signed_char h c
  = Z.land (Z.lxor h (Z.of_N (N_of_ascii c)) * 16777619) (Z.ones 32)
  /\ (0 <= Common.fnv1a_step signed_char h c < 2 ^ 32)%Z.
Proof.
  intros Hh Hc. destruct (to_uint32_seven_bit signed_char c Hc) as [Hu Hb].
  unfold Common.fnv1a_step. rewrite Hu. split.
  - rewrite Z.land_ones by lia.
    apply Z.mod_mod_divide. exists (2 ^ 32)%Z. reflexivity.
  - apply Z.mod_pos_bound. reflexivity.
Qed.

(** Undoing a step. *)
Lemma fnv1a_unstep_step (h b : Z) :
  (0 <= h < 2 ^ 32)%Z -> (0 <= b < 128)%Z ->
  Z.land (Z.land (Z.lxor h b * 16777619) (Z.ones 32) * inverse_prime)
    (Z.ones 32)
  = Z.lxor h b.
Proof.
  intros Hh Hb. pose proof (lxor_range h b Hh Hb) as Hx.
  rewrite !Z.land_ones by lia.
  rewrite Z.mul_mod_idemp_l by (intros H; discriminate H).
  rewrite <- Z.mul_assoc.
  change (16777619 * inverse_prime)%Z with (1 + 3513497 * 2 ^ 32)%Z.
  rewrite Z.mul_add_distr_l, Z.mul_1_r, Z.mul_assoc.
  rewrite Z.mod_add by (intros H; discriminate H).
  apply Z.mod_small. exact Hx.
Qed.

Lemma lxor_cancel (h b : Z) : Z.lxor (Z.lxor h b) b = h.
Proof. now rewrite Z.lxor_assoc, Z.lxor_nilpotent, Z.lxor_0_r. Qed.

Lemma fnv1a_unstep_spec (h b t : Z) :
  (0 <= h < 2 ^ 32)%Z -> (0 <= b < 128)%Z ->
  t = Z.land (Z.lxor h b * 16777619) (Z.ones 32) ->
  fnv1a_unstep t b = h.
Proof.
  intros Hh Hb ->. unfold fnv1a_unstep.
  rewrite (fnv1a_unstep_step h b Hh Hb). apply lxor_cancel.
Qed.

Lemma shiftr_seven (h b : Z) :
  (0 <= b < 128)%Z -> Z.shiftr (Z.lxor h b) 7 = Z.shiftr h 7.
Proof.
  intros Hb. rewrite Z.shiftr_lxor.
  rewrite (Z.shiftr_div_pow2 b) by lia.
  rewrite (Z.div_small b) by (change (2 ^ 7)%Z with 128%Z; lia).
  apply Z.lxor_0_r.
Qed.

Lemma seven_bit_values_In (b : Z) :
  (0 <= b < 128)%Z -> In b seven_bit_values.
Proof.
  intros Hb. unfold seven_bit_values. apply in_map_iff.
  exists (Z.to_nat b). split; [lia|]. apply in_seq. lia.
Qed.

(** The search is right: when it succeeds, four seven-bit bytes with the
    hash [t] are the four expected. *)
Lemma only_preimage_sound (t w1 w2 w3 w4 b1 b2 b3 b4 : Z) :
  only_preimage t w1 w2 w3 w4 = true ->
  (0 <= b1 < 128)%Z -> (0 <= b2 < 128)%Z ->
  (0 <= b3 < 128)%Z -> (0 <= b4 < 128)%Z ->
  let step h b := Z.land (Z.lxor h b * 16777619) (Z.ones 32) in
  t = step (step (step (step 2166136261%Z b1) b2) b3) b4 ->
  b1 = w1 /\ b2 = w2 /\ b3 = w3 /\ b4 = w4.
Proof.
  intros Hcheck H1 H2 H3 H4 step Ht.
  assert (Hrange : forall h b, (0 <= step h b < 2 ^ 32)%Z).
  { intros h b. unfold step. rewrite Z.land_ones by lia.
    apply Z.mod_pos_bound. reflexivity. }
  set (h1 := step 2166136261%Z b1) in *.
  set (h2 := step h1 b2) in *.
  set (h3 := step h2 b3) in *.
  unfold only_preimage in Hcheck.
  rewrite forallb_forall in Hcheck.
  specialize (Hcheck b4 (seven_bit_values_In b4 H4)).
  rewrite (fnv1a_unstep_spec h3 b4 t (Hrange _ _) H4 Ht) in Hcheck.
  rewrite forallb_forall in Hcheck.
  specialize (Hcheck b3 (seven_bit_values_In b3 H3)).
  rewrite (fnv1a_unstep_spec h2 b3 h3 (Hrange _ _) H3 eq_refl) in Hcheck.
  assert (Hy : Z.land (h2 * inverse_prime) (Z.ones 32) = Z.lxor h1 b2)
    by (apply fnv1a_unstep_step; [apply Hrange | exact H2]).
  rewrite Hy in Hcheck.
  rewrite forallb_forall in Hcheck.
  specialize (Hcheck (b1, h1, Z.shiftr h1 7)).
  simpl in Hcheck.
  rewrite (shiftr_seven h1 b2 H2), Z.eqb_refl in Hcheck.
  assert (Hin : In (b1, h1, Z.shiftr h1 7) first_steps).
  { unfold first_steps. apply in_map_iff. exists b1. split; [reflexivity|].
    now apply seven_bit_values_In. }
  specialize (Hcheck Hin).
  apply andb_true_iff in Hcheck. destruct Hcheck as [Hcheck Hb4].
  apply andb_true_iff in Hcheck. destruct Hcheck as [Hcheck Hb3].
  apply andb_true_iff in Hcheck. destruct Hcheck as [Hb1 Hb2].
  apply Z.eqb_eq in Hb1, Hb2, Hb3, Hb4.
  rewrite <- Z.lxor_assoc, Z.lxor_nilpotent, Z.lxor_0_l in Hb2.
  auto.
Qed.

Lemma fnv1a_four signed_char (a b c d : ascii) :
  seven_bit a = true -> seven_bit b = true ->
  seven_bit c = true -> seven_bit d = true ->
  let step h b := Z.land (Z.lxor h b * 16777619)%Z (Z.ones 32) in
  let v x := Z.of_N (N_of_ascii x) in
  Common.fnv1a signed_char (String a (String b (String c (String d ""))))
  = step (step (step (step 2166136261%Z (v a)) (v b)) (v c)) (v d).
Proof.
  intros Ha Hb Hc Hd step v.
  unfold Common.fnv1a. cbn [Common.fnv1a_from].
  assert (H0 : (0 <= 2166136261 < 2 ^ 32)%Z) by (split; [lia|reflexivity]).
  destruct (fnv1a_step_seven_bit signed_char _ a H0 Ha) as [E1 R1].
  destruct (fnv1a_step_seven_bit signed_char _ b R1 Hb) as [E2 R2].
  destruct (fnv1a_step_seven_bit signed_char _ c R2 Hc) as [E3 R3].
  destruct (fnv1a_step_seven_bit signed_char _ d R3 Hd) as [E4 R4].
  rewrite E4, E3, E2, E1. reflexivity.
Qed.

Lemma ascii_of_value (a : ascii) (n : N) :
  Z.of_N (N_of_ascii a) = Z.of_N n -> a = ascii_of_N n.
Proof.
  intros H. apply N2Z.inj in H. rewrite <- H.
  symmetry. apply ascii_N_embedding.
Qed.

Lemma only_ping : only_preimage 43150473 80 73 78 71 = true.
Proof. vm_compute. reflexivity. Qed.

Lemma only_sync : only_preimage 1198286938 83 89 78 67 = true.
Proof. vm_compute. reflexivity. Qed.

Lemma only_data : only_preimage 3288857317 68 65 84 65 = true.
Proof. vm_compute. reflexivity. Qed.

(** Four seven-bit bytes with the hash of a keyword are the keyword. *)
Lemma seven_bit_hash_exact signed_char (a b c d : ascii) :
  seven_bit a = true -> seven_bit b = true ->
  seven_bit c = true -> seven_bit d = true ->
  let key := String a (String b (String c (String d ""))) in
  (Common.fnv1a signed_char key = Common.fnv1a signed_char "PING" ->
   key = "PING")
  /\ (Common.fnv1a signed_char key = Common.fnv1a signed_char "SYNC" ->
      key = "SYNC")
  /\ (Common.fnv1a signed_char key = Common.fnv1a signed_char "DATA" ->
      key = "DATA").
Proof.
  intros Ha Hb Hc Hd key.
  pose proof (fnv1a_four signed_char a b c d Ha Hb Hc Hd) as Hk.
  cbv zeta in Hk. fold key in Hk.
  destruct (to_uint32_seven_bit signed_char a Ha) as [_ Ra].
  destruct (to_uint32_seven_bit signed_char b Hb) as [_ Rb].
  destruct (to_uint32_seven_bit signed_char c Hc) as [_ Rc].
  destruct (to_uint32_seven_bit signed_char d Hd) as [_ Rd].
  assert (Hp : Common.fnv1a signed_char "PING" = 43150473%Z)
    by (destruct signed_char; vm_compute; reflexivity).
  assert (Hs : Common.fnv1a signed_char "SYNC" = 1198286938%Z)
    by (destruct signed_char; vm_compute; reflexivity).
  assert (Hdt : Common.fnv1a signed_char "DATA" = 3288857317%Z)
    by (destruct signed_char; vm_compute; reflexivity).
  rewrite Hp, Hs, Hdt, Hk.
  split; [|split]; intros He; symmetry in He.
  - destruct (only_preimage_sound _ _ _ _ _ _ _ _ _ only_ping Ra Rb Rc Rd He)
      as (E1 & E2 & E3 & E4).
    unfold key.
    rewrite (ascii_of_value a 80 E1), (ascii_of_value b 73 E2),
      (ascii_of_value c 78 E3), (ascii_of_value d 71 E4).
    reflexivity.
  - destruct (only_preimage_sound _ _ _ _ _ _ _ _ _ only_sync Ra Rb Rc Rd He)
      as (E1 & E2 & E3 & E4).
    unfold key.
    rewrite (ascii_of_value a 83 E1), (ascii_of_value b 89 E2),
      (ascii_of_value c 78 E3), (ascii_of_value d 67 E4).
    reflexivity.
  - destruct (only_preimage_sound _ _ _ _ _ _ _ _ _ only_data Ra Rb Rc Rd He)
      as (E1 & E2 & E3 & E4).
    unfold key.
    rewrite (ascii_of_value a 68 E1), (ascii_of_value b 65 E2),
      (ascii_of_value c 84 E3), (ascii_of_value d 65 E4).
    reflexivity.
Qed.

(** X21: For a message whose first four bytes are seven-bit bytes, ASCII for
    one, the dispatch by hash is exact: [handle_incomming] calls the
    callback of a keyword exactly when the message starts with that
    keyword, and returns [false] exactly when it starts with none of the
    three; whether [char] is signed does not matter. *)
Theorem seven_bit_messages_reach_only_their_callback
    (signed_char : bool) (a b c d : ascii) (rest : string) :
  seven_bit a = true -> seven_bit b = true ->
  seven_bit c = true -> seven_bit d = true ->
  let key := String a (String b (String c (String d ""))) in
  let msg := String a (String b (String c (String d (String SP rest)))) in
  (Common.handle_incomming signed_char msg = Some Common.ping_cb
   <-> key = "PING")
  /\ (Common.handle_incomming signed_char msg = Some Common.sync_cb
      <-> key = "SYNC")
  /\ (Common.handle_incomming signed_char msg = Some Common.data_cb
      <-> key = "DATA")
  /\ (Common.handle_incomming signed_char msg = None
      <-> key <> "PING" /\ key <> "SYNC" /\ key <> "DATA").
Proof.
  intros Ha Hb Hc Hd key msg.
  destruct (seven_bit_hash_exact signed_char a b c d Ha Hb Hc Hd)
    as (Hp & Hs & Hdt).
  fold key in Hp, Hs, Hdt.
  assert (Hmsg : Common.handle_incomming signed_char msg
                 = if (Common.fnv1a signed_char key
                       =? Common.fnv1a signed_char "PING")%Z
                   then Some Common.ping_cb
                   else if (Common.fnv1a signed_char key
                            =? Common.fnv1a signed_char "SYNC")%Z
                        then Some Common.sync_cb
                   else if (Common.fnv1a signed_char key
                            =? Common.fnv1a signed_char "DATA")%Z
                        then Some Common.data_cb
                   else None)
    by (apply handle_incomming_prefixed).
  assert (Hne : Common.fnv1a signed_char "PING"
                <> Common.fnv1a signed_char "SYNC"
                /\ Common.fnv1a signed_char "PING"
                   <> Common.fnv1a signed_char "DATA"
                /\ Common.fnv1a signed_char "SYNC"
                   <> Common.fnv1a signed_char "DATA")
    by (destruct signed_char; vm_compute; repeat split; discriminate).
  destruct Hne as (N1 & N2 & N3).
  rewrite Hmsg. clear Hmsg.
  destruct (Z.eqb_spec (Common.fnv1a signed_char key)
              (Common.fnv1a signed_char "PING")) as [E1|E1];
    [|destruct (Z.eqb_spec (Common.fnv1a signed_char key)
                  (Common.fnv1a signed_char "SYNC")) as [E2|E2];
      [|destruct (Z.eqb_spec (Common.fnv1a signed_char key)
                    (Common.fnv1a signed_char "DATA")) as [E3|E3]]];
    try (pose proof (Hp E1) as Hk);
    try (pose proof (Hs E2) as Hk);
    try (pose proof (Hdt E3) as Hk);
    repeat split; intros;
    repeat match goal with
           | H : _ /\ _ |- _ => destruct H
           end;
    try discriminate; try congruence; auto;
    match goal with
    | H : key = _ |- _ => rewrite H in *; congruence
    | |- key <> _ => let H := fresh in intros H; rewrite H in *; congruence
    end.
Qed.

Lemma seven_bit_messages_reach_only_their_callback_witness :
  Common.handle_incomming true "PONG 1" = None
  /\ Common.handle_incomming true "DATA k v" = Some Common.data_cb.
Proof.
  split.
  - apply (proj2 (proj2 (proj2
             (seven_bit_messages_reach_only_their_callback true
                "P" "O" "N" "G" "1" eq_refl eq_refl eq_refl eq_refl)))).
    repeat split; discriminate.
  - apply (proj1 (proj2 (proj2
             (seven_bit_messages_reach_only_their_callback true
                "D" "A" "T" "A" "k v" eq_refl eq_refl eq_refl eq_refl)))).
    reflexivity.
Defined.

(** ** [acceptor] *)

(** Only an accept makes a session. *)
Lemma step_sessions_length st e st' :
  step st e = Some st' ->
  e <> ev_accept ->
  List.length (sessions st') = List.length (sessions st).
Proof.
  destruct e as [|s bytes|s|s ec| | |i| |s|s i ok|s]; simpl;
    intros Hs Hne; try congruence.
  - unfold receive in Hs.
    destruct (nth_error (sessions st) s) as [sess|]; [|discriminate].
    destruct (s_reading sess); [|discriminate].
    inversion Hs; subst. simpl. apply update_nth_length.
  - unfold read in Hs.
    destruct (nth_error (sessions st) s) as [sess|]; [|discriminate].
    destruct (s_reading sess); [|discriminate].
    destruct (find LF (s_buf sess)); [|discriminate].
    inversion Hs; subst. unfold readed_step.
    destruct (on_readed _ _ _); simpl; apply update_nth_length.
  - unfold read_error in Hs.
    destruct (nth_error (sessions st) s) as [sess|]; [|discriminate].
    destruct ec; try discriminate;
      (destruct (s_reading sess); [|discriminate];
       destruct (find LF (s_buf sess)); [discriminate|];
       inversion Hs; subst; unfold readed_step;
       destruct (on_readed _ _ _); simpl; apply update_nth_length).
  - unfold state_strand_step in Hs.
    destruct (state_strand st) as [|t strand]; [discriminate|].
    destruct t as [key val cb|key hash cb|s|it s].
    + inversion Hs; subst. reflexivity.
    + destruct (hash_calculated (m_map st) key hash) as [m r].
      inversion Hs; subst. reflexivity.
    + inversion Hs; subst. simpl. apply got_message_length.
    + inversion Hs; subst. simpl. apply got_message_length.
  - unfold hasher_strand in Hs.
    destruct (hasher_strand_step (m_hasher st)) as [[h calls]|];
      [|discriminate].
    inversion Hs; subst. reflexivity.
  - unfold pool in Hs.
    destruct (hasher_pool_step (m_hasher st) i); [|discriminate].
    inversion Hs; subst. reflexivity.
  - unfold smgr_strand_step in Hs.
    destruct (smgr_strand st) as [|t strand]; [discriminate|].
    destruct t as [s|msg seq].
    + inversion Hs; subst. reflexivity.
    + pose proof (proj1 (broadcast_posts msg seq (m_list st) (sessions st)))
        as Hlen.
      destruct (broadcast (m_list st) msg seq (sessions st)) as [l ss].
      inversion Hs; subst. exact Hlen.
  - unfold session_step in Hs.
    destruct (nth_error (sessions st) s) as [sess|]; [|discriminate].
    destruct (s_exec sess) as [|t exec]; [discriminate|].
    destruct t; inversion Hs; subst; simpl; apply update_nth_length.
  - unfold written in Hs.
    destruct (nth_error (sessions st) s) as [sess|]; [|discriminate].
    destruct (nth_error (s_writing sess) i) as [cb|]; [|discriminate].
    destruct ok, cb; inversion Hs; subst; simpl; apply update_nth_length.
  - unfold expire in Hs.
    destruct (nth_error (sessions st) s) as [sess|]; [|discriminate].
    destruct (s_reading sess); [discriminate|].
    inversion Hs; subst. simpl. apply update_nth_length.
Qed.

(** What a step of the server with its acceptor does to the number of
    sessions and to the pending accept. *)
Lemma node_step_sessions n e n' :
  node_step n e = Some n' ->
  nd_running n = true
  /\ List.length (sessions (nd_server n'))
     = List.length (sessions (nd_server n))
       + (if starts_session e then 1 else 0)
  /\ (is_accepted e = true -> nd_accepting n = true)
  /\ (is_accepted e = false -> nd_accepting n' = nd_accepting n)
  /\ (is_accepted e = true -> starts_session e = false ->
      nd_accepting n' = false).
Proof.
  unfold node_step. destruct (nd_running n); [|discriminate].
  destruct e as [ec rep peer|e]; intros Hs.
  - destruct (nd_accepting n); [|discriminate].
    destruct ec, rep, peer; simpl in Hs; inversion Hs; subst; simpl;
      repeat split; try reflexivity; try discriminate; try lia;
      unfold accept; simpl; rewrite length_app; simpl; lia.
  - assert (Hne : e <> ev_accept) by (intros ->; discriminate Hs).
    assert (Hs' : match step (nd_server n) e with
                  | Some st => Some (mk_node st (nd_accepting n) true)
                  | None => None
                  end = Some n') by (destruct e; congruence).
    destruct (step (nd_server n) e) as [st|] eqn:He; [|discriminate].
    inversion Hs'; subst. simpl.
    rewrite (step_sessions_length _ _ _ He Hne).
    repeat split; try reflexivity; try discriminate; lia.
Qed.

(** In every run the sessions are those of the accepts that made one. *)
Lemma node_run_sessions (es : list node_event) :
  forall n n',
  node_run n es = Some n' ->
  List.length (sessions (nd_server n'))
  = List.length (sessions (nd_server n))
    + List.length (filter starts_session es).
Proof.
  induction es as [|e es IH]; intros n n' Hrun; simpl in Hrun.
  - inversion Hrun; subst. simpl. lia.
  - destruct (node_step n e) as [n1|] eqn:Hs; [|discriminate].
    rewrite (IH _ _ Hrun).
    destruct (node_step_sessions _ _ _ Hs) as (_ & Hlen & _).
    rewrite Hlen. simpl. destruct (starts_session e); simpl; lia.
Qed.

(** Once no accept is pending, none ever is, and no accept completes. *)
Lemma node_run_stopped (es : list node_event) :
  forall n n',
  nd_accepting n = false ->
  node_run n es = Some n' ->
  nd_accepting n' = false
  /\ Forall (fun e => is_accepted e = false) es.
Proof.
  induction es as [|e es IH]; intros n n' Hacc Hrun; simpl in Hrun.
  - inversion Hrun; subst. split; [exact Hacc|constructor].
  - destruct (node_step n e) as [n1|] eqn:Hs; [|discriminate].
    destruct (node_step_sessions _ _ _ Hs) as (_ & _ & H1 & H2 & _).
    destruct (is_accepted e) eqn:He.
    + specialize (H1 eq_refl). congruence.
    + destruct (IH n1 n') as [Ha Hf]; [rewrite H2; auto|exact Hrun|].
      split; [exact Ha|]. constructor; assumption.
Qed.

(** X22: The accept that fails, or whose socket has lost its peer, is the
    last.  [on_accepted] then returns, or is left by the exception of
    [remote_endpoint], without making a session and without calling
    [start]: in whatever follows no accept is pending and none completes,
    so that the sessions of the server are those of the accepts that
    succeeded before.  After the exception nothing follows at all. *)
Theorem failed_accept_ends_accepting
    (es1 es2 : list node_event) (n n1 n' : node)
    (ec : error_code) (rep peer : bool) :
  node_run node_init es1 = Some n ->
  node_step n (nd_accepted ec rep peer) = Some n1 ->
  ec <> ec_success \/ rep = false \/ peer = false ->
  node_run n1 es2 = Some n' ->
  nd_server n1 = nd_server n
  /\ nd_accepting n' = false
  /\ (forall ec' rep' peer',
        node_step n' (nd_accepted ec' rep' peer') = None)
  /\ Forall (fun e => is_accepted e = false) es2
  /\ List.length (sessions (nd_server n'))
     = List.length (filter starts_session es1)
  /\ (ec = ec_success -> es2 = [] /\ nd_running n' = false).
Proof.
  intros Hrun1 Hstep Hfail Hrun2.
  assert (Hno : starts_session (nd_accepted ec rep peer) = false).
  { destruct ec, rep, peer; try reflexivity.
    destruct Hfail as [H|[H|H]]; congruence. }
  destruct (node_step_sessions _ _ _ Hstep) as (Hr & Hlen & _ & _ & Hstop).
  specialize (Hstop eq_refl Hno).
  destruct (node_run_stopped _ _ _ Hstop Hrun2) as [Hacc Hnone].
  assert (Hsame : nd_server n1 = nd_server n).
  { unfold node_step in Hstep. rewrite Hr in Hstep.
    destruct (nd_accepting n); [|discriminate].
    destruct ec, rep, peer; simpl in Hstep, Hno; try discriminate;
      inversion Hstep; reflexivity. }
  split; [exact Hsame|]. split; [exact Hacc|]. split.
  { intros ec' rep' peer'. unfold node_step. rewrite Hacc.
    now destruct (nd_running n'). }
  split; [exact Hnone|]. split.
  { rewrite (node_run_sessions _ _ _ Hrun2), Hsame.
    rewrite (node_run_sessions _ _ _ Hrun1). simpl.
    assert (Hz : filter starts_session es2 = []).
    { clear -Hnone. induction Hnone as [|e es He _ IH]; [reflexivity|].
      simpl. destruct e; [discriminate He|exact IH]. }
    rewrite Hz. simpl. lia. }
  intros ->.
  assert (Hdead : nd_running n1 = false).
  { unfold node_step in Hstep. rewrite Hr in Hstep.
    destruct (nd_accepting n); [|discriminate].
    destruct rep, peer; simpl in Hstep, Hno; try discriminate;
      inversion Hstep; reflexivity. }
  destruct es2 as [|e es2].
  - inversion Hrun2; subst. auto.
  - simpl in Hrun2. unfold node_step in Hrun2. rewrite Hdead in Hrun2.
    discriminate.
Qed.

Lemma failed_accept_ends_accepting_witness :
  exists n',
    node_run node_init
      ([nd_accepted ec_success true true; nd_step ev_smgr_strand;
        nd_accepted ec_success true true]
       ++ nd_accepted ec_other true true
       :: [nd_step ev_state_strand; nd_step ev_smgr_strand])
    = Some n'
    /\ List.length (sessions (nd_server n')) = 2
    /\ node_step n' (nd_accepted ec_success true true) = None.
Proof.
  set (es1 := [nd_accepted ec_success true true; nd_step ev_smgr_strand;
               nd_accepted ec_success true true]).
  set (es2 := [nd_step ev_state_strand; nd_step ev_smgr_strand]).
  destruct (node_run node_init es1) as [n|] eqn:H1;
    [|vm_compute in H1; discriminate H1].
  destruct (node_step n (nd_accepted ec_other true true)) as [n1|] eqn:H2;
    [|vm_compute in H1; inversion H1; subst n; vm_compute in H2;
      discriminate H2].
  destruct (node_run n1 es2) as [n'|] eqn:H3;
    [|vm_compute in H1; inversion H1; subst n; vm_compute in H2;
      inversion H2; subst n1; vm_compute in H3; discriminate H3].
  assert (Hfail : ec_other <> ec_success \/ true = false \/ true = false)
    by (left; discriminate).
  destruct (failed_accept_ends_accepting es1 es2 n n1 n' ec_other true true
              H1 H2 Hfail H3) as (_ & _ & Hnone & _ & Hlen & _).
  exists n'. split.
  - assert (Hrun : forall a b x y z,
              node_run x a = Some y -> node_run y b = Some z ->
              node_run x (a ++ b) = Some z).
    { induction a as [|e a IH]; intros b x y z Ha Hb; simpl in *.
      - inversion Ha; subst. exact Hb.
      - destruct (node_step x e); [|discriminate]. eapply IH; eauto. }
    apply (Hrun es1 _ node_init n n' H1). simpl. rewrite H2. exact H3.
  - split; [exact Hlen|apply Hnone].
Defined.

(** ** The walk and the life of the session *)

Opaque sha1_hex.

Lemma gone_events_run (K V : shared_buffer) :
  clean_key K -> contains LF V = false ->
  exists st,
    run server_init (gone_events K V) = Some st
    /\ m_map st = [(K, sha1_hex (V ++ String LF "")%string)]
    /\ state_strand st = [t_get_first 1]
    /\ idle_hasher (m_hasher st)
    /\ sessions st
       = [mk_session "" true false [] []
            [(line K (sha1_hex (V ++ String LF "")%string), cb_broadcast 0)];
          mk_session "" false true [] [] []].
Proof.
  intros HK HV.
  unfold gone_events. rewrite run_app.
  change (run server_init [ev_accept; ev_smgr_strand; ev_state_strand])
    with (Some (mk_server [] [] (@hasher_init hash_cb) [0] []
                  [new_session] [] [])).
  cbv beta iota. rewrite run_app.
  destruct (update_round
              (mk_server [] [] (@hasher_init hash_cb) [0] [] [new_session]
                 [] [])
              0 new_session K V)
    as (stB & -> & Hm & Hst & Hidle & Hl & Hss & Hsm & Hsub & Happ);
    try reflexivity; auto; [repeat split|].
  destruct stB as [m strand h l smgr ss sub app].
  cbn [m_map state_strand m_hasher m_list smgr_strand sessions submitted
       applied] in *.
  rewrite update_first in Hm, Hsm. cbn in Hm, Hsm, Hsub, Happ. subst.
  cbv beta iota. cbn.
  eexists. split; [reflexivity|]. cbn. repeat split; auto; apply Hidle.
Qed.

Transparent sha1_hex.

(** X23: The walk can outlive its session.  The handlers of the walk capture
    [this] only, and a session is held by its pending read, its pending
    updates and its pending sends.  For every key and value there is a
    run in which a session is accepted while the map holds an entry, its
    peer closes, nothing holds the session any more and its object is
    gone, and yet the [get_first] that [session::start] posted waits on
    the strand of the state; its handler then calls [on_got_message] of
    that session, which posts to the executor of its socket. *)
Theorem walk_can_outlive_its_session (K V : shared_buffer) :
  clean_key K -> contains LF V = false ->
  exists es st st',
    run server_init es = Some st
    /\ s_expired (nth 1 (sessions st) new_session) = true
    /\ held st 1 = false
    /\ state_strand st = [t_get_first 1]
    /\ step st ev_state_strand = Some st'
    /\ s_exec (nth 1 (sessions st') new_session)
       = [t_sync_send K (line K (sha1_hex (V ++ String LF "")%string))].
Proof.
  intros HK HV.
  destruct (gone_events_run K V HK HV) as (st & Hrun & Hm & Hst & Hidle & Hss).
  exists (gone_events K V), st.
  destruct st as [m strand h l smgr ss sub app].
  cbn [m_map state_strand m_hasher sessions] in *. subst.
  destruct Hidle as (Hq & Hc & Hs & Hp).
  eexists. split; [exact Hrun|]. split; [reflexivity|]. split.
  - unfold held. cbn. cbn in Hq, Hc, Hs. now rewrite Hq, Hc, Hs.
  - split; [reflexivity|]. cbn. split; reflexivity.
Qed.

Lemma walk_can_outlive_its_session_witness :
  exists es st st',
    run server_init es = Some st
    /\ held st 1 = false
    /\ step st ev_state_strand = Some st'
    /\ s_exec (nth 1 (sessions st') new_session)
       = [t_sync_send "k" (line "k" (sha1_hex ("v" ++ String LF "")%string))].
Proof.
  destruct (walk_can_outlive_its_session "k" "v")
    as (es & st & st' & H1 & _ & H3 & _ & H5 & H6).
  - split; reflexivity.
  - reflexivity.
  - exists es, st, st'. auto.
Defined.

(** ** Updates of a value that the map already holds *)

(** The claim C4 as it is worded fails on the map that one
    [update(k, v)] leaves on an empty server: three further submissions
    of [update(k, v)] are broadcast not once but never, and [update(k, v)]
    then [update(k, w)], whose digests differ, are broadcast once, not
    twice. *)
Lemma repeats_of_the_stored_value_are_not_broadcast :
  fst (update [] "k" "v") = [("k", sha1_hex "v")]
  /\ map_ok [("k", sha1_hex "v")]
  /\ 1 <= 3
  /\ snd (apply_updates [("k", sha1_hex "v")] (repeat ("k", "v") 3)) = []
  /\ Sha1.get_digest (bytes_of "v") <> Sha1.get_digest (bytes_of "w")
  /\ snd (apply_updates [("k", sha1_hex "v")] [("k", "v"); ("k", "w")])
     = [line "k" (sha1_hex "w")].
Proof.
  split; [vm_compute; reflexivity|].
  split; [repeat constructor|].
  split; [lia|].
  split; [vm_compute; reflexivity|].
  split; [vm_compute; intros H; discriminate H|].
  vm_compute; reflexivity.
Qed.

(** ** What the peer of a connection receives *)

(** The server does in a run of the network what it does in a run of
    its own: the sockets only follow. *)
Lemma network_run_server (es : list network_event) :
  forall nw nw',
  network_run nw es = Some nw' ->
  run (nw_server nw) (server_events es) = Some (nw_server nw').
Proof.
  induction es as [|e es IH]; intros nw nw' Hrun; simpl in Hrun.
  - now inversion Hrun.
  - destruct (network_step nw e) as [nw1|] eqn:Hs; [|discriminate].
    specialize (IH _ _ Hrun). destruct e as [e|s i n]; simpl in Hs |- *.
    + destruct (step (nw_server nw) e) as [st|]; [|discriminate].
      destruct (sockets_step (nw_server nw) e (nw_sockets nw));
        [|discriminate].
      inversion Hs; subst. exact IH.
    + destruct (nth_error (nw_sockets nw) s) as [sk|]; [|discriminate].
      destruct (write_some sk i n); [|discriminate].
      inversion Hs; subst. exact IH.
Qed.

